(** * Gap Safe screening rules: the epsilon-norm solver, the penalty grid
      and the regularisation-path driver

    Shallow embedding of [sgl_tools.py] ([vect_ST], [epsilon_norm],
    [build_lambdas]) and of [save_logreg.py] ([logreg_path]).

    Numbers.  A numpy [float64] is modelled by [npfloat]: a real number, one
    of the two infinities, or NaN.  Arithmetic on finite values is exact real
    arithmetic (rounding, overflow and the sign of zero are abstracted away);
    division by zero, the square root of a negative number and comparisons
    with NaN follow IEEE 754 the way numpy applies them (a warning, never an
    exception).  Python exceptions are modelled by [Raise]. *)

From Stdlib Require Import Reals Lra Lia List Permutation Sorted ZArith Bool.
From stdpp Require Import base list.
Import ListNotations.

(** ** Python results and numpy scalars *)

Module Np.

Inductive exn : Type :=
| ValueError
| IndexError
| ZeroDivisionError.

Inductive result (A : Type) : Type :=
| Ret (a : A)
| Raise (e : exn).

Arguments Ret {A} a.
Arguments Raise {A} e.

Definition bind {A B : Type} (m : result A) (k : A -> result B) : result B :=
  match m with
  | Ret a => k a
  | Raise e => Raise e
  end.

Inductive npfloat : Type :=
| Fin (r : R)
| PInf
| NInf
| NaN.

Definition Rltb (a b : R) : bool := if Rlt_dec a b then true else false.
Definition Rleb (a b : R) : bool := if Rle_dec a b then true else false.
Definition Reqb (a b : R) : bool := if Req_dec_T a b then true else false.

Definition np_neg (a : npfloat) : npfloat :=
  match a with
  | Fin r => Fin (- r)
  | PInf => NInf
  | NInf => PInf
  | NaN => NaN
  end.

Definition np_add (a b : npfloat) : npfloat :=
  match a, b with
  | NaN, _ | _, NaN => NaN
  | Fin x, Fin y => Fin (x + y)
  | PInf, NInf | NInf, PInf => NaN
  | PInf, _ | _, PInf => PInf
  | NInf, _ | _, NInf => NInf
  end.

Definition np_sub (a b : npfloat) : npfloat := np_add a (np_neg b).

(** An infinity times a finite [x]: NaN at zero, otherwise the sign rule. *)
Definition inf_times (positive : bool) (x : R) : npfloat :=
  if Reqb x 0 then NaN
  else if eqb positive (Rltb 0 x) then PInf else NInf.

Definition np_mul (a b : npfloat) : npfloat :=
  match a, b with
  | NaN, _ | _, NaN => NaN
  | Fin x, Fin y => Fin (x * y)
  | Fin x, PInf | PInf, Fin x => inf_times true x
  | Fin x, NInf | NInf, Fin x => inf_times false x
  | PInf, PInf | NInf, NInf => PInf
  | PInf, NInf | NInf, PInf => NInf
  end.

(** numpy's true division: [x / 0] is an infinity of the sign of [x], [0 / 0]
    is NaN, a finite value over an infinity is zero. *)
Definition np_div (a b : npfloat) : npfloat :=
  match a, b with
  | NaN, _ | _, NaN => NaN
  | Fin x, Fin y =>
      if Reqb y 0 then
        if Reqb x 0 then NaN else if Rltb 0 x then PInf else NInf
      else Fin (x / y)
  | Fin _, (PInf | NInf) => Fin 0
  | (PInf | NInf), (PInf | NInf) => NaN
  | PInf, Fin y => if Rltb y 0 then NInf else PInf
  | NInf, Fin y => if Rltb y 0 then PInf else NInf
  end.

Definition np_sqrt (a : npfloat) : npfloat :=
  match a with
  | Fin x => if Rltb x 0 then NaN else Fin (sqrt x)
  | PInf => PInf
  | NInf | NaN => NaN
  end.

(** [10 ** a] *)
Definition np_pow10 (a : npfloat) : npfloat :=
  match a with
  | Fin x => Fin (Rpower 10 x)
  | PInf => PInf
  | NInf => Fin 0
  | NaN => NaN
  end.

(** Comparisons: every comparison with NaN is false, except [!=]. *)
Definition np_lt (a b : npfloat) : bool :=
  match a, b with
  | NaN, _ | _, NaN => false
  | Fin x, Fin y => Rltb x y
  | _, NInf => false
  | NInf, _ => true
  | PInf, _ => false
  | _, PInf => true
  end.

Definition np_eqb (a b : npfloat) : bool :=
  match a, b with
  | Fin x, Fin y => Reqb x y
  | PInf, PInf | NInf, NInf => true
  | _, _ => false
  end.

Definition np_le (a b : npfloat) : bool := np_lt a b || np_eqb a b.

Definition np_gt (a b : npfloat) : bool := np_lt b a.

(** ** One-dimensional arrays of reals *)

Definition Rsum (l : list R) : R := fold_right Rplus 0%R l.

Definition Rsumsq (l : list R) : R := Rsum (map (fun v => (v * v)%R) l).

(** [np.dot] of two vectors of the same length *)
Definition vdot (u v : list R) : R :=
  Rsum (map (fun p => (fst p * snd p)%R) (combine u v)).

(** [np.linalg.norm(x, ord=2)] *)
Definition norm2 (x : list R) : R := sqrt (Rsumsq x).

Definition Rmax_list (l : list R) : R := fold_right Rmax 0%R l.

(** [np.linalg.norm(x, ord=np.inf)]: the largest magnitude; numpy refuses to
    take the maximum of an empty array. *)
Definition norm_inf (x : list R) : result R :=
  match x with
  | [] => Raise ValueError
  | _ => Ret (Rmax_list (map Rabs x))
  end.

(** [np.sign] *)
Definition np_sign (v : R) : R :=
  if Rltb 0 v then 1%R else if Rltb v 0 then (-1)%R else 0%R.

(** [np.sort(zx)[::-1]]: the entries in decreasing order. *)
Fixpoint insert_desc (v : R) (l : list R) : list R :=
  match l with
  | [] => [v]
  | w :: l' => if Rleb w v then v :: l else w :: insert_desc v l'
  end.

Definition sort_desc (l : list R) : list R := fold_right insert_desc [] l.

(** A two-dimensional array, stored by columns (Fortran order), with the
    number of rows kept apart so that the shape survives an empty slice. *)
Record ndarray2 : Type := MkArray2 {
  n_rows : nat;
  columns : list (list R)
}.

Definition wf_array2 (X : ndarray2) : Prop :=
  Forall (fun c => length c = n_rows X) (columns X).

(** [np.dot(X[:, a:a+s].T, y)]: the slice is clipped to the columns that
    exist; the product needs [len(y)] to be the number of rows. *)
Definition dot_cols_T (X : ndarray2) (a s : nat) (y : list R)
  : result (list R) :=
  if Nat.eqb (length y) (n_rows X)
  then Ret (map (fun c => vdot c y) (firstn s (skipn a (columns X))))
  else Raise ValueError.

(** Element-wise division of two one-dimensional arrays with numpy's
    broadcasting: equal lengths, or one of them of length one. *)
Definition broadcast_div (a : list npfloat) (b : list R)
  : result (list npfloat) :=
  if Nat.eqb (length a) (length b)
  then Ret (map (fun p => np_div (fst p) (Fin (snd p))) (combine a b))
  else match a, b with
       | [u], _ => Ret (map (fun w => np_div u (Fin w)) b)
       | _, [w] => Ret (map (fun u => np_div u (Fin w)) a)
       | _, _ => Raise ValueError
       end.

(** [np.argmax] on floats: the first index whose value is not exceeded later;
    a NaN wins over everything and stops the scan. *)
Fixpoint argmax_from (best : npfloat) (ibest i : nat) (l : list npfloat)
  : nat :=
  match best with
  | NaN => ibest
  | _ =>
      match l with
      | [] => ibest
      | v :: l' =>
          if np_le v best then argmax_from best ibest (S i) l'
          else argmax_from v i (S i) l'
      end
  end.

Definition argmax (l : list npfloat) : result nat :=
  match l with
  | [] => Raise ValueError
  | v :: l' => Ret (argmax_from v 0 1 l')
  end.

(** [a[i]] for [0 <= i] *)
Definition getitem {A : Type} (a : list A) (i : nat) : result A :=
  match a !! i with
  | Some v => Ret v
  | None => Raise IndexError
  end.

End Np.

Import Np.

Notation "'do' x <- m ; k" := (bind m (fun x => k))
  (at level 10, x name, m at level 100, k at level 200).

(** ** sgl_tools.py *)

Module SglTools.

Local Open Scope R_scope.

(** [vect_ST(u, x)]: vectorial soft-thresholding at level [u]. *)
Definition vect_ST (u : R) (x : list R) : list R :=
  map (fun v => np_sign v * Rmax (Rabs v - u) 0) x.

(** The [for k in range(n_inf - 1)] loop of [epsilon_norm], on the suffix
    [zx[k:]] of the sorted magnitudes: it returns [(j0, S, S2)] ([S_] stands
    for the source's [S]).  The last entry is reached only when no [break]
    happened, which is the [else] clause of the loop; on an empty [zx] that
    clause reads [zx[-1]]. *)
Fixpoint scan (R2onalpha2 : npfloat) (zx : list R) (k : nat)
    (S_ S2 : R) (a_k : npfloat) : result (nat * R * R) :=
  match zx with
  | [] => Raise IndexError
  | z :: rest =>
      match rest with
      | [] => Ret (Datatypes.S k, S_ + z, S2 + z * z)
      | z' :: _ =>
          let S_ := S_ + z in
          let S2 := S2 + z * z in
          let b_k :=
            np_add (np_add (np_sub (np_div (Fin S2) (Fin (z' * z')))
                                   (np_div (Fin (2 * S_)) (Fin z')))
                           (Fin (INR k)))
                   (Fin 1) in
          if np_le a_k R2onalpha2 && np_lt R2onalpha2 b_k
          then Ret (Datatypes.S k, S_, S2)
          else scan R2onalpha2 rest (Datatypes.S k) S_ S2 b_k
      end
  end.

(** The entries of [|x|] selected by [np.where(zx > threshold)], sorted in
    decreasing order. *)
Definition selected (x : list R) (threshold : npfloat) : list R :=
  sort_desc (List.filter (fun v => np_gt (Fin v) threshold) (map Rabs x)).

Definition epsilon_norm (x : list R) (alpha R_ : npfloat) : result npfloat :=
  if np_eqb alpha (Fin 0) && negb (np_eqb R_ (Fin 0))
  then Ret (np_div (Fin (norm2 x)) R_)
  else if np_eqb R_ (Fin 0)
  then do n <- norm_inf x; Ret (np_div (Fin n) alpha)
  else
    do norm_inf <- norm_inf x;
    let threshold := np_div (np_mul alpha (Fin norm_inf)) (np_add alpha R_) in
    let zx := selected x threshold in
    let n_inf := length zx in
    if Reqb norm_inf 0 then Ret (Fin 0)
    else if Nat.eqb n_inf 1 then do v <- getitem zx 0; Ret (Fin v)
    else
      let R2 := np_mul R_ R_ in
      let alpha2 := np_mul alpha alpha in
      let R2onalpha2 := np_div R2 alpha2 in
      do r <- scan R2onalpha2 zx 0 0 0 (Fin 0);
      let '(j0, S_, S2) := r in
      let alpha_S := np_mul alpha (Fin S_) in
      let j0alpha2_R2 := np_sub (np_mul (Fin (INR j0)) alpha2) R2 in
      if np_eqb j0alpha2_R2 (Fin 0)
      then Ret (np_div (Fin S2) (np_mul (Fin 2) alpha_S))
      else
        let delta :=
          np_sub (np_mul alpha_S alpha_S) (np_mul (Fin S2) j0alpha2_R2) in
        Ret (np_div (np_sub alpha_S (np_sqrt delta)) j0alpha2_R2).

(** Python's list comprehension over a fallible body: the first exception
    ends it. *)
Fixpoint mapM {A B : Type} (f : A -> result B) (l : list A)
  : result (list B) :=
  match l with
  | [] => Ret []
  | a :: l' => do b <- f a; do bs <- mapM f l'; Ret (b :: bs)
  end.

(** The body of the comprehension of [build_lambdas] for group [i]. *)
Definition group_norm (X : ndarray2) (y : list R) (eps_g : list npfloat)
    (size_groups g_start : list nat) (i : nat) : result npfloat :=
  do start <- getitem g_start i;
  do size <- getitem size_groups i;
  do XgTy <- dot_cols_T X start size y;
  do eps <- getitem eps_g i;
  epsilon_norm XgTy (np_sub (Fin 1) eps) eps.

(** The grid [lambda_max * 10 ** (-delta * np.arange(n_lambdas) /
    (n_lambdas - 1.))]. *)
Definition grid_entry (lambda_max : npfloat) (delta : R) (n_lambdas i : nat)
  : npfloat :=
  np_mul lambda_max
    (np_pow10 (np_div (Fin (- delta * INR i)) (Fin (INR n_lambdas - 1)))).

Definition build_lambdas (X : ndarray2) (y omega : list R)
    (size_groups g_start : list nat) (n_lambdas : nat) (delta tau : R)
  : result (list npfloat * nat) :=
  let weight := map (fun w => tau + (1 - tau) * w) omega in
  let eps_g :=
    map (fun w => np_div (Fin ((1 - tau) * w)) (Fin (tau + (1 - tau) * w)))
        omega in
  let n_groups := length size_groups in
  do nrm <- mapM (group_norm X y eps_g size_groups g_start) (seq 0 n_groups);
  do nrm <- broadcast_div nrm weight;
  do imax <- argmax nrm;
  do lambda_max <- getitem nrm imax;
  let lambdas := map (grid_entry lambda_max delta n_lambdas) (seq 0 n_lambdas) in
  Ret (lambdas, imax).

(** [np.linalg.norm(X[:, a:a+s])]: the Frobenius norm of a block of columns
    (clipped, as a slice is, to the columns that exist). *)
Definition block_norm (X : ndarray2) (a s : nat) : R :=
  sqrt (Rsum (map Rsumsq (firstn s (skipn a (columns X))))).

(** [precompute_norm(X, y, size_groups, g_start)]: the norm of every column,
    the norm of every group of columns and the squared norm of the target. *)
Definition precompute_norm (X : ndarray2) (y : list R)
    (size_groups g_start : list nat) : result (list R * list R * R) :=
  let nrm2_y := norm2 y * norm2 y in
  let n_groups := length size_groups in
  let norm_X := map norm2 (columns X) in
  do norm_X_g <-
    mapM (fun i => do start <- getitem g_start i;
                   do size <- getitem size_groups i;
                   Ret (block_norm X start size))
         (seq 0 n_groups);
  Ret (norm_X, norm_X_g, nrm2_y).

End SglTools.

(** ** save_logreg.py *)

Module SaveLogreg.

Local Open Scope R_scope.

(** A float, or the one-dimensional array that indexing a two-dimensional
    array gives. *)
Inductive pyval : Type :=
| Scalar (v : R)
| Row (l : list R).

(** What a caller passes as [lambdas]: a one-dimensional ndarray, a float, or
    a Python list of floats. *)
Inductive lambdas_arg : Type :=
| NdArray (l : list R)
| PyFloat (v : R)
| PyList (l : list R).

(** An ndarray of penalties, of one or of two dimensions. *)
Inductive grid : Type :=
| Grid1 (l : list R)
| Grid2 (rows : list (list R)).

(** [if type(lambdas) != np.ndarray: lambdas = np.array([lambdas])] *)
Definition as_grid (lambdas : lambdas_arg) : grid :=
  match lambdas with
  | NdArray l => Grid1 l
  | PyFloat v => Grid1 [v]
  | PyList l => Grid2 [l]
  end.

(** [len(lambdas)] *)
Definition grid_len (g : grid) : nat :=
  match g with
  | Grid1 l => length l
  | Grid2 rows => length rows
  end.

(** [lambdas[t]] *)
Definition grid_get (g : grid) (t : nat) : result pyval :=
  match g with
  | Grid1 l => do v <- getitem l t; Ret (Scalar v)
  | Grid2 rows => do r <- getitem rows t; Ret (Row r)
  end.

(** [c + lam * n] for a float or an array [lam] *)
Definition pv_affine (c n : R) (lam : pyval) : pyval :=
  match lam with
  | Scalar v => Scalar (c + v * n)
  | Row l => Row (map (fun v => c + v * n) l)
  end.

(** [2. * lam_t - lam_prev] *)
Definition strong_threshold (lam_t lam_prev : pyval) : pyval :=
  match lam_t, lam_prev with
  | Scalar a, Scalar b => Scalar (2 * a - b)
  | Scalar a, Row b => Row (map (fun v => 2 * a - v) b)
  | Row a, Scalar b => Row (map (fun v => 2 * v - b) a)
  | Row a, Row b => Row (map (fun p => 2 * fst p - snd p) (combine a b))
  end.

Definition lt_intc (a b : R) : Z := if Rltb a b then 1%Z else 0%Z.

(** [(np.abs(XTR) < threshold).astype(np.intc)], with numpy's broadcasting
    when the threshold is an array. *)
Definition strong_mask (XTR : list R) (threshold : pyval) : result (list Z) :=
  match threshold with
  | Scalar c => Ret (map (fun g => lt_intc (Rabs g) c) XTR)
  | Row r =>
      if Nat.eqb (length XTR) (length r)
      then Ret (map (fun p => lt_intc (Rabs (fst p)) (snd p)) (combine XTR r))
      else match XTR, r with
           | [g], _ => Ret (map (fun c => lt_intc (Rabs g) c) r)
           | _, [c] => Ret (map (fun g => lt_intc (Rabs g) c) XTR)
           | _, _ => Raise ValueError
           end
  end.

(** The arrays that [cd_logreg] receives and refines in place. *)
Record buffers : Type := MkBuffers {
  beta_init : list R;
  XTR : list R;
  Xbeta : list R;
  Hessian : list R;
  Xbeta_next : list R;
  residual : list R;
  disabled_features : list Z
}.

(** The read-only arguments of [cd_logreg]. *)
Record kernel_args : Type := MkArgs {
  a_X : ndarray2;
  a_y : list R;
  a_norm_X2 : list R;
  a_p_obj : pyval;
  a_norm1_beta : R;
  a_lambda : pyval;
  a_tol : R;
  a_dual_scale : pyval;
  a_max_iter : Z;
  a_f : Z;
  a_screening : Z;
  a_wstr_plus : bool
}.

(** The six values that [cd_logreg] returns. *)
Record kernel_out : Type := MkOut {
  o_gap : R;
  o_p_obj : R;
  o_norm1_beta : R;
  o_dual_scale : R;
  o_n_iter : Z;
  o_n_active : Z
}.

(** One call of [cd_logreg], as the path driver makes it: the penalty index,
    the arguments, the buffers before and after, and the values returned. *)
Record call : Type := MkCall {
  c_t : nat;
  c_args : kernel_args;
  c_in : buffers;
  c_ret : kernel_out;
  c_after : buffers
}.

(** The variables of [logreg_path] that live across the loop, with the calls
    made and the warnings printed so far. *)
Record path_state : Type := MkState {
  buf : buffers;
  p_obj : pyval;
  norm1_beta : R;
  dual_scale : pyval;
  run_active_warm_start : bool;
  betas : list (list R);
  gaps : list R;
  n_iters : list Z;
  n_active_features : list Z;
  calls : list call;
  warnings : list nat
}.

Definition zeros (n : nat) : list R := repeat 0 n.

(** [np.sum(y == 1)] *)
Definition count_ones (y : list R) : Z :=
  Z.of_nat (length (List.filter (fun v => Reqb v 1) y)).

(** [tol = eps * max(1, min(n_1, n_0)) / float(n_samples)]: the numerator is
    a Python float when there is no sample, and dividing it by zero raises. *)
Definition tolerance (eps : R) (n_samples : nat) (y : list R) : result R :=
  let n_1 := count_ones y in
  let n_0 := (Z.of_nat n_samples - n_1)%Z in
  if Nat.eqb n_samples 0 then Raise ZeroDivisionError
  else Ret (eps * IZR (Z.max 1 (Z.min n_1 n_0)) / INR n_samples).

(** [np.dot(X, beta)] *)
Definition mat_vec (X : ndarray2) (beta : list R) : result (list R) :=
  if Nat.eqb (length beta) (length (columns X))
  then Ret (fold_right
              (fun p acc =>
                 map (fun q => snd p * fst q + snd q) (combine (fst p) acc))
              (zeros (n_rows X)) (combine (columns X) beta))
  else Raise ValueError.

(** [np.dot(X.T, r)] *)
Definition matT_vec (X : ndarray2) (r : list R) : result (list R) :=
  dot_cols_T X 0 (length (columns X)) r.

Section Path.

(** The coordinate-descent kernel [cd_logreg] of [save_cd_logreg_fast] is
    not part of the sources: it is a parameter of the driver. *)
Variable cd_logreg : kernel_args -> buffers -> kernel_out * buffers.

Variables (X : ndarray2) (y : list R) (lambdas : grid).
Variables (tol : R) (norm_X2 : list R) (max_iter f screening : Z).
Variables (gap_active_warm_start strong_active_warm_start : bool).

Definition n_features : nat := length (columns X).

Definition kernel_call (st : path_state) (lam : pyval) (wstr_plus : bool)
  : kernel_args :=
  MkArgs X y norm_X2 (p_obj st) (norm1_beta st) lam tol (dual_scale st)
         max_iter f screening wstr_plus.

(** Lines 142-143: under the strong strategy the mask is rebuilt from the
    gradient; otherwise the array of the previous solves is kept. *)
Definition warm_buffers (t : nat) (st : path_state) : result buffers :=
  if strong_active_warm_start then
    do lam_t <- grid_get lambdas t;
    do lam_prev <- grid_get lambdas (t - 1);
    do mask <- strong_mask (XTR (buf st)) (strong_threshold lam_t lam_prev);
    Ret (MkBuffers (beta_init (buf st)) (XTR (buf st)) (Xbeta (buf st))
           (Hessian (buf st)) (Xbeta_next (buf st)) (residual (buf st)) mask)
  else Ret (buf st).

(** Lines 145-146: [run_active_warm_start], updated under the gap strategy
    from [n_active_features[t]]. *)
Definition warm_decision (t : nat) (st : path_state) : result bool :=
  if gap_active_warm_start then
    do n <- getitem (n_active_features st) t;
    Ret (Z.ltb n (Z.of_nat n_features))
  else Ret (run_active_warm_start st).

(** Lines 140-155: the optional solve restricted to the features left
    enabled, before the definitive solve at [lambdas[t]]. *)
Definition warm_start (t : nat) (st : path_state) : result path_state :=
  let active_warm_start :=
    strong_active_warm_start || gap_active_warm_start in
  if active_warm_start && negb (Nat.eqb t 0) then
    do b <- warm_buffers t st;
    do run <- warm_decision t st;
    if run then
      do lam_t <- grid_get lambdas t;
      let args := kernel_call st lam_t true in
      let '(out, b') := cd_logreg args b in
      Ret (MkState b' (Scalar (o_p_obj out)) (o_norm1_beta out)
             (dual_scale st) run (betas st) (gaps st) (n_iters st)
             (n_active_features st)
             (calls st ++ [MkCall t args b out b']) (warnings st))
    else
      Ret (MkState b (p_obj st) (norm1_beta st) (dual_scale st) run
             (betas st) (gaps st) (n_iters st) (n_active_features st)
             (calls st) (warnings st))
  else Ret st.

(** Lines 157-169: the definitive solve and the recording of its results. *)
Definition definitive (t : nat) (st : path_state) : result path_state :=
  do lam_t <- grid_get lambdas t;
  let args := kernel_call st lam_t false in
  let '(out, b') := cd_logreg args (buf st) in
  Ret (MkState b' (Scalar (o_p_obj out)) (o_norm1_beta out)
         (Scalar (o_dual_scale out)) (run_active_warm_start st)
         (<[t := beta_init b']> (betas st))
         (<[t := o_gap out]> (gaps st))
         (<[t := o_n_iter out]> (n_iters st))
         (<[t := o_n_active out]> (n_active_features st))
         (calls st ++ [MkCall t args (buf st) out b'])
         (if Rltb tol (Rabs (o_gap out)) then warnings st ++ [t]
          else warnings st)).

(** The body of [for t in range(n_lambdas)]. *)
Definition path_step (t : nat) (st : path_state) : result path_state :=
  do st' <- warm_start t st; definitive t st'.

Fixpoint path_loop (ts : list nat) (st : path_state) : result path_state :=
  match ts with
  | [] => Ret st
  | t :: ts' => do st' <- path_step t st; path_loop ts' st'
  end.

End Path.

(** Lines 93-136: everything before the loop. *)
Definition initial_state (X : ndarray2) (y : list R) (lambdas : grid)
    (beta_init : option (list R)) : result path_state :=
  let n_lambdas := grid_len lambdas in
  let n_samples := n_rows X in
  let n_features := length (columns X) in
  let betas := repeat (zeros n_features) n_lambdas in
  let disabled_features := repeat 0%Z n_features in
  let gaps := repeat 1 n_lambdas in
  let n_iters := repeat 0%Z n_lambdas in
  let n_active_features := repeat 0%Z n_lambdas in
  do i <-
    match beta_init with
    | None =>
        Ret (zeros n_features, 0, Scalar (INR n_samples * ln 2),
             zeros n_samples, map (fun v => v - 1 / 2) y)
    | Some beta_init =>
        let norm1_beta := Rsum (map Rabs beta_init) in
        do Xbeta <- mat_vec X beta_init;
        let exp_Xbeta := map exp Xbeta in
        if negb (Nat.eqb (length y) n_samples) then Raise ValueError
        else
          let residual :=
            map (fun p => fst p - snd p / (1 + snd p)) (combine y exp_Xbeta) in
          let yTXbeta := vdot y Xbeta in
          let log_term := Rsum (map (fun e => ln (1 + e)) exp_Xbeta) in
          do lam0 <- grid_get lambdas 0;
          Ret (beta_init, norm1_beta,
               pv_affine (- yTXbeta + log_term) norm1_beta lam0,
               Xbeta, residual)
    end;
  let '(beta_init, norm1_beta, p_obj, Xbeta, residual) := i in
  do XTR <- matT_vec X residual;
  do dual_scale <- grid_get lambdas 0;
  let Hessian := zeros n_features in
  let Xbeta_next := zeros n_samples in
  Ret (MkState
         (MkBuffers beta_init XTR Xbeta Hessian Xbeta_next residual
                    disabled_features)
         p_obj norm1_beta dual_scale true
         betas gaps n_iters n_active_features [] []).

(** [logreg_path], with the whole final state: the four arrays returned and
    the record of the kernel calls.  The source's last parameter,
    [warm_start_plus], is never read and is left out. *)
Definition logreg_path_run
    (cd_logreg : kernel_args -> buffers -> kernel_out * buffers)
    (X : ndarray2) (y : list R) (lambdas : lambdas_arg) (eps : R)
    (max_iter f : Z) (beta_init : option (list R)) (screening : Z)
    (gap_active_warm_start strong_active_warm_start : bool)
  : result path_state :=
  let lambdas := as_grid lambdas in
  let n_lambdas := grid_len lambdas in
  do tol <- tolerance eps (n_rows X) y;
  let norm_X2 := map Rsumsq (columns X) in
  do st <- initial_state X y lambdas beta_init;
  path_loop cd_logreg X y lambdas tol norm_X2 max_iter f screening
            gap_active_warm_start strong_active_warm_start
            (seq 0 n_lambdas) st.

Definition logreg_path
    (cd_logreg : kernel_args -> buffers -> kernel_out * buffers)
    (X : ndarray2) (y : list R) (lambdas : lambdas_arg) (eps : R)
    (max_iter f : Z) (beta_init : option (list R)) (screening : Z)
    (gap_active_warm_start strong_active_warm_start : bool)
  : result (list (list R) * list R * list Z * list Z) :=
  do st <- logreg_path_run cd_logreg X y lambdas eps max_iter f beta_init
             screening gap_active_warm_start strong_active_warm_start;
  Ret (betas st, gaps st, n_iters st, n_active_features st).

End SaveLogreg.

(** ** Quantities used to state the properties *)

Import SglTools SaveLogreg.

Local Open Scope R_scope.

(** The sum of the squared distances of the entries of [q] to [c]. *)
Definition dist2 (c : R) (q : list R) : R :=
  Rsum (map (fun v => (v - c) * (v - c)) q).

(** The sum of [max(v - nu, 0) ** 2] over the magnitudes [v] of [l]: the
    squared Euclidean norm of the soft-thresholding at level [nu]. *)
Definition excess2 (nu : R) (l : list R) : R :=
  Rsum (map (fun v => Rmax (v - nu) 0 * Rmax (v - nu) 0) l).

(** Decreasing order *)
Definition desc (l : list R) : Prop := StronglySorted (fun a b => b <= a) l.

(** The threshold [alpha * norm_inf / (alpha + R)] of [epsilon_norm] and the
    number [n_inf] of entries of [|x|] above it. *)
Definition threshold (x : list R) (alpha R_ : R) : R :=
  alpha * Rmax_list (map Rabs x) / (alpha + R_).

Definition n_inf (x : list R) (alpha R_ : R) : nat :=
  length (List.filter (fun v => Rltb (threshold x alpha R_) v) (map Rabs x)).

(** The groups partition the features [0 .. p): contiguous non-empty blocks,
    the first one starting at [0], the last one ending at [p]. *)
Fixpoint layout_from (a : nat) (size_groups g_start : list nat) (p : nat)
  : Prop :=
  match size_groups, g_start with
  | [], [] => a = p
  | s :: ss, g :: gs =>
      g = a /\ (1 <= s)%nat /\ layout_from (a + s) ss gs p
  | _, _ => False
  end.

Definition partitions (p : nat) (size_groups g_start : list nat) : Prop :=
  layout_from 0 size_groups g_start p.

(** [eps_g] and the weight [tau + (1 - tau) omega_g] of a group. *)
Definition weight (tau w : R) : R := tau + (1 - tau) * w.

Definition eps_of (tau w : R) : R := (1 - tau) * w / weight tau w.

(** A sequence of floats that decreases strictly. *)
Definition strictly_decreasing (l : list npfloat) : Prop :=
  forall i j a b,
    (i < j)%nat -> l !! i = Some a -> l !! j = Some b -> np_lt b a = true.

(** The finite value that a computation returned (0 when it did not). *)
Definition value_of (r : result npfloat) : R :=
  match r with
  | Ret (Fin v) => v
  | _ => 0
  end.

(** [logreg_path] stopped after the first [k] penalties. *)
Definition logreg_path_prefix
    (cd_logreg : kernel_args -> buffers -> kernel_out * buffers)
    (X : ndarray2) (y : list R) (lambdas : lambdas_arg) (eps : R)
    (max_iter f : Z) (beta_init : option (list R)) (screening : Z)
    (gap_active_warm_start strong_active_warm_start : bool) (k : nat)
  : result path_state :=
  let lambdas := as_grid lambdas in
  do tol <- tolerance eps (n_rows X) y;
  let norm_X2 := map Rsumsq (columns X) in
  do st <- initial_state X y lambdas beta_init;
  path_loop cd_logreg X y lambdas tol norm_X2 max_iter f screening
            gap_active_warm_start strong_active_warm_start (seq 0 k) st.

(** A dataset and a penalty grid on which the initialisation goes through:
    a rectangular matrix with at least one sample, a target of the length of
    the samples, initial coefficients (when given) of the length of the
    features, and at least one penalty. *)
Definition well_formed (X : ndarray2) (y : list R) (lambdas : lambdas_arg)
    (beta_init : option (list R)) : Prop :=
  wf_array2 X /\ n_rows X <> 0%nat /\ length y = n_rows X /\
  match beta_init with
  | None => True
  | Some b => length b = length (columns X)
  end /\
  grid_len (as_grid lambdas) <> 0%nat.

(** The grids that [as_grid] produces: one-dimensional, or a single row. *)
Definition grid_ok (g : grid) : Prop :=
  match g with
  | Grid1 _ => True
  | Grid2 rows => (length rows <= 1)%nat
  end.

(** A call of the kernel in warm-start-only mode ([wstr_plus=1]). *)
Definition is_warm (c : call) : Prop := a_wstr_plus (c_args c) = true.

(** Some warm-start call was made at penalty index [t]. *)
Definition warm_call_at (cs : list call) (t : nat) : Prop :=
  exists c, In c cs /\ c_t c = t /\ is_warm c.

(** The calls in the order they were made: a warm-start call comes right
    after the definitive call of the previous index and receives the mask
    that call left. *)
Fixpoint chain_ok (prev : option call) (cs : list call) : Prop :=
  match cs with
  | [] => True
  | c :: cs' =>
      (is_warm c ->
       match prev with
       | Some d =>
           ~ is_warm d /\ c_t c = S (c_t d) /\
           disabled_features (c_in c) = disabled_features (c_after d)
       | None => False
       end) /\
      chain_ok (Some c) cs'
  end.

(** What the strong strategy promises of a warm-start call: it is not at the
    first index, and its mask is the comparison of the gradient it receives
    with [2 * lambdas[t] - lambdas[t - 1]]. *)
Definition strong_call_ok (lambdas : grid) (c : call) : Prop :=
  c_t c <> 0%nat /\
  exists lam_t lam_prev,
    grid_get lambdas (c_t c) = Ret lam_t /\
    grid_get lambdas (c_t c - 1) = Ret lam_prev /\
    strong_mask (XTR (c_in c)) (strong_threshold lam_t lam_prev)
    = Ret (disabled_features (c_in c)).

(** Before the step at index [a]: the last call made, if any, is the
    definitive solve of index [a - 1], and the buffers are as it left them. *)
Definition tail_ok (a : nat) (st : path_state) : Prop :=
  match last (calls st) with
  | None => a = 0%nat
  | Some d => ~ is_warm d /\ S (c_t d) = a /\ c_after d = buf st
  end.

(** A kernel for the examples: it leaves the buffers alone and reports every
    one of the [p] features active. *)
Definition kernel_all_active (p : nat) (args : kernel_args) (b : buffers)
  : kernel_out * buffers :=
  (MkOut 0 0 0 0 1%Z (Z.of_nat p), b).

(** The index and the mode of a call. *)
Definition call_kind (c : call) : nat * bool := (c_t c, a_wstr_plus (c_args c)).

(** Whether the step at index [t] makes a warm-start call, on a run that
    starts from the initial state. *)
Definition warms (gap strong : bool) (p t : nat) : bool :=
  negb (Nat.eqb t 0) && (if gap then Nat.ltb 0 p else strong).

(** The calls of the step at index [t], by index and mode. *)
Definition step_kinds (gap strong : bool) (p t : nat) : list (nat * bool) :=
  if warms gap strong p t then [(t, true); (t, false)] else [(t, false)].

(** The calls of a run over [n] penalties, by index and mode. *)
Definition schedule (gap strong : bool) (p n : nat) : list (nat * bool) :=
  flat_map (step_kinds gap strong p) (seq 0 n).

(** The arrays of the iterate, the mask left aside. *)
Definition same_iterate (b b' : buffers) : Prop :=
  beta_init b = beta_init b' /\ XTR b = XTR b' /\ Xbeta b = Xbeta b' /\
  Hessian b = Hessian b' /\ Xbeta_next b = Xbeta_next b' /\
  residual b = residual b'.

(** What the driver holds between two calls: whether the mask is handed on
    even under the strong strategy (before the first call and after a warm
    start), the buffers, [p_obj], [norm1_beta] and [dual_scale]. *)
Definition thread_state : Type := bool * buffers * pyval * R * pyval.

(** A call receives what the driver holds. *)
Definition thread_ok (strong : bool) (s : thread_state) (c : call) : Prop :=
  let '(keeps_mask, b, po, n1, ds) := s in
  same_iterate (c_in c) b /\
  (strong = false \/ keeps_mask = true ->
   disabled_features (c_in c) = disabled_features b) /\
  a_p_obj (c_args c) = po /\ a_norm1_beta (c_args c) = n1 /\
  a_dual_scale (c_args c) = ds.

(** What the driver holds after a call: the buffers it left and the
    objective and norm it returned; the dual scale only of a definitive
    call. *)
Definition thread_next (s : thread_state) (c : call) : thread_state :=
  let '(_, _, _, _, ds) := s in
  (a_wstr_plus (c_args c), c_after c, Scalar (o_p_obj (c_ret c)),
   o_norm1_beta (c_ret c),
   if a_wstr_plus (c_args c) then ds else Scalar (o_dual_scale (c_ret c))).

Fixpoint threaded (strong : bool) (s : thread_state) (cs : list call) : Prop :=
  match cs with
  | [] => True
  | c :: cs' => thread_ok strong s c /\ threaded strong (thread_next s c) cs'
  end.

(** What the driver holds at the start of a step. *)
Definition state_thread (st : path_state) : thread_state :=
  (match calls st with [] => true | _ => false end,
   buf st, p_obj st, norm1_beta st, dual_scale st).

(** A call is an application of the kernel to the data, the options and the
    tolerance of the run, at the penalty of its index. *)
Definition call_args_ok
    (cd_logreg : kernel_args -> buffers -> kernel_out * buffers)
    (X : ndarray2) (y : list R) (lambdas : grid) (tol : R) (norm_X2 : list R)
    (max_iter f screening : Z) (c : call) : Prop :=
  a_X (c_args c) = X /\ a_y (c_args c) = y /\
  a_norm_X2 (c_args c) = norm_X2 /\ a_tol (c_args c) = tol /\
  a_max_iter (c_args c) = max_iter /\ a_f (c_args c) = f /\
  a_screening (c_args c) = screening /\
  grid_get lambdas (c_t c) = Ret (a_lambda (c_args c)) /\
  (c_ret c, c_after c) = cd_logreg (c_args c) (c_in c).

(** The indices at which the final gap exceeds the tolerance. *)
Definition unconverged (tol : R) (gaps : list R) (ts : list nat) : list nat :=
  List.filter (fun t => match gaps !! t with
                        | Some g => Rltb tol (Rabs g)
                        | None => false
                        end) ts.

(** ** Tactics *)

(** Evaluation of magnitudes and maxima of numerals. *)
Ltac Rnum :=
  repeat match goal with
  | |- context [Rabs ?a] =>
      first [ rewrite (Rabs_pos_eq a) by lra | rewrite (Rabs_left1 a) by lra ]
  | |- context [Rmax ?a ?b] =>
      first [ rewrite (Rmax_left a b) by lra | rewrite (Rmax_right a b) by lra ]
  end.

(** Case analysis on the first computation of a sequence that returned. *)
Ltac break_bind H :=
  match type of H with
  | bind ?m _ = _ =>
      let E := fresh "E" in
      destruct m eqn:E; cbn [bind] in H; [|discriminate H]
  end.

(** The same, naming the value bound. *)
Ltac break_bind_as H v :=
  match type of H with
  | bind ?m _ = _ =>
      let E := fresh "E" in
      destruct m as [v|] eqn:E; cbn [bind] in H; [|discriminate H]
  end.

(** * Properties *)

(** ** Comparisons and arithmetic on finite values *)

Lemma Rltb_true a b : a < b -> Rltb a b = true.
Proof. unfold Rltb. destruct (Rlt_dec a b); [reflexivity | lra]. Qed.

Lemma Rltb_false a b : b <= a -> Rltb a b = false.
Proof. unfold Rltb. destruct (Rlt_dec a b); [lra | reflexivity]. Qed.

Lemma Rltb_iff a b : Rltb a b = true <-> a < b.
Proof. unfold Rltb. destruct (Rlt_dec a b); split; intros; try easy; try lra.
Qed.

Lemma Rleb_true a b : a <= b -> Rleb a b = true.
Proof. unfold Rleb. destruct (Rle_dec a b); [reflexivity | lra]. Qed.

Lemma Rleb_false a b : b < a -> Rleb a b = false.
Proof. unfold Rleb. destruct (Rle_dec a b); [lra | reflexivity]. Qed.

Lemma Reqb_true a b : a = b -> Reqb a b = true.
Proof. unfold Reqb. destruct (Req_dec_T a b); [reflexivity | tauto]. Qed.

Lemma Reqb_false a b : a <> b -> Reqb a b = false.
Proof. unfold Reqb. destruct (Req_dec_T a b); [tauto | reflexivity]. Qed.

Lemma np_div_fin a b : b <> 0 -> np_div (Fin a) (Fin b) = Fin (a / b).
Proof. intros H. unfold np_div. now rewrite Reqb_false. Qed.

Lemma np_le_fin a b : np_le (Fin a) (Fin b) = Rleb a b.
Proof.
  unfold np_le, np_lt, np_eqb, Rltb, Rleb, Reqb.
  destruct (Rlt_dec a b), (Req_dec_T a b), (Rle_dec a b); simpl; try reflexivity; lra.
Qed.

Lemma Rsum_app l1 l2 : Rsum (l1 ++ l2) = Rsum l1 + Rsum l2.
Proof. unfold Rsum. induction l1; simpl; lra. Qed.

Lemma Rsumsq_app l1 l2 : Rsumsq (l1 ++ l2) = Rsumsq l1 + Rsumsq l2.
Proof. unfold Rsumsq. now rewrite map_app, Rsum_app. Qed.

Lemma dist2_app c l1 l2 : dist2 c (l1 ++ l2) = dist2 c l1 + dist2 c l2.
Proof. unfold dist2. now rewrite map_app, Rsum_app. Qed.

Lemma dist2_expand c q :
  dist2 c q = Rsumsq q - 2 * c * Rsum q + INR (length q) * (c * c).
Proof.
  unfold dist2, Rsumsq, Rsum. induction q as [|v q IH].
  - simpl. lra.
  - change (length (v :: q)) with (S (length q)). rewrite S_INR.
    cbn [map fold_right]. rewrite IH. ring.
Qed.

Lemma dist2_nonneg c q : 0 <= dist2 c q.
Proof.
  unfold dist2, Rsum. induction q as [|v q IH]; simpl; [lra|].
  pose proof (Rle_0_sqr (v - c)) as H. unfold Rsqr in H. lra.
Qed.

Lemma scan_last rho z k S_ S2 a :
  scan rho [z] k S_ S2 a = Ret (S k, S_ + z, S2 + z * z).
Proof. reflexivity. Qed.

Lemma scan_next rho z z' rest k S_ S2 a :
  scan rho (z :: z' :: rest) k S_ S2 a =
  let b_k :=
    np_add (np_add (np_sub (np_div (Fin (S2 + z * z)) (Fin (z' * z')))
                           (np_div (Fin (2 * (S_ + z))) (Fin z')))
                   (Fin (INR k)))
           (Fin 1) in
  if np_le a rho && np_lt rho b_k
  then Ret (S k, S_ + z, S2 + z * z)
  else scan rho (z' :: rest) (S k) (S_ + z) (S2 + z * z) b_k.
Proof. reflexivity. Qed.

Lemma scan_spec rho rest :
  forall p z a,
    (forall v, In v (z :: rest) -> 0 < v) ->
    a * (z * z) = dist2 z p ->
    a <= rho ->
    exists q c r,
      p ++ z :: rest = (q ++ [c]) ++ r /\
      scan (Fin rho) (z :: rest) (length p) (Rsum p) (Rsumsq p) (Fin a)
      = Ret (length (q ++ [c]), Rsum (q ++ [c]), Rsumsq (q ++ [c])) /\
      dist2 c (q ++ [c]) <= rho * (c * c) /\
      (r = [] \/
       exists c' r', r = c' :: r' /\ rho * (c' * c') < dist2 c' (q ++ [c])).
Proof.
  induction rest as [|z' rest IH]; intros p z a Hpos Ha Hle.
  - exists p, z, []. split; [now rewrite app_nil_r|].
    split.
    + rewrite scan_last. rewrite length_app, Rsum_app, Rsumsq_app. simpl.
      unfold Rsumsq, Rsum. simpl. repeat f_equal; try lia; lra.
    + split; [|now left].
      rewrite dist2_app. unfold dist2 at 2, Rsum. simpl. nra.
  - assert (Hz' : 0 < z') by (apply Hpos; simpl; auto).
    assert (Hz : 0 < z) by (apply Hpos; simpl; auto).
    set (pz := p ++ [z]).
    set (b := dist2 z' pz / (z' * z')).
    assert (Hb : np_add (np_add (np_sub (np_div (Fin (Rsumsq p + z * z)) (Fin (z' * z')))
                                   (np_div (Fin (2 * (Rsum p + z))) (Fin z')))
                           (Fin (INR (length p)))) (Fin 1) = Fin b).
    { rewrite !np_div_fin by nra. cbn [np_sub np_neg np_add]. f_equal.
      unfold b, pz. rewrite dist2_expand, Rsumsq_app, Rsum_app, length_app.
      simpl length. rewrite Nat.add_1_r, S_INR. unfold Rsumsq, Rsum. simpl.
      field. lra. }
    destruct (Rlt_dec rho b) as [Hlt|Hge].
    + exists p, z, (z' :: rest). split; [now rewrite <- app_assoc|].
      split.
      * rewrite scan_next. cbv zeta. rewrite Hb.
        rewrite np_le_fin, Rleb_true by lra.
        cbn [np_lt andb]. rewrite Rltb_true by lra.
        rewrite length_app, Rsum_app, Rsumsq_app. simpl length.
        unfold Rsumsq, Rsum. simpl. repeat f_equal; try lia; lra.
      * split.
        -- rewrite dist2_app. unfold dist2 at 2, Rsum. simpl. nra.
        -- right. exists z', rest. split; [reflexivity|].
           unfold b in Hlt.
           apply Rmult_lt_compat_r with (r := z' * z') in Hlt; [|nra].
           unfold Rdiv in Hlt. rewrite Rmult_assoc, Rinv_l in Hlt by nra.
           fold pz. lra.
    + destruct (IH pz z' b) as (q & c & r & Heq & Hscan & Hd & Hr).
      * intros v Hv. apply Hpos. simpl. auto.
      * unfold b. field. lra.
      * lra.
      * exists q, c, r. split.
        { rewrite <- Heq. unfold pz. now rewrite <- app_assoc. }
        split; [|tauto].
        rewrite scan_next. cbv zeta. rewrite Hb.
        rewrite np_le_fin, Rleb_true by lra.
        cbn [np_lt andb]. rewrite Rltb_false by lra.
        rewrite <- Hscan. f_equal.
        -- unfold pz. rewrite length_app. simpl. lia.
        -- unfold pz. rewrite Rsum_app. unfold Rsum. simpl. lra.
        -- unfold pz. rewrite Rsumsq_app. unfold Rsumsq, Rsum.
           cbn [map fold_right]. lra.
Qed.

(** Roots of [A z^2 - 2 B z + C] bracketed by a sign change. *)
Lemma abs_le_of_sq u s : 0 <= s -> u * u <= s * s -> - s <= u <= s.
Proof. intros Hs H. split; nra. Qed.

Lemma sq_ge_cases u s : 0 <= s -> s * s <= u * u -> u <= - s \/ s <= u.
Proof.
  intros Hs H. destruct (Rle_dec s u); [now right|]. left.
  destruct (Rle_dec u (- s)); [assumption|]. exfalso. nra.
Qed.

Lemma root_linear B C z1 z2 :
  0 < B -> - 2 * B * z1 + C >= 0 -> - 2 * B * z2 + C <= 0 ->
  z1 <= C / (2 * B) <= z2 /\ - 2 * B * (C / (2 * B)) + C = 0.
Proof.
  intros HB H1 H2.
  assert (E : 2 * B * (C / (2 * B)) = C) by (field; lra).
  split; [|lra]. split.
  - apply Rmult_le_reg_l with (2 * B); lra.
  - apply Rmult_le_reg_l with (2 * B); lra.
Qed.

Lemma root_quadratic A B C z1 z2 :
  A <> 0 -> 0 < B -> 0 < C -> 0 <= z1 < z2 ->
  A * (z1 * z1) - 2 * B * z1 + C >= 0 ->
  A * (z2 * z2) - 2 * B * z2 + C <= 0 ->
  0 <= B * B - C * A /\
  let z := (B - sqrt (B * B - C * A)) / A in
  z1 <= z <= z2 /\ A * (z * z) - 2 * B * z + C = 0.
Proof.
  intros HA HB HC Hz H1 H2.
  assert (Hd : 0 <= B * B - C * A).
  { destruct (Rtotal_order A 0) as [Hn|[Hn|Hn]]; [nra|tauto|].
    pose proof (Rle_0_sqr (A * z2 - B)) as Hsq. unfold Rsqr in Hsq.
    assert (A * (A * (z2 * z2) - 2 * B * z2 + C) <= 0).
    { rewrite <- (Rmult_0_r A). apply Rmult_le_compat_l; lra. }
    replace (B * B - C * A)
      with ((A * z2 - B) * (A * z2 - B) - A * (A * (z2 * z2) - 2 * B * z2 + C))
      by ring.
    lra. }
  split; [assumption|].
  set (d := B * B - C * A) in *.
  pose proof (sqrt_pos d) as Hs.
  pose proof (sqrt_sqrt d Hd) as Hss.
  set (s := sqrt d) in *.
  intros z.
  assert (Ez : A * z = B - s) by (unfold z; field; assumption).
  assert (Hroot : A * (z * z) - 2 * B * z + C = 0).
  { apply Rmult_eq_reg_l with A; [|assumption].
    replace (A * (A * (z * z) - 2 * B * z + C))
      with ((A * z - B) * (A * z - B) - d) by (unfold d; ring).
    rewrite Ez. replace (B - s - B) with (- s) by ring. nra. }
  split; [|assumption].
  assert (F1 : A * (A * (z1 * z1) - 2 * B * z1 + C)
               = (A * z1 - B) * (A * z1 - B) - s * s) by (rewrite Hss; unfold d; ring).
  assert (F2 : A * (A * (z2 * z2) - 2 * B * z2 + C)
               = (A * z2 - B) * (A * z2 - B) - s * s) by (rewrite Hss; unfold d; ring).
  destruct (Rlt_dec 0 A) as [Hpos|Hneg].
  - assert (G2 : (A * z2 - B) * (A * z2 - B) <= s * s) by nra.
    apply abs_le_of_sq in G2; [|assumption].
    assert (G1 : s * s <= (A * z1 - B) * (A * z1 - B)) by nra.
    apply sq_ge_cases in G1; [|assumption].
    assert (A * z1 < A * z2) by nra.
    split.
    + destruct G1 as [G1|G1]; [|lra].
      apply Rmult_le_reg_l with A; [assumption|]. lra.
    + apply Rmult_le_reg_l with A; [assumption|]. lra.
  - assert (HA' : A < 0) by (destruct (Rtotal_order A 0) as [Hn|[Hn|Hn]]; [assumption|tauto|lra]).
    assert (G1 : (A * z1 - B) * (A * z1 - B) <= s * s) by nra.
    apply abs_le_of_sq in G1; [|assumption].
    assert (G2 : s * s <= (A * z2 - B) * (A * z2 - B)) by nra.
    apply sq_ge_cases in G2; [|assumption].
    assert (A * z2 < 0) by nra.
    split.
    + apply Rmult_le_reg_l with (- A); [lra|]. nra.
    + destruct G2 as [G2|G2]; [|lra].
      apply Rmult_le_reg_l with (- A); [lra|]. nra.
Qed.


Lemma insert_desc_perm v l : Permutation (insert_desc v l) (v :: l).
Proof.
  induction l as [|w l IH]; simpl; [reflexivity|].
  destruct (Rleb w v); [reflexivity|].
  rewrite IH. apply perm_swap.
Qed.

Lemma sort_desc_perm l : Permutation (sort_desc l) l.
Proof.
  induction l as [|v l IH]; simpl; [reflexivity|].
  unfold sort_desc in *. simpl. rewrite insert_desc_perm. now constructor.
Qed.

Lemma insert_desc_sorted v l : desc l -> desc (insert_desc v l).
Proof.
  unfold desc. induction 1 as [|w l Hs IH Hall]; simpl.
  - repeat constructor.
  - unfold Rleb. destruct (Rle_dec w v) as [Hle|Hgt].
    + constructor; [now constructor|].
      constructor; [assumption|].
      eapply List.Forall_impl; [|exact Hall]. simpl. intros; lra.
    + constructor; [assumption|].
      rewrite List.Forall_forall. intros u Hu.
      apply (Permutation_in _ (insert_desc_perm v l)) in Hu.
      destruct Hu as [<-|Hu]; [lra|].
      rewrite List.Forall_forall in Hall. now apply Hall.
Qed.

Lemma sort_desc_sorted l : desc (sort_desc l).
Proof.
  induction l as [|v l IH]; [constructor|].
  unfold sort_desc in *. simpl. now apply insert_desc_sorted.
Qed.

Lemma desc_app l1 l2 :
  desc (l1 ++ l2) ->
  forall a b, In a l1 -> In b l2 -> b <= a.
Proof.
  unfold desc. induction l1 as [|v l1 IH]; simpl; intros Hs a b Ha Hb; [tauto|].
  inversion Hs as [|? ? Hs' Hall]; subst.
  destruct Ha as [<-|Ha].
  - rewrite List.Forall_forall in Hall. apply Hall. apply in_or_app. now right.
  - now apply IH.
Qed.

Lemma desc_tail l1 l2 : desc (l1 ++ l2) -> desc l2.
Proof.
  unfold desc. induction l1 as [|v l1 IH]; simpl; intros Hs; [assumption|].
  inversion Hs; subst. now apply IH.
Qed.

Lemma desc_head v l : desc (v :: l) -> forall b, In b l -> b <= v.
Proof.
  unfold desc. intros Hs b Hb. inversion Hs as [|? ? _ Hall]; subst.
  rewrite List.Forall_forall in Hall. now apply Hall.
Qed.

Lemma Rsum_perm l1 l2 : Permutation l1 l2 -> Rsum l1 = Rsum l2.
Proof.
  unfold Rsum. induction 1; simpl; lra || congruence.
Qed.

Lemma excess2_perm nu l1 l2 :
  Permutation l1 l2 -> excess2 nu l1 = excess2 nu l2.
Proof. intros H. unfold excess2. apply Rsum_perm. now apply Permutation_map.
Qed.

Lemma excess2_app nu l1 l2 :
  excess2 nu (l1 ++ l2) = excess2 nu l1 + excess2 nu l2.
Proof. unfold excess2. now rewrite map_app, Rsum_app. Qed.

Lemma excess2_below nu l : (forall v, In v l -> v <= nu) -> excess2 nu l = 0.
Proof.
  unfold excess2, Rsum.
  induction l as [|v l IH]; simpl; intros H; [reflexivity|].
  rewrite IH by auto.
  rewrite Rmax_right by (specialize (H v (or_introl eq_refl)); lra). lra.
Qed.

Lemma excess2_above nu l : (forall v, In v l -> nu <= v) -> excess2 nu l = dist2 nu l.
Proof.
  unfold excess2, dist2, Rsum.
  induction l as [|v l IH]; simpl; intros H; [reflexivity|].
  rewrite IH by auto.
  rewrite Rmax_left by (specialize (H v (or_introl eq_refl)); lra). lra.
Qed.

Lemma excess2_filter nu (f : R -> bool) l :
  (forall v, In v l -> f v = false -> v <= nu) ->
  excess2 nu (List.filter f l) = excess2 nu l.
Proof.
  unfold excess2, Rsum.
  induction l as [|v l IH]; simpl; intros H; [reflexivity|].
  destruct (f v) eqn:E; simpl; rewrite IH by auto; [reflexivity|].
  rewrite Rmax_right by (specialize (H v (or_introl eq_refl) E); lra). lra.
Qed.

Lemma excess2_antitone l nu1 nu2 : nu1 <= nu2 -> excess2 nu2 l <= excess2 nu1 l.
Proof.
  intros H. unfold excess2, Rsum. induction l as [|v l IH]; simpl; [lra|].
  assert (0 <= Rmax (v - nu2) 0 <= Rmax (v - nu1) 0).
  { split; [apply Rmax_r|]. apply Rmax_lub; [|apply Rmax_r].
    eapply Rle_trans; [|apply Rmax_l]. lra. }
  nra.
Qed.

(** The largest magnitude *)
Lemma Rmax_list_nonneg l : 0 <= Rmax_list l.
Proof. unfold Rmax_list. induction l; simpl; [lra|].
eapply Rle_trans; [exact IHl|apply Rmax_r]. Qed.

Lemma Rmax_list_ub l v : In v l -> v <= Rmax_list l.
Proof.
  unfold Rmax_list. induction l as [|w l IH]; simpl; [tauto|].
  intros [<-|H]; [apply Rmax_l|]. eapply Rle_trans; [now apply IH|apply Rmax_r].
Qed.

Lemma Rmax_list_in l :
  l <> [] -> (forall v, In v l -> 0 <= v) -> In (Rmax_list l) l.
Proof.
  unfold Rmax_list. induction l as [|w l IH]; [tauto|]. intros _ Hpos.
  simpl. destruct l as [|w' l].
  - simpl. left. rewrite Rmax_left; [reflexivity|]. apply Hpos. now left.
  - destruct (Rle_dec w (fold_right Rmax 0 (w' :: l))) as [Hle|Hgt].
    + rewrite Rmax_right by assumption.
      right. apply IH; [discriminate|]. intros v Hv. apply Hpos. now right.
    + rewrite Rmax_left by lra. now left.
Qed.

Lemma vect_ST_sumsq u x :
  0 <= u -> Rsumsq (vect_ST u x) = excess2 u (map Rabs x).
Proof.
  intros Hu. unfold Rsumsq, vect_ST, excess2. rewrite !map_map.
  f_equal. apply map_ext. intros v.
  unfold np_sign, Rltb.
  destruct (Rlt_dec 0 v); [ring|]. destruct (Rlt_dec v 0); [ring|].
  assert (v = 0) by lra. subst. rewrite Rabs_R0, Rmax_right by lra. ring.
Qed.

Lemma Rsum_pos l : l <> [] -> (forall v, In v l -> 0 < v) -> 0 < Rsum l.
Proof.
  unfold Rsum. destruct l as [|w l]; [tauto|]. intros _ H.
  assert (0 <= fold_right Rplus 0 l).
  { induction l as [|u l IH]; simpl; [lra|].
    assert (0 < u) by (apply H; simpl; auto).
    assert (0 <= fold_right Rplus 0 l) by (apply IH; intros v [<-|Hv]; apply H; simpl; auto).
    lra. }
  simpl. assert (0 < w) by (apply H; now left). lra.
Qed.

Lemma Rsumsq_pos l : l <> [] -> (forall v, In v l -> 0 < v) -> 0 < Rsumsq l.
Proof.
  intros Hne H. unfold Rsumsq. apply Rsum_pos.
  - destruct l; [tauto|discriminate].
  - intros v Hv. apply in_map_iff in Hv. destruct Hv as (u & <- & Hu).
    specialize (H u Hu). nra.
Qed.

Lemma dist2_ge_term c q v : In v q -> (v - c) * (v - c) <= dist2 c q.
Proof.
  unfold dist2, Rsum. induction q as [|w q IH]; simpl; [tauto|].
  intros [<-|H].
  - pose proof (dist2_nonneg c q) as Hn. unfold dist2, Rsum in Hn. lra.
  - specialize (IH H). pose proof (Rle_0_sqr (w - c)) as Hs. unfold Rsqr in Hs.
    lra.
Qed.

(** The root of the quadratic built from the prefix [Q] the scan stopped at. *)
Lemma prefix_root alpha R_ t Q c r :
  0 < alpha -> 0 < R_ -> 0 <= t ->
  Q <> [] -> In c Q ->
  (forall v, In v Q -> c <= v) ->
  (forall v, In v r -> v <= c) ->
  (forall v, In v (Q ++ r) -> t < v) ->
  dist2 c Q <= R_ * R_ / (alpha * alpha) * (c * c) ->
  (r = [] /\ R_ * R_ / (alpha * alpha) * (t * t) <= dist2 t Q) \/
  (exists c' r', r = c' :: r' /\ (forall v, In v r -> v <= c') /\
                 R_ * R_ / (alpha * alpha) * (c' * c') < dist2 c' Q) ->
  let S_ := Rsum Q in
  let S2 := Rsumsq Q in
  let A := INR (length Q) * (alpha * alpha) - R_ * R_ in
  exists z,
    (A = 0 -> z = S2 / (2 * (alpha * S_))) /\
    (A <> 0 -> 0 <= alpha * S_ * (alpha * S_) - S2 * A /\
               z = (alpha * S_ - sqrt (alpha * S_ * (alpha * S_) - S2 * A)) / A) /\
    t <= alpha * z /\
    excess2 (alpha * z) (Q ++ r) = R_ * R_ * (z * z).
Proof.
  intros Ha HR Ht HQ HcQ HQc Hrc Hgt Hup Hlow S_ S2 A.
  assert (Hcpos : 0 < c) by (specialize (Hgt c (in_or_app _ _ _ (or_introl HcQ))); lra).
  assert (HS : 0 < S_).
  { apply Rsum_pos; [assumption|]. intros v Hv.
    specialize (Hgt v (in_or_app _ _ _ (or_introl Hv))). lra. }
  assert (HS2 : 0 < S2).
  { apply Rsumsq_pos; [assumption|]. intros v Hv.
    specialize (Hgt v (in_or_app _ _ _ (or_introl Hv))). lra. }
  assert (HP : forall z, A * (z * z) - 2 * (alpha * S_) * z + S2
                         = dist2 (alpha * z) Q - R_ * R_ * (z * z)).
  { intros z. rewrite dist2_expand. unfold A, S_, S2. ring. }
  (* the bracket [c_low / alpha, c / alpha] *)
  assert (Hbr : exists cl, t <= cl /\ cl < c /\ (forall v, In v r -> v <= cl) /\
                           R_ * R_ / (alpha * alpha) * (cl * cl) <= dist2 cl Q).
  { destruct Hlow as [[-> Hl]|(c' & r' & -> & Hr' & Hl)].
    - exists t. repeat split; try lra.
      + specialize (Hgt c (in_or_app _ _ _ (or_introl HcQ))). lra.
      + simpl; tauto.
    - exists c'. split.
      { assert (t < c') by (apply Hgt, in_or_app; right; now left). lra. }
      split; [|split; [assumption|lra]].
      assert (c' <= c) by (apply Hrc; now left).
      destruct (Req_dec_T c' c) as [->|]; [lra|lra]. }
  destruct Hbr as (cl & Htcl & Hclc & Hrcl & Hl).
  set (z1 := cl / alpha). set (z2 := c / alpha).
  assert (E1 : alpha * z1 = cl) by (unfold z1; field; lra).
  assert (E2 : alpha * z2 = c) by (unfold z2; field; lra).
  assert (Hz : 0 <= z1 < z2).
  { unfold z1, z2. split.
    - apply Rmult_le_reg_l with alpha; [assumption|]. rewrite Rmult_0_r.
      fold z1. rewrite E1. lra.
    - apply Rmult_lt_reg_l with alpha; [assumption|]. fold z1 z2. lra. }
  assert (P1 : A * (z1 * z1) - 2 * (alpha * S_) * z1 + S2 >= 0).
  { rewrite HP, E1.
    replace (R_ * R_ * (z1 * z1)) with (R_ * R_ / (alpha * alpha) * (cl * cl))
      by (unfold z1; field; lra). lra. }
  assert (P2 : A * (z2 * z2) - 2 * (alpha * S_) * z2 + S2 <= 0).
  { rewrite HP, E2.
    replace (R_ * R_ * (z2 * z2)) with (R_ * R_ / (alpha * alpha) * (c * c))
      by (unfold z2; field; lra). lra. }
  assert (Hfin : forall z, z1 <= z <= z2 ->
                 A * (z * z) - 2 * (alpha * S_) * z + S2 = 0 ->
                 t <= alpha * z /\ excess2 (alpha * z) (Q ++ r) = R_ * R_ * (z * z)).
  { intros z [Hz1 Hz2] Hroot.
    assert (cl <= alpha * z) by (rewrite <- E1; apply Rmult_le_compat_l; lra).
    assert (alpha * z <= c) by (rewrite <- E2; apply Rmult_le_compat_l; lra).
    split; [lra|].
    rewrite excess2_app, (excess2_below _ r), (excess2_above _ Q).
    - rewrite HP in Hroot. lra.
    - intros v Hv. specialize (HQc v Hv). lra.
    - intros v Hv. specialize (Hrcl v Hv). lra. }
  destruct (Req_dec_T A 0) as [HA|HA].
  - destruct (root_linear (alpha * S_) S2 z1 z2) as [Hb Hroot].
    + nra.
    + rewrite HA in P1. lra.
    + rewrite HA in P2. lra.
    + exists (S2 / (2 * (alpha * S_))). split; [reflexivity|]. split; [tauto|].
      apply Hfin; [assumption|]. rewrite HA. lra.
  - destruct (root_quadratic A (alpha * S_) S2 z1 z2) as [Hd [Hb Hroot]];
      try assumption; [nra|].
    exists ((alpha * S_ - sqrt (alpha * S_ * (alpha * S_) - S2 * A)) / A).
    split; [tauto|]. split; [auto|].
    apply Hfin; assumption.
Qed.

Lemma selected_in x t v :
  In v (selected x (Fin t)) <-> In v (map Rabs x) /\ t < v.
Proof.
  unfold selected. split.
  - intros H. apply (Permutation_in _ (sort_desc_perm _)) in H.
    apply filter_In in H. destruct H as [H1 H2]. split; [assumption|].
    now apply Rltb_iff.
  - intros [H1 H2].
    apply (Permutation_in _ (Permutation_sym (sort_desc_perm _))).
    apply filter_In. split; [assumption|]. now apply Rltb_iff.
Qed.

Lemma selected_desc x t : desc (selected x t).
Proof. apply sort_desc_sorted. Qed.

Lemma excess2_selected nu x t :
  t <= nu -> excess2 nu (selected x (Fin t)) = excess2 nu (map Rabs x).
Proof.
  intros H. unfold selected. rewrite (excess2_perm _ _ _ (sort_desc_perm _)).
  apply excess2_filter. intros v _ Hv.
  change (Rltb t v = false) in Hv. unfold Rltb in Hv.
  destruct (Rlt_dec t v); [discriminate|lra].
Qed.

Lemma norm_inf_cons v x : norm_inf (v :: x) = Ret (Rmax_list (map Rabs (v :: x))).
Proof. reflexivity. Qed.

Lemma epsilon_norm_eq x alpha R_ :
  alpha <> 0 -> R_ <> 0 -> alpha + R_ <> 0 -> x <> [] ->
  epsilon_norm x (Fin alpha) (Fin R_) =
  let M := Rmax_list (map Rabs x) in
  let zx := selected x (Fin (alpha * M / (alpha + R_))) in
  if Reqb M 0 then Ret (Fin 0)
  else if Nat.eqb (length zx) 1 then do v <- getitem zx 0; Ret (Fin v)
  else
    do r <- scan (Fin (R_ * R_ / (alpha * alpha))) zx 0 0 0 (Fin 0);
    let '(j0, S_, S2) := r in
    let A := INR j0 * (alpha * alpha) + - (R_ * R_) in
    if Reqb A 0 then Ret (np_div (Fin S2) (Fin (2 * (alpha * S_))))
    else Ret (np_div (np_sub (Fin (alpha * S_))
                       (np_sqrt (Fin (alpha * S_ * (alpha * S_) + - (S2 * A)))))
                     (Fin A)).
Proof.
  intros Ha HR HaR Hx. destruct x as [|v x]; [tauto|].
  unfold epsilon_norm. rewrite norm_inf_cons.
  cbn [np_eqb np_mul np_add np_sub np_neg bind].
  rewrite (Reqb_false alpha 0), (Reqb_false R_ 0) by assumption.
  cbn [andb negb]. rewrite !np_div_fin by (try assumption; nra).
  reflexivity.
Qed.

Lemma Rmax_list_abs_in x :
  0 < Rmax_list (map Rabs x) -> In (Rmax_list (map Rabs x)) (map Rabs x).
Proof.
  intros H. apply Rmax_list_in.
  - destruct x; [|discriminate]. simpl in H. lra.
  - intros v Hv. apply in_map_iff in Hv. destruct Hv as (u & <- & _).
    apply Rabs_pos.
Qed.

Lemma threshold_lt alpha R_ M :
  0 < alpha -> 0 < R_ -> 0 < M ->
  0 < alpha * M / (alpha + R_) < M.
Proof.
  intros Ha HR HM.
  assert (E : alpha * M / (alpha + R_) * (alpha + R_) = alpha * M) by (field; lra).
  split.
  - apply Rmult_lt_reg_r with (alpha + R_); [lra|]. rewrite E. nra.
  - apply Rmult_lt_reg_r with (alpha + R_); [lra|]. rewrite E. nra.
Qed.

Lemma epsilon_norm_scan_root x alpha R_ :
  let M := Rmax_list (map Rabs x) in
  let zx := selected x (Fin (alpha * M / (alpha + R_))) in
  0 < alpha -> 0 < R_ -> 0 < M -> length zx <> 1%nat ->
  exists z,
    epsilon_norm x (Fin alpha) (Fin R_) = Ret (Fin z) /\
    M / (alpha + R_) <= z /\
    excess2 (alpha * z) (map Rabs x) = R_ * R_ * (z * z).
Proof.
  intros M zx Ha HR HM Hlen.
  set (t := alpha * M / (alpha + R_)) in *.
  destruct (threshold_lt alpha R_ M Ha HR HM) as [Ht0 HtM]. fold t in Ht0, HtM.
  assert (Hx : x <> []) by (intros ->; simpl in M; unfold M in HM; simpl in HM; lra).
  assert (HMin : In M zx).
  { apply selected_in. split; [now apply Rmax_list_abs_in|assumption]. }
  assert (Hsel : forall v, In v zx -> t < v) by (intros v Hv; now apply selected_in in Hv).
  pose proof (selected_desc x (Fin t)) as Hdesc. fold zx in Hdesc.
  rewrite epsilon_norm_eq by (try assumption; lra).
  cbv zeta. fold M. fold t. fold zx.
  rewrite (Reqb_false M 0) by lra.
  rewrite (proj2 (Nat.eqb_neq _ _) Hlen).
  destruct zx as [|z0 rest] eqn:Ezx; [destruct HMin|].
  destruct (scan_spec (R_ * R_ / (alpha * alpha)) rest [] z0 0)
    as (q & c & r & Heq & Hscan & Hup & Hlow).
  { intros v Hv. specialize (Hsel v Hv). lra. }
  { unfold dist2, Rsum. simpl. ring. }
  { apply Rmult_le_pos; [nra|]. apply Rlt_le, Rinv_0_lt_compat. nra. }
  change (scan (Fin (R_ * R_ / (alpha * alpha))) (z0 :: rest) 0 0 0 (Fin 0)
          = Ret (length (q ++ [c]), Rsum (q ++ [c]), Rsumsq (q ++ [c]))) in Hscan.
  rewrite Hscan. cbn [bind]. simpl in Heq.
  set (Q := q ++ [c]) in *.
  rewrite Heq in Hdesc, Hsel, HMin.
  destruct (prefix_root alpha R_ t Q c r) as (z & HzA0 & HzA & Htz & Hex);
    try assumption; try lra.
  - unfold Q. destruct q; discriminate.
  - unfold Q. apply in_or_app. right. now left.
  - intros v Hv. unfold Q in Hv. apply in_app_or in Hv.
    destruct Hv as [Hv|[<-|[]]]; [|lra].
    unfold Q in Hdesc. rewrite <- app_assoc in Hdesc.
    apply (desc_app _ _ Hdesc v c Hv). now left.
  - intros v Hv. apply (desc_app _ _ Hdesc c v); [|assumption].
    unfold Q. apply in_or_app. right. now left.
  - destruct Hlow as [->|(c' & r' & -> & Hl)].
    + left. split; [reflexivity|]. rewrite app_nil_r in HMin.
      eapply Rle_trans; [|apply (dist2_ge_term t Q M HMin)].
      right. unfold t. field. lra.
    + right. exists c', r'. split; [reflexivity|]. split; [|assumption].
      apply desc_tail in Hdesc. intros v [<-|Hv]; [lra|].
      now apply (desc_head _ _ Hdesc).
  - exists z. split; [|split].
    + unfold Rminus in HzA0, HzA.
      destruct (Req_dec_T (INR (length Q) * (alpha * alpha) + - (R_ * R_)) 0) as [HA|HA].
      * rewrite Reqb_true by assumption. rewrite np_div_fin.
        -- now rewrite (HzA0 HA).
        -- assert (0 < Rsum Q); [|nra].
           apply Rsum_pos; [unfold Q; destruct q; discriminate|].
           intros v Hv. assert (t < v) by (apply Hsel, in_or_app; now left).
           lra.
      * rewrite Reqb_false by assumption.
        destruct (HzA HA) as [Hd ->].
        unfold np_sqrt. rewrite Rltb_false by lra.
        cbn [np_sub np_neg np_add]. rewrite np_div_fin by assumption.
        reflexivity.
    + apply Rmult_le_reg_l with alpha; [assumption|].
      eapply Rle_trans; [|exact Htz]. right. unfold t. field. lra.
    + rewrite <- Hex, <- Heq. rewrite <- Ezx.
      symmetry. now apply excess2_selected.
Qed.



Lemma selected_length x t :
  length (selected x (Fin t))
  = length (List.filter (fun v => Rltb t v) (map Rabs x)).
Proof. unfold selected. apply Permutation_length, sort_desc_perm. Qed.

Lemma epsilon_norm_single x alpha R_ :
  let M := Rmax_list (map Rabs x) in
  0 < alpha -> 0 < R_ -> 0 < M -> n_inf x alpha R_ = 1%nat ->
  epsilon_norm x (Fin alpha) (Fin R_) = Ret (Fin M).
Proof.
  intros M Ha HR HM Hlen.
  unfold n_inf, threshold in Hlen. rewrite <- selected_length in Hlen.
  fold M in Hlen.
  destruct (threshold_lt alpha R_ M Ha HR HM) as [Ht0 HtM].
  assert (Hx : x <> []) by (intros ->; unfold M in HM; simpl in HM; lra).
  assert (HMin : In M (selected x (Fin (alpha * M / (alpha + R_))))).
  { apply selected_in. split; [now apply Rmax_list_abs_in|assumption]. }
  rewrite epsilon_norm_eq by (try assumption; lra).
  cbv zeta. fold M. rewrite (Reqb_false M 0) by lra. rewrite Hlen.
  cbn [Nat.eqb].
  destruct (selected x (Fin (alpha * M / (alpha + R_)))) as [|v [|? ?]]; try discriminate.
  destruct HMin as [->|[]]. reflexivity.
Qed.

Lemma excess2_single x alpha R_ :
  let M := Rmax_list (map Rabs x) in
  0 < alpha -> 0 < R_ -> 0 < M -> alpha + R_ = 1 -> n_inf x alpha R_ = 1%nat ->
  excess2 (alpha * M) (map Rabs x) = R_ * R_ * (M * M).
Proof.
  intros M Ha HR HM Hsum Hlen.
  unfold n_inf, threshold in Hlen. rewrite <- selected_length in Hlen.
  fold M in Hlen.
  destruct (threshold_lt alpha R_ M Ha HR HM) as [Ht0 HtM].
  assert (Et : alpha * M / (alpha + R_) = alpha * M) by (rewrite Hsum; field).
  assert (HMin : In M (selected x (Fin (alpha * M / (alpha + R_))))).
  { apply selected_in. split; [now apply Rmax_list_abs_in|assumption]. }
  rewrite <- (excess2_selected (alpha * M) x (alpha * M / (alpha + R_))) by lra.
  destruct (selected x (Fin (alpha * M / (alpha + R_)))) as [|v [|? ?]]; try discriminate.
  destruct HMin as [->|[]].
  unfold excess2, Rsum. simpl. rewrite Rmax_left by nra.
  replace R_ with (1 - alpha) by lra. ring.
Qed.

Lemma filter_unique {A : Type} (f : A -> bool) (l : list A) :
  forall i a,
    l !! i = Some a -> f a = true ->
    (forall j b, j <> i -> l !! j = Some b -> f b = false) ->
    List.filter f l = [a].
Proof.
  induction l as [|w l IH]; intros i a Hi Hfa Hother; [discriminate|].
  destruct i as [|i]; simpl in Hi.
  - injection Hi as ->. simpl. rewrite Hfa. f_equal.
    assert (H : forall b, In b l -> f b = false).
    { intros b Hb. apply list_elem_of_In, list_elem_of_lookup_1 in Hb.
      destruct Hb as [j Hj]. apply (Hother (S j) b); [lia|exact Hj]. }
    clear -H. induction l as [|u l IH]; simpl; [reflexivity|].
    rewrite (H u) by now left. apply IH. intros; apply H; now right.
  - simpl. rewrite (Hother 0%nat w) by (try lia; reflexivity).
    apply (IH i a Hi Hfa). intros j b Hj Hb.
    apply (Hother (S j) b); [lia|assumption].
Qed.

(** ** The epsilon-norm: what the returned value solves *)

Lemma lookup_map_abs (x : list R) i xi :
  x !! i = Some xi -> map Rabs x !! i = Some (Rabs xi).
Proof.
  revert i. induction x as [|v x IH]; intros [|i] H; try discriminate.
  - injection H as ->. reflexivity.
  - simpl. now apply IH.
Qed.

Lemma lookup_map_abs_inv (x : list R) j b :
  map Rabs x !! j = Some b -> exists xj, x !! j = Some xj /\ b = Rabs xj.
Proof.
  revert j. induction x as [|v x IH]; intros [|j] H; try discriminate.
  - injection H as <-. now exists v.
  - simpl in H. now apply IH.
Qed.

Lemma Rsumsq_nonneg x : 0 <= Rsumsq x.
Proof.
  unfold Rsumsq, Rsum. induction x as [|v x IH]; simpl; [lra|].
  pose proof (Rle_0_sqr v) as H. unfold Rsqr in H. lra.
Qed.

Lemma norm2_pos_max x : 0 < norm2 x -> 0 < Rmax_list (map Rabs x).
Proof.
  intros H. pose proof (Rmax_list_nonneg (map Rabs x)) as Hn.
  destruct (Req_dec_T (Rmax_list (map Rabs x)) 0) as [E|E]; [|lra].
  exfalso. assert (Hz : Rsumsq x = 0).
  { assert (Hall : forall v, In v x -> v = 0).
    { intros v Hv. pose proof (Rmax_list_ub (map Rabs x) (Rabs v) (in_map Rabs x v Hv)) as Hle.
      rewrite E in Hle. pose proof (Rabs_pos v) as Hp.
      destruct (Req_dec_T v 0) as [|Hne]; [assumption|].
      apply Rabs_pos_lt in Hne. lra. }
    clear -Hall. unfold Rsumsq, Rsum.
    induction x as [|v x IH]; simpl; [reflexivity|].
    rewrite IH by (intros; apply Hall; now right).
    rewrite (Hall v) by now left. ring. }
  unfold norm2 in H. rewrite Hz, sqrt_0 in H. lra.
Qed.

Lemma norm2_vect_ST_sq u x :
  0 <= u -> norm2 (vect_ST u x) * norm2 (vect_ST u x) = excess2 u (map Rabs x).
Proof.
  intros Hu. unfold norm2. rewrite sqrt_sqrt by apply Rsumsq_nonneg.
  now apply vect_ST_sumsq.
Qed.

(** Both branches that reach a root: the value returned is finite, at least
    [norm_inf / (alpha + R)], and the squared norm of the soft-thresholding
    at [alpha * z] is [(R * z) ** 2]. *)
Lemma epsilon_norm_solves x alpha R_ :
  let M := Rmax_list (map Rabs x) in
  0 < alpha -> 0 < R_ -> 0 < M ->
  alpha + R_ = 1 \/ n_inf x alpha R_ <> 1%nat ->
  exists z,
    epsilon_norm x (Fin alpha) (Fin R_) = Ret (Fin z) /\
    M / (alpha + R_) <= z /\
    excess2 (alpha * z) (map Rabs x) = R_ * R_ * (z * z).
Proof.
  intros M Ha HR HM Hcase.
  destruct (Nat.eq_dec (n_inf x alpha R_) 1%nat) as [Hone|Hmany].
  - destruct Hcase as [Hsum|Hne]; [|tauto].
    exists M. split; [now apply epsilon_norm_single|]. split.
    + rewrite Hsum. lra.
    + now apply excess2_single.
  - apply epsilon_norm_scan_root; try assumption.
    unfold n_inf, threshold in Hmany. now rewrite selected_length.
Qed.

(** The equation [‖ST(x, alpha z)‖ = R z] has at most one root [z >= 0]. *)
Lemma root_unique x alpha R_ z z' :
  0 < alpha -> 0 < R_ -> 0 <= z -> 0 <= z' ->
  norm2 (vect_ST (alpha * z) x) = R_ * z ->
  norm2 (vect_ST (alpha * z') x) = R_ * z' ->
  z' = z.
Proof.
  intros Ha HR Hz Hz' E E'.
  assert (G : excess2 (alpha * z) (map Rabs x) = R_ * z * (R_ * z)).
  { rewrite <- norm2_vect_ST_sq by (apply Rmult_le_pos; lra). now rewrite E. }
  assert (G' : excess2 (alpha * z') (map Rabs x) = R_ * z' * (R_ * z')).
  { rewrite <- norm2_vect_ST_sq by (apply Rmult_le_pos; lra). now rewrite E'. }
  destruct (Rtotal_order z' z) as [Hlt|[Heq|Hgt]]; [|assumption|].
  - pose proof (excess2_antitone (map Rabs x) (alpha * z') (alpha * z)) as Hm.
    assert (H : alpha * z' <= alpha * z) by (apply Rmult_le_compat_l; lra).
    specialize (Hm H). rewrite G, G' in Hm.
    assert (R_ * z' < R_ * z) by (apply Rmult_lt_compat_l; lra).
    assert (0 <= R_ * z') by (apply Rmult_le_pos; lra).
    exfalso. nra.
  - pose proof (excess2_antitone (map Rabs x) (alpha * z) (alpha * z')) as Hm.
    assert (H : alpha * z <= alpha * z') by (apply Rmult_le_compat_l; lra).
    specialize (Hm H). rewrite G, G' in Hm.
    assert (R_ * z < R_ * z') by (apply Rmult_lt_compat_l; lra).
    assert (0 <= R_ * z) by (apply Rmult_le_pos; lra).
    exfalso. nra.
Qed.

(** The equation that the code solves has [R z] on its right-hand side: for
    every real vector [x], [alpha] in (0,1) and [R] in (0, ‖x‖₂), when
    [alpha + R = 1] (the epsilon-norm) or the number of entries of [|x|]
    above the threshold is not one, the value [z] returned by [epsilon_norm]
    is non-negative, satisfies [‖soft_threshold(x, alpha z)‖₂ = R z], and is
    the only non-negative root of that equation. *)
Theorem epsilon_norm_root (x : list R) (alpha R_ : R) :
  0 < alpha < 1 -> 0 < R_ < norm2 x ->
  alpha + R_ = 1 \/ n_inf x alpha R_ <> 1%nat ->
  exists z,
    epsilon_norm x (Fin alpha) (Fin R_) = Ret (Fin z) /\
    0 <= z /\
    norm2 (vect_ST (alpha * z) x) = R_ * z /\
    forall z', 0 <= z' -> norm2 (vect_ST (alpha * z') x) = R_ * z' -> z' = z.
Proof.
  intros [Ha Ha1] [HR HRx] Hcase.
  assert (HM : 0 < Rmax_list (map Rabs x)) by (apply norm2_pos_max; lra).
  destruct (epsilon_norm_solves x alpha R_ Ha HR HM Hcase) as (z & Hz & Hlow & Hex).
  assert (Hz0 : 0 <= z).
  { eapply Rle_trans; [|exact Hlow]. apply Rlt_le, Rdiv_lt_0_compat; lra. }
  assert (Hn : norm2 (vect_ST (alpha * z) x) = R_ * z).
  { unfold norm2. rewrite vect_ST_sumsq by (apply Rmult_le_pos; lra).
    rewrite Hex.
    replace (R_ * R_ * (z * z)) with (R_ * z * (R_ * z)) by ring.
    apply sqrt_square. apply Rmult_le_pos; lra. }
  exists z. repeat split; try assumption.
  intros z' Hz' E'. exact (root_unique x alpha R_ z z' Ha HR Hz0 Hz' Hn E').
Qed.

Lemma norm2_gt r x : 0 <= r -> r * r < Rsumsq x -> r < norm2 x.
Proof.
  intros Hr H. unfold norm2. rewrite <- (sqrt_square r) by assumption.
  apply sqrt_lt_1_alt. split; [nra|lra].
Qed.

Lemma epsilon_norm_root_witness :
  exists z,
    epsilon_norm [4; 3; 2; 1] (Fin (1 / 2)) (Fin (1 / 2)) = Ret (Fin z) /\
    0 <= z /\
    norm2 (vect_ST (1 / 2 * z) [4; 3; 2; 1]) = 1 / 2 * z /\
    forall z', 0 <= z' ->
      norm2 (vect_ST (1 / 2 * z') [4; 3; 2; 1]) = 1 / 2 * z' -> z' = z.
Proof.
  apply (epsilon_norm_root [4; 3; 2; 1] (1 / 2) (1 / 2)).
  - lra.
  - split; [lra|]. apply norm2_gt; [lra|].
    unfold Rsumsq, Rsum. cbn [map fold_right]. lra.
  - left. lra.
Defined.

(** The scenario of the specification: on [[4, 3, 2, 1]] with
    [alpha = R = 1/2] two entries pass the threshold [2], the scan exhausts
    them ([j0 = 2], [S = 7], [S2 = 25]) and the root is [14 - 4 sqrt 6]. *)
Example epsilon_norm_4321 :
  epsilon_norm [4; 3; 2; 1] (Fin (1 / 2)) (Fin (1 / 2))
  = Ret (Fin (14 - 4 * sqrt 6)).
Proof.
  rewrite epsilon_norm_eq by (try discriminate; lra). cbv zeta.
  assert (EM : Rmax_list (map Rabs [4; 3; 2; 1]) = 4).
  { unfold Rmax_list. simpl. Rnum. reflexivity. }
  rewrite EM. rewrite (Reqb_false 4 0) by lra.
  assert (Ezx : selected [4; 3; 2; 1] (Fin (1 / 2 * 4 / (1 / 2 + 1 / 2))) = [4; 3]).
  { unfold selected. cbn [map List.filter np_gt np_lt]. Rnum.
    rewrite (Rltb_true _ 4), (Rltb_true _ 3) by lra.
    rewrite (Rltb_false _ 2), (Rltb_false _ 1) by lra.
    unfold sort_desc. cbn [fold_right insert_desc].
    now rewrite Rleb_true by lra. }
  rewrite Ezx. cbn [length Nat.eqb].
  rewrite scan_next. cbv zeta. rewrite !np_div_fin by lra.
  cbn [np_sub np_neg np_add np_le np_lt np_eqb].
  rewrite (Rltb_false (1 / 2 * (1 / 2) / (1 / 2 * (1 / 2)))) by (simpl INR; lra).
  rewrite andb_false_r. rewrite scan_last. cbn [bind].
  rewrite (Reqb_false (INR 2 * (1 / 2 * (1 / 2)) + - (1 / 2 * (1 / 2)))) by (simpl INR; lra).
  unfold np_sqrt.
  replace (1 / 2 * (0 + 4 + 3) * (1 / 2 * (0 + 4 + 3)) +
           - ((0 + 4 * 4 + 3 * 3) * (INR 2 * (1 / 2 * (1 / 2)) + - (1 / 2 * (1 / 2)))))
    with 6 by (simpl INR; lra).
  rewrite Rltb_false by lra. cbn [np_sub np_neg np_add].
  rewrite np_div_fin by (simpl INR; lra).
  do 2 f_equal. simpl INR. field.
Qed.

Lemma norm2_vect_ST_one u : norm2 (vect_ST u [1]) = Rmax (1 - u) 0.
Proof.
  unfold norm2, vect_ST, Rsumsq, Rsum, np_sign. cbn [map fold_right].
  rewrite (Rltb_true 0 1) by lra. rewrite (Rabs_pos_eq 1) by lra.
  replace (1 * Rmax (1 - u) 0 * (1 * Rmax (1 - u) 0) + 0)
    with (Rmax (1 - u) 0 * Rmax (1 - u) 0) by ring.
  apply sqrt_square. apply Rmax_r.
Qed.

(** C1: the code does not return the root of the equation that its docstring
    and the claim state.  On [x = [1]] with [alpha = R = 1/2] (inside the
    claim's range) [epsilon_norm] returns [1], where
    [‖soft_threshold(x, alpha z)‖₂] is [1/2] and not [alpha R = 1/4]; the
    only non-negative root of the stated equation is [3/2]. *)
Theorem epsilon_norm_misses_stated_root :
  0 < 1 / 2 < 1 /\ 0 < 1 / 2 < norm2 [1] /\
  epsilon_norm [1] (Fin (1 / 2)) (Fin (1 / 2)) = Ret (Fin 1) /\
  norm2 (vect_ST (1 / 2 * 1) [1]) = 1 / 2 /\
  norm2 (vect_ST (1 / 2 * 1) [1]) <> 1 / 2 * (1 / 2) /\
  forall z, 0 <= z ->
    (norm2 (vect_ST (1 / 2 * z) [1]) = 1 / 2 * (1 / 2) <-> z = 3 / 2).
Proof.
  split; [lra|]. split.
  { split; [lra|]. apply norm2_gt; [lra|]. unfold Rsumsq, Rsum.
    cbn [map fold_right]. lra. }
  split.
  { assert (EM : Rmax_list (map Rabs [1]) = 1).
    { unfold Rmax_list. cbn [map fold_right]. rewrite (Rabs_pos_eq 1) by lra.
      apply Rmax_left. lra. }
    etransitivity; [apply epsilon_norm_single | now rewrite EM];
      rewrite ?EM; try lra.
    unfold n_inf, threshold. rewrite EM. cbn [map List.filter].
    rewrite (Rabs_pos_eq 1) by lra. rewrite Rltb_true by lra. reflexivity. }
  assert (E1 : norm2 (vect_ST (1 / 2 * 1) [1]) = 1 / 2).
  { rewrite norm2_vect_ST_one. rewrite Rmax_left by lra. lra. }
  split; [exact E1|]. split; [rewrite E1; lra|].
  intros z Hz. rewrite norm2_vect_ST_one. split.
  - intros E. destruct (Rle_dec (1 - 1 / 2 * z) 0) as [Hle|Hgt].
    + rewrite Rmax_right in E by lra. lra.
    + rewrite Rmax_left in E by lra. lra.
  - intros ->. rewrite Rmax_left by lra. lra.
Qed.

(** The shortcut [if n_inf == 1: return zx[0]] is exact for the epsilon-norm
    ([alpha + R = 1]) only: with [alpha = 1/2], [R = 1/4] it returns [1],
    which does not solve [‖ST(x, alpha z)‖₂ = R z]. *)
Example epsilon_norm_single_entry_off_norm :
  epsilon_norm [1] (Fin (1 / 2)) (Fin (1 / 4)) = Ret (Fin 1) /\
  norm2 (vect_ST (1 / 2 * 1) [1]) <> 1 / 4 * 1.
Proof.
  split.
  - assert (EM : Rmax_list (map Rabs [1]) = 1).
    { unfold Rmax_list. simpl. Rnum. reflexivity. }
    etransitivity; [apply epsilon_norm_single|now rewrite EM];
      rewrite ?EM; try lra.
    unfold n_inf, threshold. rewrite EM. simpl. Rnum.
    rewrite Rltb_true by lra. reflexivity.
  - unfold norm2, vect_ST, Rsumsq, Rsum, np_sign. simpl.
    rewrite (Rltb_true 0 1) by lra. Rnum.
    replace (1 * (1 - 1 / 2 * 1) * (1 * (1 - 1 / 2 * 1)) + 0)
      with (1 / 2 * (1 / 2)) by lra.
    rewrite sqrt_square by lra. lra.
Qed.

(** C6: for [alpha > 0] and [R > 0], when exactly one entry of [|x|] exceeds
    the threshold [alpha ‖x‖∞ / (alpha + R)], [epsilon_norm] returns the
    magnitude of that entry. *)
Theorem epsilon_norm_single_entry (x : list R) (alpha R_ : R) (i : nat)
    (xi : R) :
  0 < alpha -> 0 < R_ ->
  x !! i = Some xi ->
  threshold x alpha R_ < Rabs xi ->
  (forall j xj, j <> i -> x !! j = Some xj ->
                Rabs xj <= threshold x alpha R_) ->
  epsilon_norm x (Fin alpha) (Fin R_) = Ret (Fin (Rabs xi)).
Proof.
  intros Ha HR Hi Hgt Hothers.
  set (M := Rmax_list (map Rabs x)).
  assert (Hfil : List.filter (fun v => Rltb (threshold x alpha R_) v) (map Rabs x)
                 = [Rabs xi]).
  { apply (filter_unique _ _ i).
    - now apply lookup_map_abs.
    - now apply Rltb_true.
    - intros j b Hj Hb. apply lookup_map_abs_inv in Hb.
      destruct Hb as (xj & Hxj & ->). apply Rltb_false. now apply (Hothers j). }
  assert (Hin : In (Rabs xi) (map Rabs x)).
  { apply in_map, list_elem_of_In, list_elem_of_lookup. now exists i. }
  assert (HM : 0 < M).
  { pose proof (Rmax_list_ub _ _ Hin) as Hub. fold M in Hub.
    pose proof (Rmax_list_nonneg (map Rabs x)) as Hn. fold M in Hn.
    assert (0 <= threshold x alpha R_); [|lra].
    unfold threshold. fold M. apply Rmult_le_pos; [nra|].
    apply Rlt_le, Rinv_0_lt_compat. lra. }
  assert (Hone : n_inf x alpha R_ = 1%nat) by (unfold n_inf; now rewrite Hfil).
  rewrite (epsilon_norm_single x alpha R_ Ha HR HM Hone). fold M.
  destruct (threshold_lt alpha R_ M Ha HR HM) as [_ HtM].
  assert (HinF : In M (List.filter (fun v => Rltb (threshold x alpha R_) v)
                                   (map Rabs x))).
  { apply filter_In. split; [now apply Rmax_list_abs_in|].
    apply Rltb_true. exact HtM. }
  rewrite Hfil in HinF. destruct HinF as [<-|[]]. reflexivity.
Qed.

Lemma epsilon_norm_single_entry_witness :
  epsilon_norm [3; -1] (Fin (1 / 2)) (Fin (1 / 2)) = Ret (Fin (Rabs 3)).
Proof.
  assert (Et : threshold [3; -1] (1 / 2) (1 / 2) = 3 / 2).
  { unfold threshold, Rmax_list. simpl. Rnum. field. }
  apply (epsilon_norm_single_entry [3; -1] (1 / 2) (1 / 2) 0 3).
  - lra.
  - lra.
  - reflexivity.
  - rewrite Et. Rnum. lra.
  - intros j xj Hj Hx. rewrite Et. destruct j as [|[|j]]; try discriminate.
    + congruence.
    + injection Hx as <-. Rnum. lra.
Defined.

(** ** The epsilon-norm: degenerate inputs *)

Lemma norm_inf_nonempty x :
  x <> [] -> norm_inf x = Ret (Rmax_list (map Rabs x)).
Proof. destruct x; [tauto|reflexivity]. Qed.

(** C5, as the code has it: on a non-empty [x], [epsilon_norm] with [R = 0]
    returns [‖x‖∞ / alpha] for every [alpha > 0]; the degenerate inputs (zero
    infinity-norm, zero radius, zero mixing weight) never raise; and for
    [alpha = 0], [R = 0] the value is the quotient [‖x‖∞ / 0]: NaN when
    [‖x‖∞ = 0], plus infinity otherwise. *)
Theorem epsilon_norm_degenerate (x : list R) (alpha R_ : R) :
  x <> [] ->
  let M := Rmax_list (map Rabs x) in
  (0 < alpha -> epsilon_norm x (Fin alpha) (Fin 0) = Ret (Fin (M / alpha))) /\
  (M = 0 \/ R_ = 0 \/ alpha = 0 ->
   exists v, epsilon_norm x (Fin alpha) (Fin R_) = Ret v) /\
  (M = 0 -> epsilon_norm x (Fin 0) (Fin 0) = Ret NaN) /\
  (0 < M -> epsilon_norm x (Fin 0) (Fin 0) = Ret PInf).
Proof.
  intros Hx M. pose proof (norm_inf_nonempty x Hx) as Hn. fold M in Hn.
  assert (H00 : epsilon_norm x (Fin 0) (Fin 0) = Ret (np_div (Fin M) (Fin 0))).
  { unfold epsilon_norm. cbn [np_eqb]. rewrite Reqb_true by reflexivity.
    cbn [andb negb]. rewrite Hn. reflexivity. }
  repeat split.
  - intros Ha. unfold epsilon_norm. cbn [np_eqb].
    rewrite (Reqb_false alpha 0) by lra. rewrite Reqb_true by reflexivity.
    cbn [andb]. rewrite Hn. cbn [bind]. rewrite np_div_fin by lra. reflexivity.
  - intros Hdeg. unfold epsilon_norm. cbn [np_eqb].
    destruct (Req_dec_T R_ 0) as [HR|HR].
    + rewrite (Reqb_true R_ 0) by assumption. rewrite andb_false_r.
      rewrite Hn. cbn [bind]. eauto.
    + rewrite (Reqb_false R_ 0) by assumption.
      destruct (Req_dec_T alpha 0) as [Ha|Ha].
      * rewrite (Reqb_true alpha 0) by assumption. cbn [andb negb]. eauto.
      * rewrite (Reqb_false alpha 0) by assumption. cbn [andb negb].
        rewrite Hn. cbn [bind]. cbv zeta.
        destruct Hdeg as [HM|[?|?]]; try tauto.
        rewrite (Reqb_true M 0) by assumption. eauto.
  - intros HM. rewrite H00. unfold np_div. rewrite HM.
    now rewrite Reqb_true by reflexivity.
  - intros HM. rewrite H00. unfold np_div.
    rewrite Reqb_true by reflexivity. rewrite (Reqb_false M 0) by lra.
    now rewrite Rltb_true.
Qed.

Lemma epsilon_norm_degenerate_witness :
  (0 < 2 -> epsilon_norm [0] (Fin 2) (Fin 0)
            = Ret (Fin (Rmax_list (map Rabs [0]) / 2))) /\
  (Rmax_list (map Rabs [0]) = 0 \/ 0 = 0 \/ 2 = 0 ->
   exists v, epsilon_norm [0] (Fin 2) (Fin 0) = Ret v) /\
  (Rmax_list (map Rabs [0]) = 0 -> epsilon_norm [0] (Fin 0) (Fin 0) = Ret NaN) /\
  (0 < Rmax_list (map Rabs [0]) -> epsilon_norm [0] (Fin 0) (Fin 0) = Ret PInf).
Proof.
  apply (epsilon_norm_degenerate [0] 2 0). discriminate.
Defined.

(** C5, as stated, fails: for [alpha = 0], [R = 0] and [‖x‖∞ = 0] the code
    returns [0 / 0], which is NaN, not [0]. *)
Lemma epsilon_norm_degenerate_counterexample :
  Rmax_list (map Rabs [0]) = 0 /\
  epsilon_norm [0] (Fin 0) (Fin 0) = Ret NaN /\
  epsilon_norm [0] (Fin 0) (Fin 0) <> Ret (Fin 0).
Proof.
  assert (EM : Rmax_list (map Rabs [0]) = 0).
  { unfold Rmax_list. simpl. Rnum. reflexivity. }
  assert (E : epsilon_norm [0] (Fin 0) (Fin 0) = Ret NaN).
  { unfold epsilon_norm. cbn [np_eqb]. rewrite Reqb_true by reflexivity.
    cbn [andb negb]. rewrite norm_inf_cons, EM. cbn [bind]. unfold np_div.
    now rewrite Reqb_true by reflexivity. }
  split; [assumption|]. split; [assumption|]. rewrite E. discriminate.
Qed.

(** On an empty vector the infinity-norm itself raises. *)
Example epsilon_norm_empty : epsilon_norm [] (Fin 1) (Fin 0) = Raise ValueError.
Proof.
  unfold epsilon_norm. cbn [np_eqb]. rewrite (Reqb_false 1 0) by lra.
  rewrite Reqb_true by reflexivity. reflexivity.
Qed.

(** ** The penalty grid *)

Lemma epsilon_norm_eps_finite x e :
  x <> [] -> 0 <= e <= 1 ->
  exists z, epsilon_norm x (Fin (1 - e)) (Fin e) = Ret (Fin z) /\ 0 <= z.
Proof.
  intros Hx [He0 He1].
  pose proof (Rmax_list_nonneg (map Rabs x)) as HM0.
  destruct (Req_dec_T e 0) as [E0|E0].
  - subst e. exists (Rmax_list (map Rabs x) / (1 - 0)). split.
    + unfold epsilon_norm. cbn [np_eqb]. rewrite (Reqb_false (1 - 0) 0) by lra.
      rewrite Reqb_true by reflexivity. cbn [andb].
      rewrite norm_inf_nonempty by assumption. cbn [bind].
      now rewrite np_div_fin by lra.
    + apply Rmult_le_pos; [assumption|]. apply Rlt_le, Rinv_0_lt_compat. lra.
  - destruct (Req_dec_T e 1) as [E1|E1].
    + subst e. exists (norm2 x / 1). split.
      * unfold epsilon_norm. cbn [np_eqb]. rewrite (Reqb_true (1 - 1) 0) by lra.
        rewrite (Reqb_false 1 0) by lra. cbn [andb negb].
        now rewrite np_div_fin by lra.
      * unfold norm2. pose proof (sqrt_pos (Rsumsq x)). lra.
    + destruct (Req_dec_T (Rmax_list (map Rabs x)) 0) as [EM|EM].
      * exists 0. split; [|lra].
        rewrite epsilon_norm_eq by (try assumption; lra). cbv zeta.
        now rewrite Reqb_true by assumption.
      * destruct (epsilon_norm_solves x (1 - e) e) as (z & Hz & Hlow & _);
          try lra.
        exists z. split; [assumption|].
        eapply Rle_trans; [|exact Hlow].
        apply Rmult_le_pos; [assumption|]. apply Rlt_le, Rinv_0_lt_compat. lra.
Qed.

Lemma mapM_seq {B : Type} (f : nat -> result B) (g : nat -> B) n a :
  (forall i, (a <= i < a + n)%nat -> f i = Ret (g i)) ->
  mapM f (seq a n) = Ret (map g (seq a n)).
Proof.
  revert a. induction n as [|n IH]; intros a H; [reflexivity|].
  simpl. rewrite H by lia. cbn [bind]. rewrite IH; [reflexivity|].
  intros i Hi. apply H. lia.
Qed.

Lemma lookup_map {A B : Type} (f : A -> B) (l : list A) i :
  map f l !! i = option_map f (l !! i).
Proof.
  revert i. induction l as [|a l IH]; intros [|i]; simpl; try reflexivity.
  apply IH.
Qed.

Lemma lookup_seq_map {B : Type} (g : nat -> B) n i :
  (i < n)%nat -> map g (seq 0 n) !! i = Some (g i).
Proof.
  intros H. rewrite lookup_map. now rewrite lookup_seq_lt.
Qed.

Lemma layout_from_slice size_groups :
  forall g_start a0 p,
    layout_from a0 size_groups g_start p ->
    length g_start = length size_groups /\ (a0 <= p)%nat /\
    forall i a s, g_start !! i = Some a -> size_groups !! i = Some s ->
                  (1 <= s /\ a + s <= p)%nat.
Proof.
  induction size_groups as [|s ss IH]; intros [|g gs] a0 p H;
    simpl in H; try tauto.
  - split; [reflexivity|]. split; [lia|]. intros [|i]; discriminate.
  - destruct H as (-> & Hs & H).
    destruct (IH gs _ _ H) as (Hlen & Hend & Hsl).
    split; [simpl; now rewrite Hlen|]. split; [lia|].
    intros [|i] a s' Ha Hs'; simpl in Ha, Hs'.
    + injection Ha as <-. injection Hs' as <-. lia.
    + now apply (Hsl i).
Qed.

Lemma partitions_slice p size_groups g_start :
  partitions p size_groups g_start ->
  length g_start = length size_groups /\
  forall i a s, g_start !! i = Some a -> size_groups !! i = Some s ->
                (1 <= s /\ a + s <= p)%nat.
Proof.
  intros H. destruct (layout_from_slice _ _ _ _ H) as (Hlen & _ & Hsl).
  now split.
Qed.

Lemma slice_nonempty {A : Type} (l : list A) a s :
  (1 <= s)%nat -> (a + s <= length l)%nat -> firstn s (skipn a l) <> [].
Proof.
  intros Hs Hl E. apply (f_equal (@length A)) in E.
  rewrite length_firstn, length_skipn in E. simpl in E. lia.
Qed.

(** [np.argmax] on finite values: an index of a largest entry. *)
Lemma argmax_from_spec l :
  forall pre best ibest,
    pre !! ibest = Some best ->
    (forall u, In u pre -> u <= best) ->
    exists m,
      (pre ++ l) !! argmax_from (Fin best) ibest (length pre) (map Fin l)
      = Some m /\
      forall u, In u (pre ++ l) -> u <= m.
Proof.
  induction l as [|v l IH]; intros pre best ibest Hb Hmax.
  - exists best. rewrite app_nil_r. simpl. split; assumption.
  - cbn [map argmax_from]. rewrite np_le_fin.
    replace (pre ++ v :: l) with ((pre ++ [v]) ++ l) by now rewrite <- app_assoc.
    replace (S (length pre)) with (length (pre ++ [v]))
      by (rewrite length_app; simpl; lia).
    unfold Rleb. destruct (Rle_dec v best) as [Hle|Hgt].
    + apply IH.
      * rewrite lookup_app_l; [assumption|]. now apply lookup_lt_Some in Hb.
      * intros u Hu. apply in_app_or in Hu. destruct Hu as [Hu|[<-|[]]]; auto.
    + replace (length (pre ++ [v])) with (S (length pre))
        by (rewrite length_app; simpl; lia).
      replace (S (length pre)) with (length (pre ++ [v]))
        by (rewrite length_app; simpl; lia).
      apply IH.
      * rewrite lookup_app_r by lia. now rewrite Nat.sub_diag.
      * intros u Hu. apply in_app_or in Hu. destruct Hu as [Hu|[<-|[]]]; [|lra].
        specialize (Hmax u Hu). lra.
Qed.

Lemma argmax_spec l :
  l <> [] ->
  exists imax m,
    argmax (map Fin l) = Ret imax /\ l !! imax = Some m /\
    forall u, In u l -> u <= m.
Proof.
  destruct l as [|v l]; [tauto|]. intros _.
  destruct (argmax_from_spec l [v] v 0%nat) as (m & Hm & Hmax).
  - reflexivity.
  - intros u [<-|[]]. lra.
  - exists (argmax_from (Fin v) 0 1 (map Fin l)), m. repeat split; assumption.
Qed.

Lemma lookup_combine_map {A B C : Type} (f : A * B -> C) (l1 : list A)
    (l2 : list B) i a b :
  l1 !! i = Some a -> l2 !! i = Some b ->
  map f (combine l1 l2) !! i = Some (f (a, b)).
Proof.
  revert l2 i. induction l1 as [|u l1 IH]; intros [|v l2] [|i] Ha Hb;
    try discriminate.
  - injection Ha as ->. injection Hb as ->. reflexivity.
  - simpl. now apply IH.
Qed.

Lemma broadcast_div_fin (es ws : list R) :
  length es = length ws -> (forall w, In w ws -> w <> 0) ->
  broadcast_div (map Fin es) ws
  = Ret (map Fin (map (fun p => fst p / snd p) (combine es ws))).
Proof.
  intros Hlen Hw. unfold broadcast_div.
  rewrite length_map, (proj2 (Nat.eqb_eq _ _) Hlen). f_equal.
  clear Hlen. revert ws Hw. induction es as [|e es IH]; intros [|w ws] Hw;
    try reflexivity.
  cbn [map combine fst snd]. rewrite np_div_fin by (apply Hw; now left).
  f_equal.
  apply IH. intros; apply Hw; now right.
Qed.

Lemma grid_entry_fin lambda_max delta n i :
  (2 <= n)%nat ->
  grid_entry (Fin lambda_max) delta n i
  = Fin (lambda_max * Rpower 10 (- delta * INR i / (INR n - 1))).
Proof.
  intros Hn. unfold grid_entry. rewrite np_div_fin; [reflexivity|].
  apply le_INR in Hn. simpl in Hn. lra.
Qed.

(** With a single penalty the exponent is [0 / 0]: the grid is [[nan]]. *)
Example grid_entry_single lambda_max delta :
  grid_entry (Fin lambda_max) delta 1 0 = NaN.
Proof.
  unfold grid_entry, np_div. simpl INR.
  rewrite (Reqb_true (1 - 1) 0) by lra.
  rewrite (Reqb_true (- delta * 0) 0) by lra. reflexivity.
Qed.

(** The grid that [build_lambdas] returns once the per-group norms are
    known to be the finite values [es]. *)
Lemma build_lambdas_of_norms X y omega size_groups g_start n_lambdas delta tau
    (es : list R) :
  mapM (group_norm X y
          (map (fun w => np_div (Fin ((1 - tau) * w))
                                (Fin (tau + (1 - tau) * w))) omega)
          size_groups g_start)
       (seq 0 (length size_groups)) = Ret (map Fin es) ->
  length es = length omega -> es <> [] ->
  (forall w, In w omega -> weight tau w <> 0) ->
  (2 <= n_lambdas)%nat ->
  let nrm := map (fun p => fst p / snd p) (combine es (map (weight tau) omega)) in
  exists imax lambda_max,
    nrm !! imax = Some lambda_max /\
    (forall v, In v nrm -> v <= lambda_max) /\
    build_lambdas X y omega size_groups g_start n_lambdas delta tau
    = Ret (map (fun i => Fin (lambda_max *
                              Rpower 10 (- delta * INR i / (INR n_lambdas - 1))))
               (seq 0 n_lambdas), imax).
Proof.
  intros Hmap Hlen Hne Hw Hn nrm.
  assert (Hnrm : nrm <> []).
  { unfold nrm. destruct es as [|e es]; [tauto|].
    destruct omega as [|w omega]; discriminate. }
  destruct (argmax_spec nrm Hnrm) as (imax & m & Harg & Hm & Hmax).
  exists imax, m. split; [assumption|]. split; [assumption|].
  unfold build_lambdas. rewrite Hmap. cbn [bind].
  change (map (fun w => tau + (1 - tau) * w) omega) with (map (weight tau) omega).
  rewrite broadcast_div_fin.
  - fold nrm. cbn [bind]. rewrite Harg. cbn [bind].
    unfold getitem. rewrite lookup_map, Hm. cbn [option_map bind].
    do 2 f_equal. apply map_ext. intros i. now apply grid_entry_fin.
  - now rewrite length_map.
  - intros w Hin. apply in_map_iff in Hin. destruct Hin as (u & <- & Hu).
    now apply Hw.
Qed.

Lemma eps_of_range tau w :
  0 <= tau <= 1 -> 0 <= w -> 0 < weight tau w -> 0 <= eps_of tau w <= 1.
Proof.
  intros Ht Hw Hpos. unfold eps_of, weight in *.
  assert (0 <= (1 - tau) * w) by nra.
  split.
  - apply Rmult_le_pos; [assumption|]. apply Rlt_le, Rinv_0_lt_compat.
    assumption.
  - apply Rmult_le_reg_r with (tau + (1 - tau) * w); [assumption|].
    unfold Rdiv. rewrite Rmult_assoc, Rinv_l by lra. lra.
Qed.

(** Each group's norm is a finite value on well-formed input. *)
Lemma group_norm_finite X y omega size_groups g_start tau i a s w :
  length y = n_rows X ->
  0 <= tau <= 1 -> 0 <= w -> 0 < weight tau w ->
  g_start !! i = Some a -> size_groups !! i = Some s -> omega !! i = Some w ->
  (1 <= s)%nat -> (a + s <= length (columns X))%nat ->
  exists XgTy e,
    dot_cols_T X a s y = Ret XgTy /\
    epsilon_norm XgTy (Fin (1 - eps_of tau w)) (Fin (eps_of tau w)) = Ret (Fin e) /\
    group_norm X y
      (map (fun w => np_div (Fin ((1 - tau) * w)) (Fin (tau + (1 - tau) * w)))
           omega)
      size_groups g_start i = Ret (Fin e).
Proof.
  intros Hy Ht Hw Hpos Ha Hs Hom Hs1 Hend.
  set (XgTy := map (fun c => vdot c y) (firstn s (skipn a (columns X)))).
  assert (Hdot : dot_cols_T X a s y = Ret XgTy).
  { unfold dot_cols_T. now rewrite (proj2 (Nat.eqb_eq _ _) Hy). }
  assert (Hx : XgTy <> []).
  { unfold XgTy. intros E. apply map_eq_nil in E.
    revert E. now apply slice_nonempty. }
  destruct (epsilon_norm_eps_finite XgTy (eps_of tau w) Hx
              (eps_of_range tau w Ht Hw Hpos)) as (e & He & _).
  exists XgTy, e. split; [assumption|]. split; [assumption|].
  unfold group_norm, getitem. rewrite Ha, Hs. cbn [bind]. rewrite Hdot.
  cbn [bind].
  rewrite lookup_map, Hom. cbn [option_map bind].
  rewrite np_div_fin by (unfold weight in Hpos; lra).
  exact He.
Qed.

Lemma Rpower10_lt a b : a < b -> Rpower 10 a < Rpower 10 b.
Proof. intros H. apply Rpower_lt; lra. Qed.

Lemma value_of_fin (r : result npfloat) e : r = Ret (Fin e) -> e = value_of r.
Proof. now intros ->. Qed.

(** C2, as the code has it: on an input whose groups partition the features
    (with [tau] in [0,1], non-negative [omega] and positive weights
    [tau + (1 - tau) omega_g]) and for [n_lambdas >= 2], [build_lambdas]
    returns the sequence of length [n_lambdas] whose entry [i] is
    [lambda_max * 10 ** (- delta i / (n_lambdas - 1))], where [lambda_max] is
    the largest of the per-group values
    [epsilon_norm(X_g^T y, 1 - eps_g, eps_g) / (tau + (1 - tau) omega_g)],
    together with an index attaining it; the first entry is [lambda_max]; the
    sequence decreases strictly when [delta > 0] and [lambda_max > 0]. *)
Theorem build_lambdas_grid (X : ndarray2) (y omega : list R)
    (size_groups g_start : list nat) (n_lambdas : nat) (delta tau : R) :
  length y = n_rows X ->
  partitions (length (columns X)) size_groups g_start ->
  length omega = length size_groups -> size_groups <> [] ->
  0 <= tau <= 1 ->
  (forall w, In w omega -> 0 <= w /\ 0 < weight tau w) ->
  (2 <= n_lambdas)%nat ->
  exists nrm imax lambda_max,
    length nrm = length size_groups /\
    (forall i a s w,
        g_start !! i = Some a -> size_groups !! i = Some s ->
        omega !! i = Some w ->
        exists XgTy e,
          dot_cols_T X a s y = Ret XgTy /\
          epsilon_norm XgTy (Fin (1 - eps_of tau w)) (Fin (eps_of tau w))
          = Ret (Fin e) /\
          nrm !! i = Some (e / weight tau w)) /\
    nrm !! imax = Some lambda_max /\
    (forall v, In v nrm -> v <= lambda_max) /\
    let lambdas :=
      map (fun i => Fin (lambda_max *
                         Rpower 10 (- delta * INR i / (INR n_lambdas - 1))))
          (seq 0 n_lambdas) in
    build_lambdas X y omega size_groups g_start n_lambdas delta tau
    = Ret (lambdas, imax) /\
    length lambdas = n_lambdas /\
    lambdas !! 0%nat = Some (Fin lambda_max) /\
    (0 < delta -> 0 < lambda_max -> strictly_decreasing lambdas).
Proof.
  intros Hy Hpart Hlen Hne Ht Hom Hn.
  destruct (partitions_slice _ _ _ Hpart) as [Hlen' Hslice].
  set (eps_g := map (fun w => np_div (Fin ((1 - tau) * w))
                                     (Fin (tau + (1 - tau) * w))) omega).
  set (f := group_norm X y eps_g size_groups g_start).
  set (n := length size_groups) in *.
  assert (Hgroup : forall i a s w,
             g_start !! i = Some a -> size_groups !! i = Some s ->
             omega !! i = Some w ->
             exists XgTy e,
               dot_cols_T X a s y = Ret XgTy /\
               epsilon_norm XgTy (Fin (1 - eps_of tau w)) (Fin (eps_of tau w))
               = Ret (Fin e) /\
               f i = Ret (Fin e)).
  { intros i a s w Ha Hs Hw.
    destruct (Hslice i a s Ha Hs) as [Hs1 Hend].
    assert (Hin : In w omega).
    { apply list_elem_of_In, list_elem_of_lookup. now exists i. }
    destruct (Hom w Hin) as [Hw0 Hwp].
    now apply (group_norm_finite X y omega size_groups g_start tau i a s w). }
  assert (Hf : forall i, (i < n)%nat -> f i = Ret (Fin (value_of (f i)))).
  { intros i Hi.
    destruct (lookup_lt_is_Some_2 g_start i) as [a Ha]; [lia|].
    destruct (lookup_lt_is_Some_2 size_groups i) as [s Hs]; [assumption|].
    destruct (lookup_lt_is_Some_2 omega i) as [w Hw]; [lia|].
    destruct (Hgroup i a s w Ha Hs Hw) as (XgTy & e & _ & _ & He).
    rewrite He. reflexivity. }
  set (es := map (fun i => value_of (f i)) (seq 0 n)).
  assert (Hmap : mapM f (seq 0 n) = Ret (map Fin es)).
  { unfold es. rewrite map_map. apply mapM_seq. intros i Hi. apply Hf. lia. }
  assert (Hn0 : (0 < n)%nat).
  { unfold n. destruct size_groups; [tauto|simpl; lia]. }
  destruct (build_lambdas_of_norms X y omega size_groups g_start n_lambdas
              delta tau es Hmap) as (imax & m & Him & Hmax & Hbuild).
  { unfold es. rewrite length_map, length_seq. lia. }
  { unfold es. destruct n; [lia|discriminate]. }
  { intros w Hw. destruct (Hom w Hw). lra. }
  { assumption. }
  exists (map (fun p => fst p / snd p) (combine es (map (weight tau) omega))),
         imax, m.
  split.
  { rewrite length_map, length_combine, length_map. unfold es.
    rewrite length_map, length_seq. lia. }
  split.
  { intros i a s w Ha Hs Hw.
    destruct (Hgroup i a s w Ha Hs Hw) as (XgTy & e & Hdot & He & Hfi).
    exists XgTy, e. split; [assumption|]. split; [assumption|].
    assert (Hi : (i < n)%nat) by now apply lookup_lt_Some in Hs.
    rewrite (lookup_combine_map _ es (map (weight tau) omega) i
               (value_of (f i)) (weight tau w)).
    - simpl. now rewrite <- (value_of_fin _ _ Hfi).
    - unfold es. now apply (lookup_seq_map (fun i => value_of (f i))).
    - now rewrite lookup_map, Hw. }
  split; [assumption|]. split; [assumption|].
  cbv zeta. split; [assumption|]. split.
  { now rewrite length_map, length_seq. }
  split.
  { rewrite lookup_seq_map by lia. do 2 f_equal. simpl INR.
    replace (- delta * 0 / (INR n_lambdas - 1)) with 0
      by (unfold Rdiv; ring).
    rewrite Rpower_O by lra. ring. }
  intros Hdelta Hm i j a b Hij Ha Hb.
  assert (Hj : (j < n_lambdas)%nat).
  { apply lookup_lt_Some in Hb. now rewrite length_map, length_seq in Hb. }
  rewrite lookup_seq_map in Ha by lia. rewrite lookup_seq_map in Hb by lia.
  injection Ha as <-. injection Hb as <-.
  cbn [np_lt]. apply Rltb_true.
  apply Rmult_lt_compat_l; [assumption|]. apply Rpower10_lt.
  assert (Hd : 0 < INR n_lambdas - 1).
  { apply le_INR in Hn. simpl in Hn. lra. }
  apply lt_INR in Hij.
  unfold Rdiv. apply Rmult_lt_compat_r; [now apply Rinv_0_lt_compat|]. nra.
Qed.

Lemma build_lambdas_grid_witness :
  exists nrm imax lambda_max,
    length nrm = length [1%nat] /\
    (forall i a s w,
        [0%nat] !! i = Some a -> [1%nat] !! i = Some s ->
        [1] !! i = Some w ->
        exists XgTy e,
          dot_cols_T (MkArray2 1 [[1]]) a s [1] = Ret XgTy /\
          epsilon_norm XgTy (Fin (1 - eps_of (1 / 2) w)) (Fin (eps_of (1 / 2) w))
          = Ret (Fin e) /\
          nrm !! i = Some (e / weight (1 / 2) w)) /\
    nrm !! imax = Some lambda_max /\
    (forall v, In v nrm -> v <= lambda_max) /\
    let lambdas :=
      map (fun i => Fin (lambda_max * Rpower 10 (- 3 * INR i / (INR 2 - 1))))
          (seq 0 2) in
    build_lambdas (MkArray2 1 [[1]]) [1] [1] [1%nat] [0%nat] 2 3 (1 / 2)
    = Ret (lambdas, imax) /\
    length lambdas = 2%nat /\
    lambdas !! 0%nat = Some (Fin lambda_max) /\
    (0 < 3 -> 0 < lambda_max -> strictly_decreasing lambdas).
Proof.
  apply (build_lambdas_grid (MkArray2 1 [[1]]) [1] [1] [1%nat] [0%nat] 2 3 (1 / 2)).
  - reflexivity.
  - unfold partitions. simpl. repeat split; lia.
  - reflexivity.
  - discriminate.
  - lra.
  - intros w [<-|[]]. unfold weight. lra.
  - lia.
Defined.

(** C2, as stated, fails: the groups partition the features, yet with a
    target orthogonal to every feature the maximal penalty is [0] and the grid
    is constant. *)
Lemma build_lambdas_grid_counterexample :
  partitions (length (columns (MkArray2 1 [[1]]))) [1%nat] [0%nat] /\
  build_lambdas (MkArray2 1 [[1]]) [0] [1] [1%nat] [0%nat] 2 3 (1 / 2)
  = Ret ([Fin 0; Fin 0], 0%nat) /\
  ~ strictly_decreasing [Fin 0; Fin 0].
Proof.
  split; [unfold partitions; simpl; repeat split; lia|]. split.
  - destruct (build_lambdas_of_norms (MkArray2 1 [[1]]) [0] [1] [1%nat] [0%nat]
                2 3 (1 / 2) [0]) as (imax & m & Him & _ & Hbuild).
    + cbn [length seq mapM map]. unfold group_norm, getitem, dot_cols_T.
      cbn [lookup list_lookup bind length n_rows columns Nat.eqb skipn firstn map].
      rewrite np_div_fin by lra. cbn [np_sub np_neg np_add].
      rewrite epsilon_norm_eq by (try discriminate; lra). cbv zeta.
      assert (EM : Rmax_list (map Rabs [vdot [1] [0]]) = 0).
      { unfold Rmax_list, vdot, Rsum. simpl. Rnum. lra. }
      rewrite EM. rewrite Reqb_true by reflexivity. reflexivity.
    + reflexivity.
    + discriminate.
    + intros w [<-|[]]. unfold weight. lra.
    + lia.
    + rewrite Hbuild. destruct imax as [|imax]; [|discriminate].
      assert (Em : m = 0).
      { cbn [map combine lookup list_lookup fst snd] in Him.
        injection Him as <-. unfold Rdiv. ring. }
      subst m. cbn [seq map]. now rewrite !Rmult_0_l.
  - intros H. specialize (H 0%nat 1%nat (Fin 0) (Fin 0)).
    cbn [np_lt] in H. rewrite Rltb_false in H by lra.
    discriminate H; [lia|reflexivity|reflexivity].
Qed.

(** ** The path driver: steps, loop and calls of the kernel *)

Section PathFacts.

Variable cd_logreg : kernel_args -> buffers -> kernel_out * buffers.
Variables (X : ndarray2) (y : list R) (lambdas : grid).
Variables (tol : R) (norm_X2 : list R) (max_iter f screening : Z).
Variables (gap strong : bool).

Local Abbreviation warm_start :=
  (warm_start cd_logreg X y lambdas tol norm_X2 max_iter f screening
              gap strong).
Local Abbreviation definitive :=
  (definitive cd_logreg X y lambdas tol norm_X2 max_iter f screening).
Local Abbreviation path_step :=
  (path_step cd_logreg X y lambdas tol norm_X2 max_iter f screening
             gap strong).
Local Abbreviation path_loop :=
  (path_loop cd_logreg X y lambdas tol norm_X2 max_iter f screening
             gap strong).



Local Abbreviation warm_buffers := (warm_buffers lambdas strong).
Local Abbreviation warm_decision := (warm_decision X gap).

Lemma warm_buffers_spec t st b :
  warm_buffers t st = Ret b ->
  XTR b = XTR (buf st) /\
  (strong = false -> b = buf st) /\
  (strong = true ->
   exists lam_t lam_prev,
     grid_get lambdas t = Ret lam_t /\
     grid_get lambdas (t - 1) = Ret lam_prev /\
     strong_mask (XTR (buf st)) (strong_threshold lam_t lam_prev)
     = Ret (disabled_features b)).
Proof.
  unfold SaveLogreg.warm_buffers. intros H. destruct strong.
  - do 3 break_bind H. injection H as <-. cbn.
    split; [reflexivity|]. split; [discriminate|]. intros _. eauto.
  - injection H as <-. split; [reflexivity|]. split; [reflexivity|discriminate].
Qed.

Lemma warm_decision_spec t st run :
  warm_decision t st = Ret run ->
  (gap = false -> run = run_active_warm_start st) /\
  (gap = true ->
   exists n, n_active_features st !! t = Some n /\
             run = Z.ltb n (Z.of_nat (n_features X))).
Proof.
  unfold SaveLogreg.warm_decision. intros H. destruct gap.
  - break_bind H. injection H as <-. split; [discriminate|]. intros _.
    unfold getitem in E.
    destruct (n_active_features st !! t) as [n|]; [|discriminate].
    injection E as ->. eauto.
  - injection H as <-. split; [reflexivity|discriminate].
Qed.

(** What a warm start leaves alone, and the call it may add. *)
Lemma warm_start_spec t st st' :
  warm_start t st = Ret st' ->
  betas st' = betas st /\ gaps st' = gaps st /\ n_iters st' = n_iters st /\
  n_active_features st' = n_active_features st /\
  dual_scale st' = dual_scale st /\ warnings st' = warnings st /\
  (gap = false -> run_active_warm_start st' = run_active_warm_start st) /\
  ((calls st' = calls st /\
    (t = 0%nat \/ strong || gap = false \/
     exists run, warm_decision t st = Ret run /\ run = false)) \/
   (exists c b,
       calls st' = calls st ++ [c] /\ t <> 0%nat /\ c_t c = t /\ is_warm c /\
       c_in c = b /\ c_after c = buf st' /\
       grid_get lambdas t = Ret (a_lambda (c_args c)) /\
       warm_buffers t st = Ret b /\ warm_decision t st = Ret true)).
Proof.
  unfold SaveLogreg.warm_start. intros H. cbv zeta in H.
  destruct (strong || gap) eqn:Eact; cbn [andb] in H.
  2:{ injection H as <-. repeat split; try reflexivity. left.
      split; [reflexivity|]. now right; left. }
  destruct (Nat.eqb t 0) eqn:Et; cbn [negb] in H.
  { injection H as <-. apply Nat.eqb_eq in Et. repeat split; try reflexivity.
    left. split; [reflexivity|]. now left. }
  apply Nat.eqb_neq in Et.
  break_bind H. break_bind H. rename a into b, a0 into run.
  destruct (warm_decision_spec _ _ _ E0) as [Hng Hg].
  destruct run.
  - break_bind H.
    destruct (cd_logreg _ _) as [out b'] eqn:Ek.
    injection H as <-. cbn.
    repeat split; try reflexivity; try assumption.
    right. eexists. exists b. split; [reflexivity|]. cbn.
    repeat split; try reflexivity; assumption.
  - injection H as <-. cbn. repeat split; try reflexivity; try assumption.
    left. split; [reflexivity|]. right. right. exists false. now split.
Qed.

Lemma definitive_spec t st st' :
  definitive t st = Ret st' ->
  exists c,
    calls st' = calls st ++ [c] /\ c_t c = t /\ ~ is_warm c /\
    c_in c = buf st /\ c_after c = buf st' /\
    c_ret c = fst (cd_logreg (c_args c) (c_in c)) /\
    grid_get lambdas t = Ret (a_lambda (c_args c)) /\
    run_active_warm_start st' = run_active_warm_start st /\
    betas st' = <[t := beta_init (buf st')]> (betas st) /\
    gaps st' = <[t := o_gap (c_ret c)]> (gaps st) /\
    n_iters st' = <[t := o_n_iter (c_ret c)]> (n_iters st) /\
    n_active_features st' = <[t := o_n_active (c_ret c)]> (n_active_features st).
Proof.
  unfold SaveLogreg.definitive. intros H. break_bind H.
  destruct (cd_logreg _ _) as [out b'] eqn:Ek.
  injection H as <-. cbn. eexists. split; [reflexivity|]. cbn.
  unfold is_warm. cbn. rewrite Ek. cbn.
  repeat split; try reflexivity. discriminate.
Qed.

Lemma path_loop_app l1 l2 st :
  path_loop (l1 ++ l2) st = (do st' <- path_loop l1 st; path_loop l2 st').
Proof.
  revert st. induction l1 as [|t l1 IH]; intros st; [reflexivity|].
  cbn [app SaveLogreg.path_loop].
  destruct (path_step t st); cbn [bind]; [apply IH|reflexivity].
Qed.

Lemma path_step_inv t st st' :
  path_step t st = Ret st' ->
  exists st1, warm_start t st = Ret st1 /\ definitive t st1 = Ret st'.
Proof.
  unfold SaveLogreg.path_step. intros H. break_bind H. eauto.
Qed.

(** A step writes index [t] of the four arrays and nothing else. *)
Lemma path_step_frame t st st' :
  path_step t st = Ret st' ->
  (length (betas st') = length (betas st) /\
   length (gaps st') = length (gaps st) /\
   length (n_iters st') = length (n_iters st) /\
   length (n_active_features st') = length (n_active_features st)) /\
  (forall i, i <> t ->
     betas st' !! i = betas st !! i /\ gaps st' !! i = gaps st !! i /\
     n_iters st' !! i = n_iters st !! i /\
     n_active_features st' !! i = n_active_features st !! i).
Proof.
  intros H. apply path_step_inv in H. destruct H as (st1 & Hw & Hd).
  apply warm_start_spec in Hw. destruct Hw as (Eb & Eg & Ei & Ea & _).
  apply definitive_spec in Hd.
  destruct Hd as (c & _ & _ & _ & _ & _ & _ & _ & _ & Hb & Hg & Hi & Ha).
  rewrite Hb, Hg, Hi, Ha, Eb, Eg, Ei, Ea. split.
  - now rewrite !length_insert.
  - intros i Hne. now rewrite !list_lookup_insert_ne by auto.
Qed.

Lemma path_loop_frame ts :
  forall st st',
    path_loop ts st = Ret st' ->
    (length (betas st') = length (betas st) /\
     length (gaps st') = length (gaps st) /\
     length (n_iters st') = length (n_iters st) /\
     length (n_active_features st') = length (n_active_features st)) /\
    (forall i, ~ In i ts ->
       betas st' !! i = betas st !! i /\ gaps st' !! i = gaps st !! i /\
       n_iters st' !! i = n_iters st !! i /\
       n_active_features st' !! i = n_active_features st !! i).
Proof.
  induction ts as [|t ts IH]; intros st st' H.
  - injection H as <-. now repeat split.
  - cbn [SaveLogreg.path_loop] in H. break_bind H.
    destruct (path_step_frame _ _ _ E) as [(L1 & L2 & L3 & L4) Hf].
    destruct (IH _ _ H) as [(M1 & M2 & M3 & M4) Hf'].
    split; [repeat split; congruence|].
    intros i Hi.
    destruct (Hf' i) as (A1 & A2 & A3 & A4); [intros Hin; apply Hi; now right|].
    destruct (Hf i) as (B1 & B2 & B3 & B4); [intros ->; apply Hi; now left|].
    repeat split; congruence.
Qed.

(** What a step records at index [t]. *)
Lemma path_step_records t st st' :
  path_step t st = Ret st' ->
  (t < length (betas st))%nat -> (t < length (gaps st))%nat ->
  (t < length (n_iters st))%nat -> (t < length (n_active_features st))%nat ->
  betas st' !! t = Some (beta_init (buf st')) /\
  exists d, last (calls st') = Some d /\ c_t d = t /\ ~ is_warm d /\
            c_after d = buf st' /\
            c_ret d = fst (cd_logreg (c_args d) (c_in d)) /\
            gaps st' !! t = Some (o_gap (c_ret d)) /\
            n_iters st' !! t = Some (o_n_iter (c_ret d)) /\
            n_active_features st' !! t = Some (o_n_active (c_ret d)).
Proof.
  intros H L1 L2 L3 L4. apply path_step_inv in H. destruct H as (st1 & Hw & Hd).
  apply warm_start_spec in Hw. destruct Hw as (Eb & Eg & Ei & Ea & _).
  apply definitive_spec in Hd.
  destruct Hd as (c & Hc & Ht & Hnw & _ & Haft & Hret & _ & _ & Hb & Hg & Hi & Ha).
  rewrite Hb, Hg, Hi, Ha, Eb, Eg, Ei, Ea. split.
  - now apply list_lookup_insert_eq.
  - exists c. rewrite Hc, last_snoc.
    repeat split; try assumption; now apply list_lookup_insert_eq.
Qed.

Lemma grid_get_lt g t :
  (t < grid_len g)%nat -> exists v, grid_get g t = Ret v.
Proof.
  destruct g as [l|rows]; simpl; intros H; unfold getitem.
  - destruct (lookup_lt_is_Some_2 l t H) as [v ->]. cbn. eauto.
  - destruct (lookup_lt_is_Some_2 rows t H) as [v ->]. cbn. eauto.
Qed.

Lemma grid_get_scalar g t :
  grid_ok g -> t <> 0%nat -> (t < grid_len g)%nat ->
  exists a b, grid_get g t = Ret (Scalar a) /\ grid_get g (t - 1) = Ret (Scalar b).
Proof.
  destruct g as [l|rows]; simpl; intros Hok Ht H; [|lia].
  unfold getitem.
  destruct (lookup_lt_is_Some_2 l t H) as [a ->].
  destruct (lookup_lt_is_Some_2 l (t - 1)) as [b ->]; [lia|]. cbn. eauto.
Qed.

Lemma path_step_total t st :
  grid_ok lambdas -> (t < grid_len lambdas)%nat ->
  (t < length (n_active_features st))%nat ->
  exists st', path_step t st = Ret st'.
Proof.
  intros Hok Ht Hlen.
  destruct (grid_get_lt lambdas t Ht) as [lam Hlam].
  assert (Hw : exists st1, warm_start t st = Ret st1).
  { unfold SaveLogreg.warm_start. cbv zeta.
    destruct (strong || gap); cbn [andb]; [|eauto].
    destruct (Nat.eqb t 0) eqn:Et; cbn [negb]; [eauto|].
    apply Nat.eqb_neq in Et.
    assert (Hb : exists b, warm_buffers t st = Ret b).
    { unfold SaveLogreg.warm_buffers. destruct strong; [|eauto].
      destruct (grid_get_scalar lambdas t Hok Et Ht) as (a & b & -> & ->).
      cbn. eauto. }
    destruct Hb as [b ->]. cbn [bind].
    assert (Hr : exists run, warm_decision t st = Ret run).
    { unfold SaveLogreg.warm_decision. destruct gap; [|eauto].
      unfold getitem.
      destruct (lookup_lt_is_Some_2 (n_active_features st) t Hlen) as [n ->].
      cbn. eauto. }
    destruct Hr as [run ->]. cbn [bind].
    destruct run; [|eauto]. rewrite Hlam. cbn [bind].
    destruct (cd_logreg _ _). eauto. }
  destruct Hw as [st1 Hw]. unfold SaveLogreg.path_step. rewrite Hw. cbn [bind].
  unfold SaveLogreg.definitive. rewrite Hlam. cbn [bind].
  destruct (cd_logreg _ _). eauto.
Qed.

Lemma path_loop_total ts :
  forall st,
    grid_ok lambdas -> (forall t, In t ts -> (t < grid_len lambdas)%nat) ->
    (grid_len lambdas <= length (n_active_features st))%nat ->
    exists st', path_loop ts st = Ret st'.
Proof.
  induction ts as [|t ts IH]; intros st Hok Hts Hlen; [cbn; eauto|].
  destruct (path_step_total t st) as [st1 H1]; [assumption|apply Hts; now left|
    specialize (Hts t (or_introl eq_refl)); lia|].
  cbn [SaveLogreg.path_loop]. rewrite H1. cbn [bind].
  apply IH; [assumption|intros; apply Hts; now right|].
  destruct (path_step_frame _ _ _ H1) as [(_ & _ & _ & L) _]. lia.
Qed.

(** The calls that a step makes. *)
Lemma path_step_calls t st st' :
  path_step t st = Ret st' ->
  exists st1 d,
    warm_start t st = Ret st1 /\
    calls st' = calls st1 ++ [d] /\ c_t d = t /\ ~ is_warm d /\
    c_in d = buf st1 /\ c_after d = buf st'.
Proof.
  intros H. apply path_step_inv in H. destruct H as (st1 & Hw & Hd).
  apply definitive_spec in Hd.
  destruct Hd as (d & Hc & Ht & Hnw & Hin & Haft & _).
  exists st1, d. now repeat split.
Qed.

(** Strong strategy: every warm-start call carries the recomputed mask. *)
Lemma path_loop_calls_strong ts :
  forall st st',
    strong = true -> path_loop ts st = Ret st' ->
    exists new,
      calls st' = calls st ++ new /\
      forall c, In c new -> is_warm c -> strong_call_ok lambdas c.
Proof.
  induction ts as [|t ts IH]; intros st st' Hs H.
  - injection H as <-. exists []. split; [now rewrite app_nil_r|]. intros c [].
  - cbn [SaveLogreg.path_loop] in H. break_bind H. rename a into st2.
    destruct (IH _ _ Hs H) as (new2 & Hnew2 & Hok2).
    destruct (path_step_calls _ _ _ E) as (st1 & d & Hw & Hc & _ & Hnw & _).
    destruct (warm_start_spec _ _ _ Hw) as (_ & _ & _ & _ & _ & _ & _ & Hcalls).
    destruct Hcalls as [[Hsame _]|(c & b & Hadd & Ht0 & Htc & Hwc & Hinc & _ & _ & Hbuf & _)].
    + exists (d :: new2). split.
      { rewrite Hnew2, Hc, Hsame, <- app_assoc. reflexivity. }
      intros c [<-|Hin] Hwarm; [contradiction|]. now apply Hok2.
    + exists (c :: d :: new2). split.
      { rewrite Hnew2, Hc, Hadd, <- !app_assoc. reflexivity. }
      intros c' [<-|[<-|Hin]] Hwarm; [|contradiction|now apply Hok2].
      destruct (warm_buffers_spec _ _ _ Hbuf) as (HX & _ & Hmask).
      destruct (Hmask Hs) as (lam_t & lam_prev & G1 & G2 & G3).
      unfold strong_call_ok. rewrite Htc, Hinc, HX. split; [assumption|].
      exists lam_t, lam_prev. now repeat split.
Qed.

(** Gap strategy: whether the warm start runs at [t] is decided by the entry
    [n_active_features[t]], which no step has written yet. *)
Lemma path_step_calls_gap t st st' :
  gap = true -> path_step t st = Ret st' ->
  n_active_features st !! t = Some 0%Z ->
  exists new,
    calls st' = calls st ++ new /\
    (forall c, In c new -> c_t c = t) /\
    (warm_call_at new t <-> t <> 0%nat /\ (0 < n_features X)%nat).
Proof.
  intros Hg H Hna.
  destruct (path_step_calls _ _ _ H) as (st1 & d & Hw & Hc & Htd & Hnw & _).
  destruct (warm_start_spec _ _ _ Hw) as (_ & _ & _ & _ & _ & _ & _ & Hcalls).
  destruct Hcalls as [[Hsame Hwhy]|(c & b & Hadd & Ht0 & Htc & Hwc & _ & _ & _ & _ & Hdec)].
  - exists [d]. split; [now rewrite Hc, Hsame|]. split.
    { intros c [<-|[]]. assumption. }
    split.
    + intros (c & [<-|[]] & _ & Hwarm). contradiction.
    + intros [Ht0 Hp]. exfalso.
      destruct Hwhy as [?|[Hact|(run & Hdec & ->)]]; [contradiction| |].
      * rewrite Hg, orb_true_r in Hact. discriminate.
      * destruct (warm_decision_spec _ _ _ Hdec) as [_ Hd].
        destruct (Hd Hg) as (n & Hn & Hrun). rewrite Hna in Hn.
        injection Hn as <-.
        symmetry in Hrun. apply Z.ltb_ge in Hrun. lia.
  - exists [c; d]. split; [now rewrite Hc, Hadd, <- app_assoc|]. split.
    { intros c' [<-|[<-|[]]]; assumption. }
    split.
    + intros _. split; [assumption|].
      destruct (warm_decision_spec _ _ _ Hdec) as [_ Hd].
      destruct (Hd Hg) as (n & Hn & Hrun). rewrite Hna in Hn.
      injection Hn as <-.
      symmetry in Hrun. apply Z.ltb_lt in Hrun. lia.
    + intros _. exists c. split; [now left|]. now split.
Qed.

Lemma path_loop_calls_gap k :
  forall a st st',
    gap = true -> path_loop (seq a k) st = Ret st' ->
    (forall i, (a <= i < a + k)%nat -> n_active_features st !! i = Some 0%Z) ->
    exists new,
      calls st' = calls st ++ new /\
      (forall c, In c new -> (a <= c_t c < a + k)%nat) /\
      (forall t, (a <= t < a + k)%nat ->
                 (warm_call_at new t <-> t <> 0%nat /\ (0 < n_features X)%nat)).
Proof.
  induction k as [|k IH]; intros a st st' Hg H Hna.
  - injection H as <-. exists []. split; [now rewrite app_nil_r|].
    split; [intros c []|]. intros t Ht. lia.
  - cbn [seq SaveLogreg.path_loop] in H. break_bind H. rename a0 into st2.
    destruct (path_step_calls_gap _ _ _ Hg E) as (new1 & Hc1 & Ht1 & Hw1);
      [apply Hna; lia|].
    destruct (path_step_frame _ _ _ E) as [_ Hframe].
    destruct (IH (S a) st2 st' Hg H) as (new2 & Hc2 & Ht2 & Hw2).
    { intros i Hi. destruct (Hframe i) as (_ & _ & _ & ->); [lia|]. apply Hna.
      lia. }
    exists (new1 ++ new2). split; [now rewrite Hc2, Hc1, <- app_assoc|]. split.
    { intros c Hc. apply in_app_or in Hc. destruct Hc as [Hc|Hc].
      - rewrite (Ht1 c Hc). lia.
      - specialize (Ht2 c Hc). lia. }
    intros t Ht. destruct (Nat.eq_dec t a) as [->|Hne].
    + rewrite <- Hw1. unfold warm_call_at. split.
      * intros (c & Hc & Htc & Hwarm). exists c. split; [|now split].
        apply in_app_or in Hc. destruct Hc as [Hc|Hc]; [assumption|].
        specialize (Ht2 c Hc). lia.
      * intros (c & Hc & Htc & Hwarm). exists c. split; [|now split].
        apply in_or_app. now left.
    + rewrite <- (Hw2 t) by lia. unfold warm_call_at. split.
      * intros (c & Hc & Htc & Hwarm). exists c. split; [|now split].
        apply in_app_or in Hc. destruct Hc as [Hc|Hc]; [|assumption].
        specialize (Ht1 c Hc). lia.
      * intros (c & Hc & Htc & Hwarm). exists c. split; [|now split].
        apply in_or_app. now right.
Qed.

Lemma chain_ok_app prev l1 l2 :
  chain_ok prev (l1 ++ l2) <->
  chain_ok prev l1 /\
  chain_ok (match last l1 with Some d => Some d | None => prev end) l2.
Proof.
  revert prev. induction l1 as [|c l1 IH]; intros prev; cbn [app chain_ok].
  - cbn. tauto.
  - rewrite IH, last_cons. destruct (last l1); tauto.
Qed.

(** Without the strong strategy, a warm-start call receives the buffers, and
    so the mask, that the previous definitive call left. *)
Lemma path_step_chain t st st' :
  strong = false -> path_step t st = Ret st' ->
  chain_ok None (calls st) -> tail_ok t st ->
  chain_ok None (calls st') /\ tail_ok (S t) st'.
Proof.
  intros Hs H Hchain Htail.
  destruct (path_step_calls _ _ _ H) as (st1 & d & Hw & Hc & Htd & Hnw & Hin & Haft).
  destruct (warm_start_spec _ _ _ Hw) as (_ & _ & _ & _ & _ & _ & _ & Hcalls).
  assert (Htail' : tail_ok (S t) st').
  { unfold tail_ok. rewrite Hc, last_snoc. now repeat split; try congruence. }
  split; [|assumption].
  destruct Hcalls as [[Hsame _]|(c & b & Hadd & Ht0 & Htc & Hwc & Hinc & _ & _ & Hbuf & _)].
  - rewrite Hc, Hsame. apply chain_ok_app. split; [assumption|].
    cbn. split; [|exact I]. intros Hwarm. contradiction.
  - rewrite Hc, Hadd, <- app_assoc. apply chain_ok_app. split; [assumption|].
    cbn [app chain_ok]. split; [|split; [intros; contradiction|exact I]].
    intros _. unfold tail_ok in Htail.
    destruct (last (calls st)) as [d0|]; [|contradiction].
    destruct Htail as (Hnw0 & Ht & Haft0).
    destruct (warm_buffers_spec _ _ _ Hbuf) as (_ & Hsame & _).
    rewrite Hinc, (Hsame Hs), Haft0, Htc. now repeat split.
Qed.

Lemma path_loop_chain k :
  forall a st st',
    strong = false -> path_loop (seq a k) st = Ret st' ->
    chain_ok None (calls st) -> tail_ok a st ->
    chain_ok None (calls st') /\ tail_ok (a + k) st'.
Proof.
  induction k as [|k IH]; intros a st st' Hs H Hchain Htail.
  - injection H as <-. rewrite Nat.add_0_r. now split.
  - cbn [seq SaveLogreg.path_loop] in H. break_bind H. rename a0 into st2.
    destruct (path_step_chain _ _ _ Hs E Hchain Htail) as [Hchain2 Htail2].
    replace (a + S k)%nat with (S a + k)%nat by lia.
    now apply (IH (S a) st2 st').
Qed.

End PathFacts.

Lemma as_grid_ok lambdas : grid_ok (as_grid lambdas).
Proof. destruct lambdas; simpl; auto. Qed.

Lemma length_zeros n : length (zeros n) = n.
Proof. apply repeat_length. Qed.

Lemma mat_vec_length X beta v :
  wf_array2 X -> mat_vec X beta = Ret v -> length v = n_rows X.
Proof.
  unfold wf_array2, mat_vec. intros Hwf H.
  destruct (Nat.eqb _ _); [|discriminate]. injection H as <-.
  generalize beta. induction Hwf as [|c cols Hc Hwf IH]; intros [|b bs]; cbn;
    try apply length_zeros.
  rewrite length_map, length_combine, IH, Hc. apply Nat.min_id.
Qed.

(** The state in which the loop starts. *)
Lemma initial_state_ret X y g b :
  wf_array2 X -> length y = n_rows X ->
  match b with None => True | Some b => length b = length (columns X) end ->
  grid_len g <> 0%nat ->
  exists st0,
    initial_state X y g b = Ret st0 /\
    calls st0 = [] /\ run_active_warm_start st0 = true /\
    betas st0 = repeat (zeros (length (columns X))) (grid_len g) /\
    gaps st0 = repeat 1 (grid_len g) /\
    n_iters st0 = repeat 0%Z (grid_len g) /\
    n_active_features st0 = repeat 0%Z (grid_len g) /\
    disabled_features (buf st0) = repeat 0%Z (length (columns X)).
Proof.
  intros Hwf Hy Hb Hg.
  destruct (grid_get_lt g 0%nat) as [lam0 Hlam]; [lia|].
  unfold initial_state. destruct b as [b|].
  - destruct (mat_vec X b) as [Xbeta|] eqn:EX.
    2:{ unfold mat_vec in EX. rewrite (proj2 (Nat.eqb_eq _ _) Hb) in EX.
        discriminate. }
    pose proof (mat_vec_length _ _ _ Hwf EX) as HL.
    cbn [bind]. rewrite (proj2 (Nat.eqb_eq _ _) Hy). cbn [negb]. rewrite Hlam.
    cbn [bind].
    unfold matT_vec, dot_cols_T. rewrite length_map, length_combine, length_map.
    rewrite HL, Hy, Nat.min_id, Nat.eqb_refl.
    cbn [bind]. eexists. split; [reflexivity|]. cbn. now repeat split.
  - cbn [bind]. unfold matT_vec, dot_cols_T. rewrite length_map.
    rewrite (proj2 (Nat.eqb_eq _ _) Hy). cbn [bind]. rewrite Hlam. cbn [bind].
    eexists. split; [reflexivity|]. cbn. now repeat split.
Qed.

Lemma tolerance_ret eps n y : n <> 0%nat -> exists tol, tolerance eps n y = Ret tol.
Proof.
  intros H. unfold tolerance. rewrite (proj2 (Nat.eqb_neq _ _) H). eauto.
Qed.

Section Prefix.

Variable cd_logreg : kernel_args -> buffers -> kernel_out * buffers.
Variables (X : ndarray2) (y : list R) (lambdas : lambdas_arg) (eps : R).
Variables (max_iter f : Z) (beta0 : option (list R)) (screening : Z).
Variables (gap strong : bool).

Local Abbreviation prefix :=
  (logreg_path_prefix cd_logreg X y lambdas eps max_iter f beta0 screening
                      gap strong).

Lemma logreg_path_run_prefix :
  logreg_path_run cd_logreg X y lambdas eps max_iter f beta0 screening
                  gap strong
  = prefix (grid_len (as_grid lambdas)).
Proof. reflexivity. Qed.

(** A run of [k] penalties taken apart: the tolerance, the initial state and
    the loop. *)
Lemma prefix_inv k st :
  prefix k = Ret st ->
  exists tol st0,
    tolerance eps (n_rows X) y = Ret tol /\
    initial_state X y (as_grid lambdas) beta0 = Ret st0 /\
    path_loop cd_logreg X y (as_grid lambdas) tol (map Rsumsq (columns X))
      max_iter f screening gap strong (seq 0 k) st0 = Ret st.
Proof.
  unfold logreg_path_prefix. intros H. cbv zeta in H.
  do 2 break_bind H. eauto.
Qed.

Lemma prefix_total k :
  well_formed X y lambdas beta0 ->
  (k <= grid_len (as_grid lambdas))%nat ->
  exists st, prefix k = Ret st.
Proof.
  intros (Hwf & Hn & Hy & Hb & Hg) Hk.
  destruct (tolerance_ret eps (n_rows X) y Hn) as [tol Htol].
  destruct (initial_state_ret X y (as_grid lambdas) beta0 Hwf Hy Hb Hg)
    as (st0 & Hinit & _ & _ & _ & _ & _ & Hna & _).
  destruct (path_loop_total cd_logreg X y (as_grid lambdas) tol
              (map Rsumsq (columns X)) max_iter f screening gap strong
              (seq 0 k) st0) as [st Hst].
  - apply as_grid_ok.
  - intros t Ht. apply in_seq in Ht. lia.
  - rewrite Hna, repeat_length. lia.
  - exists st. unfold logreg_path_prefix. cbv zeta.
    rewrite Htol. cbn [bind]. rewrite Hinit. cbn [bind]. exact Hst.
Qed.

(** A longer run continues a shorter one. *)
Lemma prefix_extend j k st_k :
  (j <= k)%nat -> prefix k = Ret st_k ->
  exists tol st_j,
    tolerance eps (n_rows X) y = Ret tol /\
    prefix j = Ret st_j /\
    path_loop cd_logreg X y (as_grid lambdas) tol (map Rsumsq (columns X))
      max_iter f screening gap strong (seq j (k - j)) st_j = Ret st_k.
Proof.
  intros Hjk H. apply prefix_inv in H.
  destruct H as (tol & st0 & Htol & Hinit & Hloop).
  replace k with (j + (k - j))%nat in Hloop by lia.
  rewrite seq_app, path_loop_app in Hloop. break_bind Hloop.
  exists tol, a. split; [assumption|]. split; [|exact Hloop].
  unfold logreg_path_prefix. cbv zeta. rewrite Htol. cbn [bind].
  rewrite Hinit. cbn [bind]. exact E.
Qed.

End Prefix.

Lemma lookup_repeat {A : Type} (x : A) n i :
  (i < n)%nat -> repeat x n !! i = Some x.
Proof.
  revert i. induction n as [|n IH]; intros [|i] H; try lia; [reflexivity|].
  simpl. apply IH. lia.
Qed.

Lemma path_loop_single cd X y g tol nX mi f sc gap strong t st :
  path_loop cd X y g tol nX mi f sc gap strong [t] st
  = path_step cd X y g tol nX mi f sc gap strong t st.
Proof.
  cbn [path_loop]. destruct (path_step _ _ _ _ _ _ _ _ _ _ _ _ _); reflexivity.
Qed.

Lemma chain_ok_adjacent cs :
  forall prev, chain_ok prev cs ->
  forall i d w,
    cs !! i = Some d -> cs !! S i = Some w -> is_warm w ->
    ~ is_warm d /\ c_t w = S (c_t d) /\
    disabled_features (c_in w) = disabled_features (c_after d).
Proof.
  induction cs as [|c cs IH]; intros prev H i d w Hd Hw Hwarm; [discriminate|].
  destruct H as [_ H]. destruct i as [|i].
  - injection Hd as <-. destruct cs as [|w' cs]; [discriminate|].
    injection Hw as <-. destruct H as [H _]. exact (H Hwarm).
  - exact (IH _ H i d w Hd Hw Hwarm).
Qed.

Lemma chain_ok_first w cs : chain_ok None (w :: cs) -> ~ is_warm w.
Proof. intros [H _] Hwarm. exact (H Hwarm). Qed.

(** ** The path driver: whole runs *)

Section PrefixFacts.

Variable cd_logreg : kernel_args -> buffers -> kernel_out * buffers.
Variables (X : ndarray2) (y : list R) (lambdas : lambdas_arg) (eps : R).
Variables (max_iter f : Z) (beta0 : option (list R)) (screening : Z).
Variables (gap strong : bool).

Local Abbreviation prefix :=
  (logreg_path_prefix cd_logreg X y lambdas eps max_iter f beta0 screening
                      gap strong).
Local Abbreviation n_lambdas := (grid_len (as_grid lambdas)).

(** A run that returned started from the initial state of the source. *)
Lemma prefix_start k st :
  well_formed X y lambdas beta0 -> prefix k = Ret st ->
  exists tol st0,
    path_loop cd_logreg X y (as_grid lambdas) tol (map Rsumsq (columns X))
      max_iter f screening gap strong (seq 0 k) st0 = Ret st /\
    calls st0 = [] /\ run_active_warm_start st0 = true /\
    length (betas st0) = n_lambdas /\ length (gaps st0) = n_lambdas /\
    length (n_iters st0) = n_lambdas /\
    n_active_features st0 = repeat 0%Z n_lambdas.
Proof.
  intros (Hwf & Hn & Hy & Hb & Hg) H.
  destruct (prefix_inv _ _ _ _ _ _ _ _ _ _ _ _ _ H) as (tol & st0 & _ & Hinit & Hloop).
  destruct (initial_state_ret X y (as_grid lambdas) beta0 Hwf Hy Hb Hg)
    as (st0' & Hinit' & Hc & Hr & Hbe & Hga & Hni & Hna & _).
  rewrite Hinit in Hinit'. injection Hinit' as <-.
  exists tol, st0. rewrite Hbe, Hga, Hni, !repeat_length. now repeat split.
Qed.

Lemma prefix_lengths k st :
  well_formed X y lambdas beta0 -> prefix k = Ret st ->
  (length (betas st) = n_lambdas /\ length (gaps st) = n_lambdas /\
   length (n_iters st) = n_lambdas /\
   length (n_active_features st) = n_lambdas) /\
  (k <= n_lambdas)%nat.
Proof.
  intros Hwf H.
  destruct (prefix_start k st Hwf H) as (tol & st0 & Hloop & _ & _ & L1 & L2 & L3 & L4).
  destruct (path_loop_frame _ _ _ _ _ _ _ _ _ _ _ _ _ _ Hloop) as [(M1 & M2 & M3 & M4) _].
  split; [rewrite M1, M2, M3, M4, L1, L2, L3, L4, repeat_length; now repeat split|].
  (* the loop cannot run past the grid *)
  destruct (Nat.le_gt_cases k n_lambdas) as [|Hgt]; [assumption|exfalso].
  replace k with (n_lambdas + (k - n_lambdas))%nat in Hloop by lia.
  rewrite seq_app, path_loop_app in Hloop. break_bind Hloop.
  destruct (k - n_lambdas)%nat as [|m] eqn:Em; [lia|].
  cbn [seq path_loop] in Hloop. break_bind Hloop.
  apply path_step_inv in E0. destruct E0 as (st1 & _ & Hd).
  apply definitive_spec in Hd.
  destruct Hd as (c & _ & _ & _ & _ & _ & _ & Hget & _).
  simpl in Hget. destruct (as_grid lambdas) as [l|rows]; simpl in Hget;
    unfold getitem in Hget.
  - rewrite (lookup_ge_None_2 l) in Hget by (simpl; lia). discriminate.
  - rewrite (lookup_ge_None_2 rows) in Hget by (simpl; lia). discriminate.
Qed.

(** After the step at index [t], the entries at [t] are those of that step. *)
Lemma prefix_records t st :
  well_formed X y lambdas beta0 -> prefix (S t) = Ret st ->
  betas st !! t = Some (beta_init (buf st)) /\
  exists d, last (calls st) = Some d /\ c_t d = t /\ ~ is_warm d /\
            c_after d = buf st /\
            c_ret d = fst (cd_logreg (c_args d) (c_in d)) /\
            gaps st !! t = Some (o_gap (c_ret d)) /\
            n_iters st !! t = Some (o_n_iter (c_ret d)) /\
            n_active_features st !! t = Some (o_n_active (c_ret d)).
Proof.
  intros Hwf H.
  destruct (prefix_lengths _ _ Hwf H) as [_ Hk].
  destruct (prefix_extend _ _ _ _ _ _ _ _ _ _ _ t (S t) st (Nat.le_succ_diag_r t) H)
    as (tol & st_t & _ & Ht & Hloop).
  replace (S t - t)%nat with 1%nat in Hloop by lia.
  cbn [seq] in Hloop. rewrite path_loop_single in Hloop.
  destruct (prefix_lengths _ _ Hwf Ht) as [(L1 & L2 & L3 & L4) _].
  apply (path_step_records _ _ _ _ _ _ _ _ _ _ _ _ _ _ Hloop); lia.
Qed.

(** Later steps leave the entries of earlier indices alone. *)
Lemma prefix_frame j k st_j st_k :
  (j <= k)%nat -> prefix j = Ret st_j -> prefix k = Ret st_k ->
  forall i, (i < j)%nat ->
    betas st_k !! i = betas st_j !! i /\ gaps st_k !! i = gaps st_j !! i /\
    n_iters st_k !! i = n_iters st_j !! i /\
    n_active_features st_k !! i = n_active_features st_j !! i.
Proof.
  intros Hjk Hj Hk i Hi.
  destruct (prefix_extend _ _ _ _ _ _ _ _ _ _ _ j k st_k Hjk Hk)
    as (tol & st_j' & _ & Hj' & Hloop).
  rewrite Hj in Hj'. injection Hj' as <-.
  destruct (path_loop_frame _ _ _ _ _ _ _ _ _ _ _ _ _ _ Hloop) as [_ Hf].
  apply Hf. rewrite in_seq. lia.
Qed.

(** Gap strategy: the warm start runs at every index but the first as soon
    as there is a feature, whatever the earlier solves reported. *)
Lemma gap_warm_calls st :
  well_formed X y lambdas beta0 -> gap = true ->
  prefix n_lambdas = Ret st ->
  forall t, (t < n_lambdas)%nat ->
    (warm_call_at (calls st) t <-> t <> 0%nat /\ (0 < n_features X)%nat).
Proof.
  intros Hwf Hg H t Ht.
  destruct (prefix_start _ _ Hwf H) as (tol & st0 & Hloop & Hc & _ & _ & _ & _ & Hna).
  destruct (path_loop_calls_gap _ _ _ _ _ _ _ _ _ _ _ _ _ _ _ Hg Hloop)
    as (new & Hnew & _ & Hw).
  - intros i Hi. rewrite Hna. apply lookup_repeat. lia.
  - rewrite Hnew, Hc. cbn [app]. apply Hw. lia.
Qed.

(** Strong strategy: the mask of every warm-start call is recomputed. *)
Lemma strong_warm_calls st :
  well_formed X y lambdas beta0 -> strong = true ->
  prefix n_lambdas = Ret st ->
  forall c, In c (calls st) -> is_warm c -> strong_call_ok (as_grid lambdas) c.
Proof.
  intros Hwf Hs H c Hc Hwarm.
  destruct (prefix_start _ _ Hwf H) as (tol & st0 & Hloop & Hc0 & _).
  destruct (path_loop_calls_strong _ _ _ _ _ _ _ _ _ _ _ _ _ _ Hs Hloop)
    as (new & Hnew & Hok).
  rewrite Hnew, Hc0 in Hc. now apply Hok.
Qed.

(** Without the strong strategy the calls form a chain. *)
Lemma gap_chain st :
  well_formed X y lambdas beta0 -> strong = false ->
  prefix n_lambdas = Ret st -> chain_ok None (calls st).
Proof.
  intros Hwf Hs H.
  destruct (prefix_start _ _ Hwf H) as (tol & st0 & Hloop & Hc0 & _).
  destruct (path_loop_chain _ _ _ _ _ _ _ _ _ _ _ _ _ _ _ Hs Hloop) as [Hchain _].
  - rewrite Hc0. exact I.
  - unfold tail_ok. now rewrite Hc0.
  - exact Hchain.
Qed.

End PrefixFacts.

Section StrongOnly.

Variable cd_logreg : kernel_args -> buffers -> kernel_out * buffers.
Variables (X : ndarray2) (y : list R) (lambdas : grid).
Variables (tol : R) (norm_X2 : list R) (max_iter f screening : Z).

Local Abbreviation step :=
  (path_step cd_logreg X y lambdas tol norm_X2 max_iter f screening false true).
Local Abbreviation loop :=
  (path_loop cd_logreg X y lambdas tol norm_X2 max_iter f screening false true).

(** With the strong strategy alone the warm start runs at every index but
    the first. *)
Lemma path_step_calls_always t st st' :
  run_active_warm_start st = true -> step t st = Ret st' ->
  run_active_warm_start st' = true /\
  (forall c, In c (calls st) -> In c (calls st')) /\
  (t <> 0%nat -> warm_call_at (calls st') t).
Proof.
  intros Hrun H.
  destruct (path_step_calls _ _ _ _ _ _ _ _ _ _ _ _ _ _ H)
    as (st1 & d & Hw & Hc & _).
  pose proof (path_step_inv _ _ _ _ _ _ _ _ _ _ _ _ _ _ H) as (st1' & Hw' & Hd).
  rewrite Hw in Hw'. injection Hw' as <-.
  apply definitive_spec in Hd.
  destruct Hd as (_ & _ & _ & _ & _ & _ & _ & _ & Hrun' & _).
  destruct (warm_start_spec _ _ _ _ _ _ _ _ _ _ _ _ _ _ Hw)
    as (_ & _ & _ & _ & _ & _ & Hkeep & Hcalls).
  split; [rewrite Hrun', (Hkeep eq_refl); assumption|].
  destruct Hcalls as [[Hsame Hwhy]|(c & b & Hadd & Ht0 & Htc & Hwc & _)].
  - split.
    { intros c Hin. rewrite Hc, Hsame. apply in_or_app. now left. }
    intros Ht0. exfalso.
    destruct Hwhy as [?|[Hact|(run & Hdec & ->)]]; [contradiction|now cbn in Hact|].
    destruct (warm_decision_spec _ _ _ _ _ Hdec) as [Hd _].
    pose proof (Hd eq_refl) as Hf. rewrite Hrun in Hf. discriminate Hf.
  - split.
    { intros c' Hin. rewrite Hc, Hadd. apply in_or_app. left. apply in_or_app.
      now left. }
    intros _. exists c. split; [|now split].
    rewrite Hc, Hadd. apply in_or_app. left. apply in_or_app. right. now left.
Qed.

Lemma path_loop_calls_always k :
  forall a st st',
    run_active_warm_start st = true -> loop (seq a k) st = Ret st' ->
    (forall c, In c (calls st) -> In c (calls st')) /\
    forall t, (a <= t < a + k)%nat -> t <> 0%nat -> warm_call_at (calls st') t.
Proof.
  induction k as [|k IH]; intros a st st' Hrun H.
  - injection H as <-. split; [auto|]. intros t Ht. lia.
  - cbn [seq path_loop] in H. break_bind H. rename a0 into st2.
    destruct (path_step_calls_always _ _ _ Hrun E) as (Hrun2 & Hmono & Hcall).
    destruct (IH (S a) st2 st' Hrun2 H) as [Hmono2 Hcalls2].
    split; [auto|]. intros t Ht Ht0.
    destruct (Nat.eq_dec t a) as [->|Hne].
    + destruct (Hcall Ht0) as (c & Hin & Htc & Hwarm).
      exists c. split; [auto|now split].
    + apply Hcalls2; [lia|assumption].
Qed.

End StrongOnly.

(** ** The path driver: the claims *)

Lemma strong_call_ok_mask lambdas c :
  strong_call_ok (as_grid lambdas) c ->
  c_t c <> 0%nat /\
  exists l lam_t lam_prev,
    lambdas = NdArray l /\
    l !! c_t c = Some lam_t /\ l !! (c_t c - 1)%nat = Some lam_prev /\
    disabled_features (c_in c)
    = map (fun g => lt_intc (Rabs g) (2 * lam_t - lam_prev)) (XTR (c_in c)).
Proof.
  intros (Ht0 & lam_t & lam_prev & G1 & G2 & G3). split; [assumption|].
  destruct lambdas as [l|v|l]; simpl in G1, G2; unfold getitem in G1, G2.
  - destruct (l !! c_t c) as [a|] eqn:E1; [|discriminate].
    destruct (l !! (c_t c - 1)%nat) as [b|] eqn:E2; [|discriminate].
    injection G1 as <-. injection G2 as <-. simpl in G3. injection G3 as G3.
    exists l, a, b. now repeat split.
  - destruct (c_t c) as [|[|t]]; [contradiction|discriminate|discriminate].
  - destruct (c_t c) as [|[|t]]; [contradiction|discriminate|discriminate].
Qed.

Lemma lt_intc_1 a b : lt_intc a b = 1%Z <-> a < b.
Proof.
  unfold lt_intc, Rltb. destruct (Rlt_dec a b); split; intros; try easy; lra.
Qed.

Lemma lt_intc_0 a b : lt_intc a b = 0%Z <-> ~ a < b.
Proof.
  unfold lt_intc, Rltb. destruct (Rlt_dec a b); split; intros; try easy; tauto.
Qed.

Section Claims.

Variable cd_logreg : kernel_args -> buffers -> kernel_out * buffers.
Variables (X : ndarray2) (y : list R) (lambdas : lambdas_arg) (eps : R).
Variables (max_iter f : Z) (beta0 : option (list R)) (screening : Z).

Local Abbreviation n_lambdas := (grid_len (as_grid lambdas)).

(** C7: with the strong warm-start flag, at every penalty index [t] other
    than the first, the mask given to the warm-start solve marks feature [j]
    disabled exactly when [|XTR_j| < 2 lambda_t - lambda_(t-1)] for the
    gradient [XTR] of that moment; without the gap flag that solve is run at
    every such index. *)
Theorem strong_warm_start_mask (gap : bool) :
  well_formed X y lambdas beta0 ->
  exists st,
    logreg_path_run cd_logreg X y lambdas eps max_iter f beta0 screening
                    gap true = Ret st /\
    (forall c, In c (calls st) -> is_warm c ->
       c_t c <> 0%nat /\
       exists l lam_t lam_prev,
         lambdas = NdArray l /\
         l !! c_t c = Some lam_t /\ l !! (c_t c - 1)%nat = Some lam_prev /\
         length (disabled_features (c_in c)) = length (XTR (c_in c)) /\
         forall j g, XTR (c_in c) !! j = Some g ->
           (disabled_features (c_in c) !! j = Some 1%Z
            <-> Rabs g < 2 * lam_t - lam_prev) /\
           (disabled_features (c_in c) !! j = Some 0%Z
            <-> ~ Rabs g < 2 * lam_t - lam_prev)) /\
    (gap = false ->
     forall t, (1 <= t < n_lambdas)%nat -> warm_call_at (calls st) t).
Proof.
  intros Hwf.
  destruct (prefix_total cd_logreg X y lambdas eps max_iter f beta0 screening
              gap true n_lambdas Hwf (Nat.le_refl _)) as [st Hst].
  exists st. split; [exact Hst|]. split.
  - intros c Hc Hwarm.
    pose proof (strong_warm_calls _ _ _ _ _ _ _ _ _ _ _ st Hwf eq_refl Hst c Hc Hwarm)
      as Hok.
    destruct (strong_call_ok_mask _ _ Hok) as (Ht0 & l & a & b & -> & E1 & E2 & Hmask).
    split; [assumption|]. exists l, a, b. repeat split; try assumption.
    + now rewrite Hmask, length_map.
    + rewrite Hmask, lookup_map, H. cbn. intros E. injection E as E.
      now apply lt_intc_1.
    + rewrite Hmask, lookup_map, H. cbn. intros E. f_equal. now apply lt_intc_1.
    + rewrite Hmask, lookup_map, H. cbn. intros E. injection E as E.
      now apply lt_intc_0.
    + rewrite Hmask, lookup_map, H. cbn. intros E. f_equal. now apply lt_intc_0.
  - intros -> t Ht.
    destruct (prefix_start _ _ _ _ _ _ _ _ _ _ _ _ st Hwf Hst)
      as (tol & st0 & Hloop & _ & Hrun & _).
    destruct (path_loop_calls_always _ _ _ _ _ _ _ _ _ _ _ _ _ Hrun Hloop) as [_ Hcalls].
    apply Hcalls; lia.
Qed.


(** C10: a [lambdas] argument that is not an ndarray, a float or a list of
    any length, is wrapped into an object of length one: exactly one step is
    made, a single definitive solve at index 0 that receives the whole
    argument as its penalty. *)
Theorem non_array_lambdas_one_step (gap strong : bool) :
  (forall l, lambdas <> NdArray l) ->
  well_formed X y lambdas beta0 ->
  n_lambdas = 1%nat /\
  exists st d,
    logreg_path_run cd_logreg X y lambdas eps max_iter f beta0 screening
                    gap strong = Ret st /\
    calls st = [d] /\ c_t d = 0%nat /\ ~ is_warm d /\
    a_lambda (c_args d) =
      match lambdas with
      | PyFloat v => Scalar v
      | PyList l | NdArray l => Row l
      end /\
    length (betas st) = 1%nat /\ length (gaps st) = 1%nat /\
    length (n_iters st) = 1%nat /\ length (n_active_features st) = 1%nat.
Proof.
  intros Hna Hwf.
  assert (Hn : n_lambdas = 1%nat).
  { destruct lambdas as [l|v|l]; [now destruct (Hna l)|reflexivity|reflexivity].
    }
  split; [assumption|].
  destruct (prefix_total cd_logreg X y lambdas eps max_iter f beta0 screening
              gap strong n_lambdas Hwf (Nat.le_refl _)) as [st Hst].
  destruct (prefix_lengths _ _ _ _ _ _ _ _ _ _ _ _ st Hwf Hst) as [(L1 & L2 & L3 & L4) _].
  destruct (prefix_start _ _ _ _ _ _ _ _ _ _ _ _ st Hwf Hst)
    as (tol & st0 & Hloop & Hc0 & _).
  rewrite Hn in Hloop. cbn [seq] in Hloop. rewrite path_loop_single in Hloop.
  destruct (path_step_inv _ _ _ _ _ _ _ _ _ _ _ _ _ _ Hloop) as (st1 & Hw & Hd).
  destruct (warm_start_spec _ _ _ _ _ _ _ _ _ _ _ _ _ _ Hw)
    as (_ & _ & _ & _ & _ & _ & _ & Hcalls).
  destruct (definitive_spec _ _ _ _ _ _ _ _ _ _ _ _ Hd)
    as (d & Hc & Ht & Hnw & _ & _ & _ & Hget & _).
  exists st, d. split; [exact Hst|].
  assert (Hc1 : calls st1 = []).
  { destruct Hcalls as [[-> _]|(c & b & _ & Ht0 & _)]; [assumption|now destruct Ht0]. }
  rewrite Hc1 in Hc. rewrite Hn in *.
  repeat split; try assumption.
  destruct lambdas as [l|v|l]; [now destruct (Hna l)| |];
    simpl in Hget; now injection Hget as <-.
Qed.

End Claims.

(** C3, on the code: with the gap flag the driver reads
    [n_active_features[t]], which is still zero when the step at [t] begins,
    and not the count of index [t - 1].  Here every solve reports the single
    feature active, so the count recorded at index 0 is not below the number
    of features, and the warm-start solve at index 1 is run all the same. *)
Theorem gap_warm_start_reads_unwritten_count (eps : R) (max_iter f screening : Z) :
  exists st,
    logreg_path_run (kernel_all_active 1) (MkArray2 1 [[1]]) [1]
                    (NdArray [1; 1 / 2]) eps max_iter f None screening
                    true false = Ret st /\
    n_active_features st !! 0%nat
    = Some (Z.of_nat (n_features (MkArray2 1 [[1]]))) /\
    warm_call_at (calls st) 1.
Proof.
  assert (Hwf : well_formed (MkArray2 1 [[1]]) [1] (NdArray [1; 1 / 2]) None).
  { unfold well_formed, wf_array2. cbn. repeat split; try lia.
    constructor; [reflexivity|constructor]. }
  destruct (prefix_total (kernel_all_active 1) _ _ _ eps max_iter f None
              screening true false 2 Hwf (Nat.le_refl _)) as [st Hst].
  destruct (prefix_total (kernel_all_active 1) _ _ _ eps max_iter f None
              screening true false 1 Hwf) as [st1 Hst1]; [cbn; lia|].
  exists st. split; [exact Hst|]. split.
  - destruct (prefix_frame _ _ _ _ _ _ _ _ _ _ _ 1%nat 2%nat st1 st
                (Nat.le_succ_diag_r 1) Hst1 Hst 0%nat) as (_ & _ & _ & ->); [lia|].
    destruct (prefix_records _ _ _ _ _ _ _ _ _ _ _ 0%nat st1 Hwf Hst1)
      as (_ & d & _ & _ & _ & _ & Hret & _ & _ & ->).
    now rewrite Hret.
  - apply (gap_warm_calls _ _ _ _ _ _ _ _ _ _ _ st Hwf eq_refl Hst); [cbn; lia|].
    split; [lia|]. cbn. lia.
Qed.

(** ** The empty penalty grid *)

Lemma initial_state_empty X y b :
  exists e,
    initial_state X y (Grid1 []) b = Raise e /\
    (wf_array2 X -> length y = n_rows X ->
     match b with None => True | Some b => length b = length (columns X) end ->
     e = IndexError).
Proof.
  unfold initial_state. destruct b as [b|].
  - destruct (mat_vec X b) as [Xbeta|e] eqn:EX; cbn [bind].
    + destruct (Nat.eqb (length y) (n_rows X)) eqn:Ey; cbn [negb].
      * cbn. exists IndexError. now split.
      * exists ValueError. split; [reflexivity|]. intros _ Hy _.
        apply Nat.eqb_neq in Ey. contradiction.
    + exists e. split; [reflexivity|]. intros _ _ Hb.
      unfold mat_vec in EX. rewrite (proj2 (Nat.eqb_eq _ _) Hb) in EX.
      discriminate.
  - cbn [bind]. destruct (matT_vec X _) as [XTR|e] eqn:EX; cbn [bind].
    + cbn. exists IndexError. now split.
    + exists e. split; [reflexivity|]. intros _ Hy _.
      unfold matT_vec, dot_cols_T in EX. rewrite length_map in EX.
      rewrite (proj2 (Nat.eqb_eq _ _) Hy) in EX. discriminate.
Qed.

(** C4, as the code has it: called with an empty penalty grid, [logreg_path]
    returns nothing: it raises, a [ZeroDivisionError] on a dataset without
    samples and otherwise, on a well-shaped dataset, the [IndexError] of
    reading [lambdas[0]]. *)
Theorem logreg_path_empty_grid
    (cd_logreg : kernel_args -> buffers -> kernel_out * buffers)
    (X : ndarray2) (y : list R) (eps : R) (max_iter f : Z)
    (beta0 : option (list R)) (screening : Z) (gap strong : bool) :
  exists e,
    logreg_path cd_logreg X y (NdArray []) eps max_iter f beta0 screening
                gap strong = Raise e /\
    (n_rows X = 0%nat -> e = ZeroDivisionError) /\
    (n_rows X <> 0%nat -> wf_array2 X -> length y = n_rows X ->
     match beta0 with None => True | Some b => length b = length (columns X) end ->
     e = IndexError).
Proof.
  unfold logreg_path, logreg_path_run, tolerance. cbv zeta.
  destruct (Nat.eqb (n_rows X) 0) eqn:En.
  - apply Nat.eqb_eq in En. exists ZeroDivisionError.
    split; [reflexivity|]. split; [reflexivity|]. intros H. contradiction.
  - apply Nat.eqb_neq in En. cbn [bind as_grid].
    destruct (initial_state_empty X y beta0) as (e & -> & He).
    exists e. split; [reflexivity|]. split; [intros H; contradiction|].
    intros _. exact He.
Qed.

(** C4, as stated, fails: on a dataset of one sample and one feature the
    empty grid raises instead of returning empty arrays. *)
Lemma logreg_path_empty_grid_counterexample :
  logreg_path (kernel_all_active 1) (MkArray2 1 [[1]]) [1] (NdArray [])
              (1 / 10000) 3000 10 None 2 false false = Raise IndexError /\
  logreg_path (kernel_all_active 1) (MkArray2 1 [[1]]) [1] (NdArray [])
              (1 / 10000) 3000 10 None 2 false false <> Ret ([], [], [], []).
Proof.
  assert (E : logreg_path (kernel_all_active 1) (MkArray2 1 [[1]]) [1] (NdArray [])
                (1 / 10000) 3000 10 None 2 false false = Raise IndexError).
  { reflexivity. }
  split; [exact E|]. rewrite E. discriminate.
Qed.

(** ** Instances on a dataset of one sample and one feature *)

Lemma example_well_formed lambdas :
  grid_len (as_grid lambdas) <> 0%nat ->
  well_formed (MkArray2 1 [[1]]) [1] lambdas None.
Proof.
  intros H. unfold well_formed, wf_array2. cbn [n_rows columns length].
  repeat split; try lia; try assumption.
  constructor; [reflexivity|constructor].
Defined.

Lemma strong_warm_start_mask_witness :
  exists st,
    logreg_path_run (kernel_all_active 1) (MkArray2 1 [[1]]) [1]
      (NdArray [1; 1 / 2]) (1 / 10000) 3000 10 None 2 false true = Ret st /\
    (forall c, In c (calls st) -> is_warm c ->
       c_t c <> 0%nat /\
       exists l lam_t lam_prev,
         NdArray [1; 1 / 2] = NdArray l /\
         l !! c_t c = Some lam_t /\ l !! (c_t c - 1)%nat = Some lam_prev /\
         length (disabled_features (c_in c)) = length (XTR (c_in c)) /\
         forall j g, XTR (c_in c) !! j = Some g ->
           (disabled_features (c_in c) !! j = Some 1%Z
            <-> Rabs g < 2 * lam_t - lam_prev) /\
           (disabled_features (c_in c) !! j = Some 0%Z
            <-> ~ Rabs g < 2 * lam_t - lam_prev)) /\
    (false = false ->
     forall t, (1 <= t < grid_len (as_grid (NdArray [1%R; (1 / 2)%R])))%nat ->
               warm_call_at (calls st) t).
Proof.
  apply (strong_warm_start_mask (kernel_all_active 1) (MkArray2 1 [[1]]) [1]
           (NdArray [1; 1 / 2]) (1 / 10000) 3000 10 None 2 false).
  apply example_well_formed. cbn. lia.
Defined.


Lemma non_array_lambdas_one_step_witness :
  grid_len (as_grid (PyList [1; 1 / 2; 1 / 4])) = 1%nat /\
  exists st d,
    logreg_path_run (kernel_all_active 1) (MkArray2 1 [[1]]) [1]
      (PyList [1; 1 / 2; 1 / 4]) (1 / 10000) 3000 10 None 2 false false
    = Ret st /\
    calls st = [d] /\ c_t d = 0%nat /\ ~ is_warm d /\
    a_lambda (c_args d) = Row [1; 1 / 2; 1 / 4] /\
    length (betas st) = 1%nat /\ length (gaps st) = 1%nat /\
    length (n_iters st) = 1%nat /\ length (n_active_features st) = 1%nat.
Proof.
  apply (non_array_lambdas_one_step (kernel_all_active 1) (MkArray2 1 [[1]]) [1]
           (PyList [1; 1 / 2; 1 / 4]) (1 / 10000) 3000 10 None 2 false false).
  - discriminate.
  - apply example_well_formed. cbn. lia.
Defined.

(** * Further properties *)

(** ** Soft-thresholding *)

Lemma soft_entry_compose u v x :
  0 <= u ->
  np_sign (np_sign x * Rmax (Rabs x - v) 0)
  * Rmax (Rabs (np_sign x * Rmax (Rabs x - v) 0) - u) 0
  = np_sign x * Rmax (Rabs x - (u + v)) 0.
Proof.
  intros Hu. unfold np_sign, Rltb.
  destruct (Rlt_dec 0 x) as [Hx|Hx]; [|destruct (Rlt_dec x 0) as [Hx'|Hx']].
  - rewrite (Rabs_pos_eq x) by lra. rewrite !Rmult_1_l.
    destruct (Rle_dec (x - v) 0) as [H|H].
    + rewrite (Rmax_right (x - v) 0) by lra.
      destruct (Rlt_dec 0 0); [lra|]. destruct (Rlt_dec 0 0); [lra|].
      rewrite (Rmax_right (x - (u + v)) 0) by lra. ring.
    + rewrite (Rmax_left (x - v) 0) by lra.
      destruct (Rlt_dec 0 (x - v)); [|lra].
      rewrite (Rabs_pos_eq (x - v)) by lra.
      replace (x - v - u) with (x - (u + v)) by ring. ring.
  - rewrite (Rabs_left x) by lra.
    destruct (Rle_dec (- x - v) 0) as [H|H].
    + rewrite (Rmax_right (- x - v) 0) by lra. rewrite Rmult_0_r.
      destruct (Rlt_dec 0 0); [lra|].
      rewrite (Rmax_right (- x - (u + v)) 0) by lra. ring.
    + rewrite (Rmax_left (- x - v) 0) by lra.
      destruct (Rlt_dec 0 (-1 * (- x - v))); [lra|].
      destruct (Rlt_dec (-1 * (- x - v)) 0); [|lra].
      rewrite (Rabs_left (-1 * (- x - v))) by lra.
      replace (- (-1 * (- x - v)) - u) with (- x - (u + v)) by ring. ring.
  - assert (x = 0) by lra. subst x. rewrite !Rmult_0_l.
    destruct (Rlt_dec 0 0); [lra|]. ring.
Qed.

(** X1: thresholding at level [v] and then at level [u >= 0] is thresholding
    at level [u + v]. *)
Theorem vect_ST_compose (u v : R) (x : list R) :
  0 <= u -> vect_ST u (vect_ST v x) = vect_ST (u + v) x.
Proof.
  intros Hu. unfold vect_ST. rewrite map_map. apply map_ext.
  intros a. now apply soft_entry_compose.
Qed.

Lemma vect_ST_compose_witness :
  vect_ST 1 (vect_ST 2 [5; -4; 1]) = vect_ST (1 + 2) [5; -4; 1].
Proof. apply vect_ST_compose. lra. Defined.

Lemma np_sign_abs a : np_sign a * Rabs a = a.
Proof.
  unfold np_sign, Rltb. destruct (Rlt_dec 0 a); [rewrite Rabs_pos_eq by lra; ring|].
  destruct (Rlt_dec a 0); [rewrite Rabs_left by lra; ring|].
  assert (a = 0) by lra. subst. ring.
Qed.

Lemma vect_ST_0 x : vect_ST 0 x = x.
Proof.
  unfold vect_ST. rewrite <- (map_id x) at 2. apply map_ext. intros a.
  rewrite Rminus_0_r, Rmax_left by apply Rabs_pos. apply np_sign_abs.
Qed.

Lemma vect_ST_above u x :
  (forall v, In v x -> Rabs v <= u) -> vect_ST u x = repeat 0 (length x).
Proof.
  intros H. unfold vect_ST. induction x as [|a x IH]; [reflexivity|].
  cbn [map length repeat]. f_equal.
  - rewrite Rmax_right by (specialize (H a (or_introl eq_refl)); lra). ring.
  - apply IH. intros v Hv. apply H. now right.
Qed.

Lemma norm2_vect_ST_mono u u' x :
  0 <= u <= u' -> norm2 (vect_ST u' x) <= norm2 (vect_ST u x).
Proof.
  intros [Hu Huu]. unfold norm2. apply sqrt_le_1_alt.
  rewrite !vect_ST_sumsq by lra. now apply excess2_antitone.
Qed.

Lemma norm2_vect_ST_le u x : 0 <= u -> norm2 (vect_ST u x) <= norm2 x.
Proof.
  intros Hu. rewrite <- (vect_ST_0 x) at 2. apply norm2_vect_ST_mono. lra.
Qed.

(** X2: thresholding at level 0 changes nothing, and thresholding at a level
    that no magnitude exceeds gives the zero vector. *)
Theorem vect_ST_extremes (u : R) (x : list R) :
  (forall v, In v x -> Rabs v <= u) ->
  vect_ST 0 x = x /\ vect_ST u x = repeat 0 (length x).
Proof. intros H. split; [apply vect_ST_0 | now apply vect_ST_above]. Qed.

Lemma vect_ST_extremes_witness :
  vect_ST 0 [1; -2] = [1; -2] /\ vect_ST 2 [1; -2] = repeat 0 (length [1; -2]).
Proof.
  apply vect_ST_extremes. intros v [<-|[<-|[]]].
  - rewrite Rabs_pos_eq; lra.
  - rewrite Rabs_left; lra.
Defined.

(** X3: the norm of the thresholded vector does not grow with the level, and
    never exceeds the norm of the vector. *)
Theorem norm2_vect_ST_antitone (u u' : R) (x : list R) :
  0 <= u <= u' ->
  norm2 (vect_ST u' x) <= norm2 (vect_ST u x) <= norm2 x.
Proof.
  intros Hu. split; [now apply norm2_vect_ST_mono | apply norm2_vect_ST_le; lra].
Qed.

Lemma norm2_vect_ST_antitone_witness :
  norm2 (vect_ST 2 [3; -1]) <= norm2 (vect_ST 1 [3; -1]) <= norm2 [3; -1].
Proof. apply norm2_vect_ST_antitone. lra. Defined.

(** ** The epsilon-norm does not see order or signs *)

Lemma desc_perm_eq l1 :
  forall l2, desc l1 -> desc l2 -> Permutation l1 l2 -> l1 = l2.
Proof.
  induction l1 as [|a l1 IH]; intros l2 H1 H2 HP.
  - apply Permutation_nil in HP. now subst.
  - destruct l2 as [|b l2].
    { symmetry in HP. now apply Permutation_nil in HP. }
    assert (a = b) as ->.
    { assert (In b (a :: l1)) as Hb
        by (eapply Permutation_in; [symmetry; exact HP | now left]).
      assert (In a (b :: l2)) as Ha
        by (eapply Permutation_in; [exact HP | now left]).
      destruct Hb as [Hb|Hb]; [easy|]. destruct Ha as [Ha|Ha]; [easy|].
      pose proof (desc_head _ _ H1 _ Hb). pose proof (desc_head _ _ H2 _ Ha).
      lra. }
    f_equal. apply IH.
    + now inversion H1.
    + now inversion H2.
    + eapply Permutation_cons_inv, HP.
Qed.

Lemma sort_desc_perm_eq l1 l2 :
  Permutation l1 l2 -> sort_desc l1 = sort_desc l2.
Proof.
  intros HP. apply desc_perm_eq; try apply sort_desc_sorted.
  rewrite !sort_desc_perm. exact HP.
Qed.

Lemma filter_perm {A : Type} (f : A -> bool) l1 l2 :
  Permutation l1 l2 -> Permutation (List.filter f l1) (List.filter f l2).
Proof.
  induction 1 as [|a l1 l2 _ IH|a b l|l1 l2 l3 _ IH1 _ IH2]; cbn [List.filter].
  - constructor.
  - destruct (f a); [now constructor | exact IH].
  - destruct (f a), (f b); try reflexivity. apply perm_swap.
  - now rewrite IH1.
Qed.

Lemma Rmax_list_perm l1 l2 : Permutation l1 l2 -> Rmax_list l1 = Rmax_list l2.
Proof.
  unfold Rmax_list.
  induction 1 as [|a l1 l2 _ IH|a b l|l1 l2 l3 _ IH1 _ IH2]; cbn [fold_right].
  - reflexivity.
  - now rewrite IH.
  - rewrite !Rmax_assoc, (Rmax_comm a b). reflexivity.
  - now rewrite IH1.
Qed.

Lemma Rsumsq_abs x : Rsumsq (map Rabs x) = Rsumsq x.
Proof.
  unfold Rsumsq. rewrite map_map. f_equal. apply map_ext. intros a.
  unfold Rabs. destruct (Rcase_abs a); ring.
Qed.

Lemma selected_perm x y t :
  Permutation (map Rabs x) (map Rabs y) -> selected x t = selected y t.
Proof. intros HP. unfold selected. now apply sort_desc_perm_eq, filter_perm. Qed.

(** X4: the value depends only on the multiset of magnitudes of the entries:
    reordering the vector or changing signs changes nothing, whatever
    [alpha] and [R] are (errors and non-finite results included). *)
Theorem epsilon_norm_perm_sign (x y : list R) (alpha R_ : npfloat) :
  Permutation (map Rabs x) (map Rabs y) ->
  epsilon_norm x alpha R_ = epsilon_norm y alpha R_.
Proof.
  intros HP. unfold epsilon_norm.
  assert (norm2 x = norm2 y) as ->.
  { unfold norm2. rewrite <- (Rsumsq_abs x), <- (Rsumsq_abs y). f_equal.
    unfold Rsumsq. now apply Rsum_perm, Permutation_map. }
  assert (norm_inf x = norm_inf y) as ->.
  { destruct x as [|a x], y as [|b y]; try reflexivity.
    - now apply Permutation_nil in HP.
    - symmetry in HP. now apply Permutation_nil in HP.
    - unfold norm_inf. f_equal. now apply Rmax_list_perm. }
  destruct (np_eqb alpha (Fin 0) && negb (np_eqb R_ (Fin 0))); [reflexivity|].
  destruct (np_eqb R_ (Fin 0)); [reflexivity|].
  destruct (norm_inf y) as [n|e]; [|reflexivity]. cbn [bind].
  now rewrite (selected_perm x y _ HP).
Qed.

Lemma epsilon_norm_perm_sign_witness :
  epsilon_norm [3; -1; 2] (Fin (1/2)) (Fin (1/2))
  = epsilon_norm [-2; -3; 1] (Fin (1/2)) (Fin (1/2)).
Proof.
  apply epsilon_norm_perm_sign. cbn [map].
  replace (Rabs 3) with 3 by (symmetry; apply Rabs_pos_eq; lra).
  replace (Rabs (-1)) with 1 by (rewrite Rabs_left; lra).
  replace (Rabs 2) with 2 by (symmetry; apply Rabs_pos_eq; lra).
  replace (Rabs (-2)) with 2 by (rewrite Rabs_left; lra).
  replace (Rabs (-3)) with 3 by (rewrite Rabs_left; lra).
  replace (Rabs 1) with 1 by (symmetry; apply Rabs_pos_eq; lra).
  apply perm_trans with [2; 3; 1].
  - apply perm_trans with [3; 2; 1]; [apply perm_skip, perm_swap | apply perm_swap].
  - reflexivity.
Defined.

(** ** Bounds and scaling of the epsilon-norm *)

(** From the squared form of the equation to the one on norms. *)
Lemma root_norm_form x alpha R_ z :
  0 <= alpha -> 0 <= R_ -> 0 <= z ->
  excess2 (alpha * z) (map Rabs x) = R_ * R_ * (z * z) ->
  norm2 (vect_ST (alpha * z) x) = R_ * z.
Proof.
  intros Ha HR Hz E.
  assert (0 <= alpha * z) as Haz by now apply Rmult_le_pos.
  pose proof (norm2_vect_ST_sq (alpha * z) x Haz) as Hsq. rewrite E in Hsq.
  assert (0 <= norm2 (vect_ST (alpha * z) x)) as Hn by apply sqrt_pos.
  assert (0 <= R_ * z) as HRz by now apply Rmult_le_pos.
  apply Rsqr_inj; try assumption. unfold Rsqr. rewrite Hsq. ring.
Qed.

Lemma Rmax_list_abs_pos_all x :
  Rmax_list (map Rabs x) = 0 -> forall v, In v x -> v = 0.
Proof.
  intros HM v Hv.
  assert (Rabs v <= 0) as H
    by (rewrite <- HM; apply Rmax_list_ub, in_map, Hv).
  pose proof (Rabs_pos v). destruct (Req_dec v 0) as [|Hn]; [easy|].
  pose proof (Rabs_pos_lt v Hn). lra.
Qed.

(** X5: when the general branch applies (or [alpha + R = 1]), the value [z]
    lies between [norm_inf(x) / (alpha + R)] and [norm_inf(x) / alpha], and
    [R * z] is at most the Euclidean norm of [x]. *)
Theorem epsilon_norm_bounds (x : list R) (alpha R_ : R) :
  let M := Rmax_list (map Rabs x) in
  0 < alpha -> 0 < R_ -> 0 < M ->
  alpha + R_ = 1 \/ n_inf x alpha R_ <> 1%nat ->
  exists z,
    epsilon_norm x (Fin alpha) (Fin R_) = Ret (Fin z) /\
    M / (alpha + R_) <= z < M / alpha /\
    z <= norm2 x / R_.
Proof.
  intros M Ha HR HM Hc.
  destruct (epsilon_norm_solves x alpha R_ Ha HR HM Hc) as (z & Ez & Hlo & E).
  fold M in Hlo.
  assert (0 < M / (alpha + R_)) by (apply Rdiv_lt_0_compat; lra).
  assert (0 < z) as Hz by lra.
  exists z. split; [exact Ez|]. split; [split; [exact Hlo|]|].
  - apply Rnot_le_lt. intros Hge.
    assert (M <= alpha * z) as HMz.
    { apply (Rmult_le_compat_l alpha) in Hge; [|lra].
      replace (alpha * (M / alpha)) with M in Hge by (field; lra). exact Hge. }
    rewrite excess2_below in E.
    + assert (0 < R_ * R_ * (z * z)) by (repeat apply Rmult_lt_0_compat; lra).
      lra.
    + intros v Hv. pose proof (Rmax_list_ub _ _ Hv). fold M in H0. lra.
  - assert (norm2 (vect_ST (alpha * z) x) = R_ * z) as En
      by (apply root_norm_form; lra).
    assert (0 <= alpha * z) as Haz by (apply Rmult_le_pos; lra).
    assert (norm2 (vect_ST (alpha * z) x) <= norm2 x) as Hle.
    { now apply norm2_vect_ST_le. }
    apply (Rmult_le_reg_l R_); [lra|].
    replace (R_ * (norm2 x / R_)) with (norm2 x) by (field; lra). lra.
Qed.

Lemma epsilon_norm_bounds_witness :
  exists z,
    epsilon_norm [4; 3; 2; 1] (Fin (1/2)) (Fin (1/2)) = Ret (Fin z) /\
    Rmax_list (map Rabs [4; 3; 2; 1]) / (1/2 + 1/2) <= z
      < Rmax_list (map Rabs [4; 3; 2; 1]) / (1/2) /\
    z <= norm2 [4; 3; 2; 1] / (1/2).
Proof.
  apply epsilon_norm_bounds; [lra | lra | | left; lra].
  cbn [map Rmax_list fold_right].
  eapply Rlt_le_trans; [|apply Rmax_l]. apply Rabs_pos_lt. lra.
Defined.

Lemma map_abs_scale c x :
  0 <= c -> map Rabs (map (Rmult c) x) = map (Rmult c) (map Rabs x).
Proof.
  intros Hc. rewrite !map_map. apply map_ext. intros a.
  now rewrite Rabs_mult, (Rabs_pos_eq c).
Qed.

Lemma Rmax_list_scale c l :
  0 <= c -> Rmax_list (map (Rmult c) l) = c * Rmax_list l.
Proof.
  intros Hc. unfold Rmax_list.
  induction l as [|a l IH]; cbn [map fold_right]; [ring|].
  rewrite IH. now rewrite RmaxRmult.
Qed.

Lemma excess2_scale c nu l :
  0 <= c -> excess2 (c * nu) (map (Rmult c) l) = c * c * excess2 nu l.
Proof.
  intros Hc. unfold excess2.
  induction l as [|a l IH]; cbn [map Rsum fold_right]; [ring|].
  change (fold_right Rplus 0 ?l) with (Rsum l) in *. rewrite IH.
  replace (c * a - c * nu) with (c * (a - nu)) by ring.
  replace 0 with (c * 0) at 1 2 by ring. rewrite RmaxRmult by assumption.
  ring.
Qed.

Lemma filter_scale c t l :
  0 < c ->
  List.filter (fun v => Rltb (c * t) v) (map (Rmult c) l)
  = map (Rmult c) (List.filter (fun v => Rltb t v) l).
Proof.
  intros Hc. induction l as [|a l IH]; cbn [map List.filter]; [reflexivity|].
  rewrite IH.
  assert (Rltb (c * t) (c * a) = Rltb t a) as ->.
  { unfold Rltb. destruct (Rlt_dec t a) as [H|H], (Rlt_dec (c * t) (c * a)) as [H'|H'];
      try reflexivity; exfalso.
    - apply H'. now apply Rmult_lt_compat_l.
    - apply H. now apply Rmult_lt_reg_l in H'. }
  now destruct (Rltb t a).
Qed.

Lemma n_inf_scale c x alpha R_ :
  0 < c -> alpha + R_ <> 0 ->
  n_inf (map (Rmult c) x) alpha R_ = n_inf x alpha R_.
Proof.
  intros Hc Hs. unfold n_inf, threshold.
  rewrite map_abs_scale, Rmax_list_scale by lra.
  replace (alpha * (c * Rmax_list (map Rabs x)) / (alpha + R_))
    with (c * (alpha * Rmax_list (map Rabs x) / (alpha + R_))) by (field; lra).
  rewrite filter_scale by assumption. now rewrite length_map.
Qed.

(** X6: the value is positively homogeneous: scaling the vector by [c > 0]
    scales the value by [c]. *)
Theorem epsilon_norm_homogeneous (x : list R) (alpha R_ c z : R) :
  0 < alpha -> 0 < R_ -> 0 < c ->
  epsilon_norm x (Fin alpha) (Fin R_) = Ret (Fin z) ->
  epsilon_norm (map (Rmult c) x) (Fin alpha) (Fin R_) = Ret (Fin (c * z)).
Proof.
  intros Ha HR Hc E.
  destruct x as [|x0 x'] eqn:Ex.
  { unfold epsilon_norm in E. cbn [np_eqb] in E.
    rewrite !Reqb_false in E by lra. discriminate E. }
  rewrite <- Ex in *.
  assert (x <> []) as Hx by (rewrite Ex; discriminate).
  assert (map (Rmult c) x <> []) as Hcx by (rewrite Ex; discriminate).
  clear Ex x0 x'.
  pose proof (Rmax_list_nonneg (map Rabs x)) as HM0.
  assert (Rmax_list (map Rabs (map (Rmult c) x)) = c * Rmax_list (map Rabs x))
    as EM by (rewrite map_abs_scale, Rmax_list_scale by lra; reflexivity).
  destruct (Req_dec (Rmax_list (map Rabs x)) 0) as [HM|HM].
  - rewrite epsilon_norm_eq in E |- * by (try lra; assumption). cbv zeta in *.
    rewrite EM, HM, Rmult_0_r. rewrite HM in E.
    rewrite Reqb_true in E |- * by reflexivity.
    injection E as <-. now rewrite Rmult_0_r.
  - assert (0 < Rmax_list (map Rabs x)) as HMp by lra.
    assert (0 < Rmax_list (map Rabs (map (Rmult c) x))) as HMc
      by (rewrite EM; now apply Rmult_lt_0_compat).
    destruct (Nat.eq_dec (n_inf x alpha R_) 1%nat) as [Hn|Hn].
    + rewrite (epsilon_norm_single x alpha R_ Ha HR HMp Hn) in E.
      injection E as <-. rewrite <- EM. apply epsilon_norm_single; try assumption.
      rewrite n_inf_scale by lra. exact Hn.
    + destruct (epsilon_norm_solves x alpha R_ Ha HR HMp (or_intror Hn))
        as (z1 & Ez1 & Hlo1 & E1).
      rewrite Ez1 in E. injection E as ->.
      assert (n_inf (map (Rmult c) x) alpha R_ <> 1%nat) as Hn'
        by (rewrite n_inf_scale by lra; exact Hn).
      destruct (epsilon_norm_solves _ alpha R_ Ha HR HMc (or_intror Hn'))
        as (z2 & Ez2 & Hlo2 & E2).
      rewrite Ez2. do 2 f_equal.
      assert (0 < Rmax_list (map Rabs x) / (alpha + R_))
        by (apply Rdiv_lt_0_compat; lra).
      assert (0 < Rmax_list (map Rabs (map (Rmult c) x)) / (alpha + R_))
        by (apply Rdiv_lt_0_compat; lra).
      assert (0 <= c * z) by (apply Rmult_le_pos; lra).
      apply (root_unique (map (Rmult c) x) alpha R_); try lra.
      * apply root_norm_form; try lra.
        rewrite map_abs_scale by lra.
        replace (alpha * (c * z)) with (c * (alpha * z)) by ring.
        rewrite excess2_scale, E1 by lra. ring.
      * apply root_norm_form; try lra.
Qed.

Lemma epsilon_norm_homogeneous_witness :
  epsilon_norm (map (Rmult 2) [5]) (Fin 1) (Fin 1) = Ret (Fin (2 * 5)).
Proof.
  apply epsilon_norm_homogeneous; try lra.
  unfold epsilon_norm.
  cbn [np_eqb andb negb norm_inf bind map Rmax_list fold_right np_mul np_add np_div].
  rewrite !(Reqb_false 1 0), (Reqb_false (1 + 1) 0) by lra.
  cbn [andb negb bind].
  assert (Rabs 5 = 5) as -> by (apply Rabs_pos_eq; lra).
  assert (Rmax 5 0 = 5) as -> by (apply Rmax_left; lra).
  rewrite (Reqb_false 5 0) by lra.
  unfold selected. cbn [map List.filter np_gt np_lt].
  assert (Rabs 5 = 5) as -> by (apply Rabs_pos_eq; lra).
  rewrite Rltb_true by lra. reflexivity.
Defined.

(** ** The epsilon-norm outside the general branch *)

Lemma filter_none {A : Type} (f : A -> bool) l :
  (forall v, In v l -> f v = false) -> List.filter f l = [].
Proof.
  induction l as [|a l IH]; intros H; cbn [List.filter]; [reflexivity|].
  rewrite (H a (or_introl eq_refl)). apply IH. intros v Hv. apply H. now right.
Qed.

(** X7: with [alpha > 0] and a negative [R] such that [alpha + R >= 0], no
    magnitude passes the threshold of the selection, and for a vector with a
    non-zero entry the read of the last selected entry after the loop raises
    [IndexError]. *)
Theorem epsilon_norm_negative_R (x : list R) (alpha R_ : R) :
  0 < alpha -> R_ < 0 -> 0 <= alpha + R_ -> 0 < Rmax_list (map Rabs x) ->
  epsilon_norm x (Fin alpha) (Fin R_) = Raise IndexError.
Proof.
  intros Ha HR Hs HM.
  assert (x <> []) as Hx by (intros ->; cbn in HM; lra).
  unfold epsilon_norm. cbn [np_eqb].
  rewrite (Reqb_false alpha 0), (Reqb_false R_ 0) by lra. cbn [andb].
  rewrite norm_inf_nonempty by assumption. cbn [bind].
  set (M := Rmax_list (map Rabs x)) in *.
  rewrite (Reqb_false M 0) by lra.
  assert (selected x (np_div (np_mul (Fin alpha) (Fin M))
                             (np_add (Fin alpha) (Fin R_))) = []) as ->.
  { unfold selected. rewrite filter_none; [reflexivity|].
    intros v Hv. cbn [np_mul np_add np_div].
    assert (0 < alpha * M) as HaM by now apply Rmult_lt_0_compat.
    destruct (Req_dec (alpha + R_) 0) as [E0|E0].
    - rewrite (Reqb_true (alpha + R_) 0), (Reqb_false (alpha * M) 0),
        Rltb_true by lra.
      reflexivity.
    - rewrite (Reqb_false (alpha + R_) 0) by assumption.
      unfold np_gt, np_lt. apply Rltb_false.
      pose proof (Rmax_list_ub _ _ Hv) as Hub. fold M in Hub.
      apply Rle_trans with M; [exact Hub|].
      apply (Rmult_le_reg_r (alpha + R_)); [lra|].
      replace (alpha * M / (alpha + R_) * (alpha + R_)) with (alpha * M)
        by (field; lra).
      nra. }
  reflexivity.
Qed.

Lemma epsilon_norm_negative_R_witness :
  epsilon_norm [1; 2] (Fin 1) (Fin (-1)) = Raise IndexError.
Proof.
  apply epsilon_norm_negative_R; try lra.
  cbn [map Rmax_list fold_right].
  eapply Rlt_le_trans; [|apply Rmax_l]. apply Rabs_pos_lt. lra.
Defined.

(** X8: on the two boundaries the closed forms solve the same equation as the
    general branch, [norm2 (vect_ST (alpha * z) x) = R * z]: at
    [alpha = 0 < R] the value is [norm2 x / R], and at [R = 0 < alpha] it is
    [norm_inf x / alpha], where thresholding leaves nothing. *)
Theorem epsilon_norm_boundary_root (x : list R) (alpha R_ : R) :
  0 < alpha -> 0 < R_ -> x <> [] ->
  let z0 := norm2 x / R_ in
  let z1 := Rmax_list (map Rabs x) / alpha in
  epsilon_norm x (Fin 0) (Fin R_) = Ret (Fin z0) /\
  norm2 (vect_ST (0 * z0) x) = R_ * z0 /\
  epsilon_norm x (Fin alpha) (Fin 0) = Ret (Fin z1) /\
  norm2 (vect_ST (alpha * z1) x) = 0 * z1.
Proof.
  intros Ha HR Hx z0 z1. repeat split.
  - unfold epsilon_norm. cbn [np_eqb].
    rewrite (Reqb_true 0 0), (Reqb_false R_ 0) by lra. cbn [andb negb].
    now rewrite np_div_fin by lra.
  - rewrite Rmult_0_l, vect_ST_0. unfold z0. field. lra.
  - unfold epsilon_norm. cbn [np_eqb].
    rewrite (Reqb_false alpha 0), (Reqb_true 0 0) by lra. cbn [andb].
    rewrite norm_inf_nonempty by assumption. cbn [bind].
    now rewrite np_div_fin by lra.
  - replace (alpha * z1) with (Rmax_list (map Rabs x)) by (unfold z1; field; lra).
    rewrite Rmult_0_l. unfold norm2.
    rewrite vect_ST_sumsq by apply Rmax_list_nonneg.
    rewrite excess2_below; [apply sqrt_0|].
    intros v Hv. now apply Rmax_list_ub.
Qed.

Lemma epsilon_norm_boundary_root_witness :
  epsilon_norm [3; 4] (Fin 0) (Fin 2) = Ret (Fin (norm2 [3; 4] / 2)).
Proof.
  apply (epsilon_norm_boundary_root [3; 4] 1 2); [lra | lra | discriminate].
Defined.

(** ** precompute_norm *)

Lemma mapM_seq_raise {B : Type} (f : nat -> result B) e n :
  forall a i,
    (a <= i < a + n)%nat ->
    (forall j, (a <= j < i)%nat -> exists b, f j = Ret b) ->
    f i = Raise e ->
    mapM f (seq a n) = Raise e.
Proof.
  induction n as [|n IH]; intros a i Hi Hlt Hf; [lia|].
  cbn [seq mapM]. destruct (Nat.eq_dec a i) as [->|Hne].
  - now rewrite Hf.
  - destruct (Hlt a) as [b ->]; [lia|]. cbn [bind].
    rewrite (IH (S a) i); [reflexivity | lia | | exact Hf].
    intros j Hj. apply Hlt. lia.
Qed.

Lemma getitem_lt {A : Type} (l : list A) i :
  (i < length l)%nat -> exists v, l !! i = Some v /\ getitem l i = Ret v.
Proof.
  intros Hi. destruct (lookup_lt_is_Some_2 l i Hi) as [v Hv].
  exists v. split; [exact Hv|]. unfold getitem. now rewrite Hv.
Qed.

Lemma getitem_ge {A : Type} (l : list A) i :
  (length l <= i)%nat -> getitem l i = Raise IndexError.
Proof. intros Hi. unfold getitem. now rewrite lookup_ge_None_2. Qed.

Lemma block_norm_sq X a s :
  block_norm X a s * block_norm X a s
  = Rsumsq (firstn s (skipn a (map norm2 (columns X)))).
Proof.
  unfold block_norm. rewrite sqrt_sqrt.
  - rewrite skipn_map, firstn_map. unfold Rsumsq at 2. rewrite map_map.
    f_equal. apply map_ext. intros c. unfold norm2.
    rewrite sqrt_sqrt; [reflexivity | apply Rsumsq_nonneg].
  - induction (firstn s (skipn a (columns X))) as [|c l IH];
      cbn [map Rsum fold_right]; [lra|].
    pose proof (Rsumsq_nonneg c). unfold Rsum in IH. lra.
Qed.

Lemma precompute_norm_eq X y size_groups g_start :
  (length size_groups <= length g_start)%nat ->
  precompute_norm X y size_groups g_start
  = Ret (map norm2 (columns X),
         map (fun i => block_norm X (nth i g_start 0%nat) (nth i size_groups 0%nat))
             (seq 0 (length size_groups)),
         Rsumsq y).
Proof.
  intros Hlen. unfold precompute_norm.
  rewrite (mapM_seq _ (fun i => block_norm X (nth i g_start 0%nat)
                                          (nth i size_groups 0%nat))).
  - cbn [bind]. do 2 f_equal. unfold norm2. apply sqrt_sqrt, Rsumsq_nonneg.
  - intros i Hi.
    destruct (getitem_lt g_start i) as (a & Ha & ->); [lia|].
    destruct (getitem_lt size_groups i) as (s & Hs & ->); [lia|].
    cbn [bind].
    now rewrite (nth_lookup_Some _ _ _ _ Ha), (nth_lookup_Some _ _ _ _ Hs).
Qed.

Lemma map_seq_combine {A B C : Type} (h : A -> B -> C) (da : A) (db : B) l2 :
  forall l1,
    length l1 = length l2 ->
    map (fun i => h (nth i l1 da) (nth i l2 db)) (seq 0 (length l2))
    = map (fun p => h (fst p) (snd p)) (combine l1 l2).
Proof.
  induction l2 as [|b l2 IH]; intros [|a l1] Hlen; try discriminate;
    [reflexivity|].
  cbn [length seq map combine nth fst snd]. f_equal.
  rewrite <- seq_shift, map_map. cbn [nth]. apply IH.
  now injection Hlen.
Qed.

Lemma Rsum_Rsumsq_nonneg (cols : list (list R)) : 0 <= Rsum (map Rsumsq cols).
Proof.
  induction cols as [|c l IH]; cbn [map Rsum fold_right]; [lra|].
  pose proof (Rsumsq_nonneg c). unfold Rsum in IH. lra.
Qed.

Lemma block_norm_sq_cols X a s :
  block_norm X a s * block_norm X a s
  = Rsum (map Rsumsq (firstn s (skipn a (columns X)))).
Proof. unfold block_norm. apply sqrt_sqrt, Rsum_Rsumsq_nonneg. Qed.

(** X9: when [g_start] has an entry for every group the call returns, with
    [sum(y ** 2)], the Euclidean norm of every column of [X] (the non-negative
    number whose square is the sum of the squared entries of the column) and,
    for every group, the non-negative number whose square is the sum of the
    squared entries of the columns of the group's slice, which is also the
    sum of the squared column norms over that slice. *)
Theorem precompute_norm_blocks (X : ndarray2) (y : list R)
    (size_groups g_start : list nat) :
  (length size_groups <= length g_start)%nat ->
  exists norm_X norm_X_g,
    precompute_norm X y size_groups g_start = Ret (norm_X, norm_X_g, Rsumsq y) /\
    length norm_X = length (columns X) /\
    (forall j c, columns X !! j = Some c ->
       exists v, norm_X !! j = Some v /\ 0 <= v /\ v * v = Rsumsq c) /\
    length norm_X_g = length size_groups /\
    forall i a s,
      g_start !! i = Some a -> size_groups !! i = Some s ->
      exists g, norm_X_g !! i = Some g /\ 0 <= g /\
                g * g = Rsum (map Rsumsq (firstn s (skipn a (columns X)))) /\
                g * g = Rsumsq (firstn s (skipn a norm_X)).
Proof.
  intros Hlen. rewrite precompute_norm_eq by assumption.
  eexists _, _. split; [reflexivity|]. split; [|split; [|split]].
  - now rewrite length_map.
  - intros j c Hc. exists (norm2 c). split; [|split].
    + now rewrite lookup_map, Hc.
    + apply sqrt_pos.
    + unfold norm2. apply sqrt_sqrt, Rsumsq_nonneg.
  - now rewrite length_map, length_seq.
  - intros i a s Ha Hs. eexists. split; [|split; [|split]].
    + apply lookup_seq_map. now apply lookup_lt_Some in Hs.
    + apply sqrt_pos.
    + cbv beta.
      rewrite (nth_lookup_Some _ _ _ _ Ha), (nth_lookup_Some _ _ _ _ Hs).
      apply block_norm_sq_cols.
    + cbv beta.
      rewrite (nth_lookup_Some _ _ _ _ Ha), (nth_lookup_Some _ _ _ _ Hs).
      apply block_norm_sq.
Qed.

Lemma precompute_norm_blocks_witness :
  exists norm_X norm_X_g,
    precompute_norm (MkArray2 1 [[3]; [4]]) [1] [2%nat] [0%nat]
    = Ret (norm_X, norm_X_g, Rsumsq [1]) /\
    length norm_X = 2%nat /\
    (forall j c, [[3]; [4]] !! j = Some c ->
       exists v, norm_X !! j = Some v /\ 0 <= v /\ v * v = Rsumsq c) /\
    length norm_X_g = 1%nat /\
    forall i a s,
      [0%nat] !! i = Some a -> [2%nat] !! i = Some s ->
      exists g, norm_X_g !! i = Some g /\ 0 <= g /\
                g * g = Rsum (map Rsumsq (firstn s (skipn a [[3]; [4]]))) /\
                g * g = Rsumsq (firstn s (skipn a norm_X)).
Proof. apply (precompute_norm_blocks (MkArray2 1 [[3]; [4]])). cbn. lia. Defined.

(** X10: when [g_start] is shorter than [size_groups], reading the start of the
    first group without one raises [IndexError]. *)
Theorem precompute_norm_short_starts (X : ndarray2) (y : list R)
    (size_groups g_start : list nat) :
  (length g_start < length size_groups)%nat ->
  precompute_norm X y size_groups g_start = Raise IndexError.
Proof.
  intros Hlen. unfold precompute_norm.
  rewrite (mapM_seq_raise _ IndexError _ 0%nat (length g_start)).
  - reflexivity.
  - lia.
  - intros j Hj.
    destruct (getitem_lt g_start j) as (a & _ & ->); [lia|].
    destruct (getitem_lt size_groups j) as (s & _ & ->); [lia|].
    cbn [bind]. eauto.
  - now rewrite getitem_ge.
Qed.

Lemma precompute_norm_short_starts_witness :
  precompute_norm (MkArray2 1 [[3]; [4]]) [1] [1%nat; 1%nat] [0%nat]
  = Raise IndexError.
Proof. apply precompute_norm_short_starts. cbn. lia. Defined.

Lemma layout_from_blocks (norms : list R) size_groups :
  forall g_start a0,
    layout_from a0 size_groups g_start (length norms) ->
    Rsum (map (fun p => Rsumsq (firstn (snd p) (skipn (fst p) norms)))
              (combine g_start size_groups))
    = Rsumsq (skipn a0 norms).
Proof.
  induction size_groups as [|s ss IH]; intros [|g gs] a0 H; cbn in H; try easy.
  - subst a0. now rewrite skipn_all.
  - destruct H as (-> & _ & H). cbn [combine map Rsum fold_right fst snd].
    change (fold_right Rplus 0 ?l) with (Rsum l).
    rewrite (IH _ _ H).
    rewrite <- (firstn_skipn s (skipn a0 norms)) at 2.
    rewrite Rsumsq_app. f_equal. f_equal.
    rewrite skipn_skipn. f_equal. lia.
Qed.

(** X11: when the groups partition the columns, the squares of the group norms
    add up to the squares of the column norms. *)
Theorem precompute_norm_partition (X : ndarray2) (y : list R)
    (size_groups g_start : list nat) norm_X norm_X_g nrm2_y :
  partitions (length (columns X)) size_groups g_start ->
  precompute_norm X y size_groups g_start = Ret (norm_X, norm_X_g, nrm2_y) ->
  Rsumsq norm_X_g = Rsumsq norm_X.
Proof.
  intros Hp E.
  destruct (partitions_slice _ _ _ Hp) as [Hlen _].
  rewrite precompute_norm_eq in E by lia. injection E as <- <- _.
  rewrite (map_seq_combine (block_norm X)) by assumption.
  unfold Rsumsq at 1. rewrite map_map.
  erewrite map_ext; [|intros p; apply block_norm_sq].
  rewrite (layout_from_blocks _ size_groups g_start 0%nat).
  - reflexivity.
  - now rewrite length_map.
Qed.

Lemma precompute_norm_partition_witness :
  Rsumsq [block_norm (MkArray2 1 [[3]; [4]; [5]]) 0 1;
          block_norm (MkArray2 1 [[3]; [4]; [5]]) 1 2]
  = Rsumsq [norm2 [3]; norm2 [4]; norm2 [5]].
Proof.
  apply (precompute_norm_partition (MkArray2 1 [[3]; [4]; [5]]) [1]
           [1%nat; 2%nat] [0%nat; 1%nat] _ _ (norm2 [1] * norm2 [1])).
  - cbn. lia.
  - reflexivity.
Defined.

(** ** build_lambdas *)

(** X12: without any group there is no maximum to take: the call raises
    [ValueError], whatever the other arguments are. *)
Theorem build_lambdas_no_group (X : ndarray2) (y omega : list R)
    (g_start : list nat) (n_lambdas : nat) (delta tau : R) :
  build_lambdas X y omega [] g_start n_lambdas delta tau = Raise ValueError.
Proof.
  unfold build_lambdas. cbn [length seq mapM bind].
  destruct omega as [|w [|w' omega]]; reflexivity.
Qed.

(** X13: when [y] has not as many entries as [X] has rows, the product for the
    first group raises [ValueError] (given that there is a first group and a
    start for it). *)
Theorem build_lambdas_shape_mismatch (X : ndarray2) (y omega : list R)
    (size_groups g_start : list nat) (n_lambdas : nat) (delta tau : R) :
  length y <> n_rows X ->
  (0 < length size_groups)%nat -> (0 < length g_start)%nat ->
  build_lambdas X y omega size_groups g_start n_lambdas delta tau
  = Raise ValueError.
Proof.
  intros Hy Hs Hg. unfold build_lambdas.
  destruct size_groups as [|s ss]; [cbn in Hs; lia|].
  destruct g_start as [|a gs]; [cbn in Hg; lia|].
  cbn [length seq mapM]. unfold group_norm at 1, getitem, dot_cols_T.
  cbn [lookup list_lookup bind].
  now rewrite (proj2 (Nat.eqb_neq _ _) Hy).
Qed.

Lemma build_lambdas_shape_mismatch_witness :
  build_lambdas (MkArray2 2 [[1; 2]]) [1] [1] [1%nat] [0%nat] 3 3 (1/2)
  = Raise ValueError.
Proof. apply build_lambdas_shape_mismatch; cbn; lia. Defined.

Lemma grid_entry_0_fin lm delta n l0 :
  grid_entry lm delta n 0 = Fin l0 -> (2 <= n)%nat -> lm = Fin l0.
Proof.
  intros E Hn. unfold grid_entry in E.
  assert (INR n - 1 <> 0) as Hd by (apply le_INR in Hn; cbn in Hn; lra).
  rewrite np_div_fin in E by assumption. cbn [np_pow10] in E.
  cbn [INR] in E.
  replace (- delta * 0 / (INR n - 1)) with 0 in E by (field; lra).
  rewrite Rpower_O in E by lra.
  destruct lm as [l| | |]; cbn in E.
  - injection E as <-. f_equal. ring.
  - unfold inf_times in E. rewrite Reqb_false, Rltb_true in E by lra.
    discriminate E.
  - unfold inf_times in E. rewrite Reqb_false, Rltb_true in E by lra.
    discriminate E.
  - discriminate E.
Qed.

(** X14: a returned grid with a finite first entry is geometric: it has
    [n_lambdas] entries, each is the one before times
    [10 ** (-delta / (n_lambdas - 1))], and the last one is the first times
    [10 ** (-delta)]. *)
Theorem build_lambdas_geometric (X : ndarray2) (y omega : list R)
    (size_groups g_start : list nat) (n_lambdas : nat) (delta tau : R)
    (lambdas : list npfloat) (imax : nat) (l0 : R) :
  build_lambdas X y omega size_groups g_start n_lambdas delta tau
  = Ret (lambdas, imax) ->
  (2 <= n_lambdas)%nat ->
  lambdas !! 0%nat = Some (Fin l0) ->
  length lambdas = n_lambdas /\
  (forall i, (S i < n_lambdas)%nat ->
     exists a, lambdas !! i = Some (Fin a) /\
               lambdas !! S i
               = Some (Fin (a * Rpower 10 (- delta / (INR n_lambdas - 1))))) /\
  lambdas !! (n_lambdas - 1)%nat = Some (Fin (l0 * Rpower 10 (- delta))).
Proof.
  intros E Hn H0. unfold build_lambdas in E.
  break_bind E. break_bind E. break_bind E. break_bind E.
  injection E as <- _.
  assert (INR n_lambdas - 1 <> 0) as Hd by (apply le_INR in Hn; cbn in Hn; lra).
  rewrite lookup_seq_map in H0 by lia. injection H0 as H0.
  apply grid_entry_0_fin in H0; [|assumption]. subst.
  split; [now rewrite length_map, length_seq|]. split.
  - intros i Hi. eexists. rewrite !lookup_seq_map by lia.
    rewrite !grid_entry_fin by assumption. split; [reflexivity|].
    do 2 f_equal. rewrite Rmult_assoc, <- Rpower_plus. f_equal. f_equal.
    rewrite S_INR. field. assumption.
  - rewrite lookup_seq_map by lia. rewrite grid_entry_fin by assumption.
    rewrite minus_INR by lia. cbn [INR].
    replace (- delta * (INR n_lambdas - 1) / (INR n_lambdas - 1)) with (- delta)
      by (field; assumption).
    reflexivity.
Qed.

(** ** Definiteness *)

Lemma Rsumsq_zero x : Rsumsq x = 0 -> forall v, In v x -> v = 0.
Proof.
  induction x as [|a x IH]; intros E v Hv; [destruct Hv|].
  unfold Rsumsq in E. cbn [map Rsum fold_right] in E.
  change (fold_right Rplus 0 (map (fun v => v * v) x)) with (Rsumsq x) in E.
  pose proof (Rsumsq_nonneg x). pose proof (Rle_0_sqr a) as Ha. unfold Rsqr in Ha.
  destruct Hv as [<-|Hv].
  - assert (a * a = 0) as Hz by lra. apply Rmult_integral in Hz. tauto.
  - apply IH; [lra | exact Hv].
Qed.

Lemma Rsumsq_all_zero x : (forall v, In v x -> v = 0) -> Rsumsq x = 0.
Proof.
  induction x as [|a x IH]; intros H; [reflexivity|].
  unfold Rsumsq. cbn [map Rsum fold_right].
  change (fold_right Rplus 0 (map (fun v => v * v) x)) with (Rsumsq x).
  rewrite IH by (intros v Hv; apply H; now right).
  rewrite (H a (or_introl eq_refl)). ring.
Qed.

Lemma Rmax_list_abs_zero x :
  (forall v, In v x -> v = 0) -> Rmax_list (map Rabs x) = 0.
Proof.
  induction x as [|a x IH]; intros H; [reflexivity|].
  cbn [map Rmax_list fold_right].
  change (fold_right Rmax 0 (map Rabs x)) with (Rmax_list (map Rabs x)).
  rewrite IH by (intros v Hv; apply H; now right).
  rewrite (H a (or_introl eq_refl)), Rabs_R0. apply Rmax_left. lra.
Qed.

(** The value is a norm-like quantity: finite, non-negative, zero only on the
    zero vector. *)
Lemma epsilon_norm_zero_iff x alpha R_ :
  0 <= alpha -> 0 <= R_ -> 0 < alpha + R_ -> x <> [] ->
  exists z,
    epsilon_norm x (Fin alpha) (Fin R_) = Ret (Fin z) /\ 0 <= z /\
    (z = 0 <-> forall v, In v x -> v = 0).
Proof.
  intros Ha HR Hs Hx.
  pose proof (Rmax_list_nonneg (map Rabs x)) as HM0.
  destruct (Req_dec alpha 0) as [Ea|Ea].
  { subst alpha. exists (norm2 x / R_).
    pose proof (sqrt_pos (Rsumsq x)) as Hn. fold (norm2 x) in Hn.
    split; [|split].
    - unfold epsilon_norm. cbn [np_eqb].
      rewrite (Reqb_true 0 0), (Reqb_false R_ 0) by lra. cbn [andb negb].
      now rewrite np_div_fin by lra.
    - apply Rmult_le_pos; [exact Hn | apply Rlt_le, Rinv_0_lt_compat; lra].
    - split.
      + intros E. apply Rsumsq_zero.
        assert (norm2 x = 0) as En.
        { apply (Rmult_eq_compat_r R_) in E.
          replace (norm2 x / R_ * R_) with (norm2 x) in E by (field; lra). lra. }
        unfold norm2 in En. apply sqrt_eq_0; [apply Rsumsq_nonneg | exact En].
      + intros Hall. unfold norm2. rewrite Rsumsq_all_zero by assumption.
        rewrite sqrt_0. field. lra. }
  destruct (Req_dec R_ 0) as [Er|Er].
  { subst R_. exists (Rmax_list (map Rabs x) / alpha). split; [|split].
    - unfold epsilon_norm. cbn [np_eqb].
      rewrite (Reqb_false alpha 0), (Reqb_true 0 0) by lra. cbn [andb].
      rewrite norm_inf_nonempty by assumption. cbn [bind].
      now rewrite np_div_fin by lra.
    - apply Rmult_le_pos; [exact HM0 | apply Rlt_le, Rinv_0_lt_compat; lra].
    - split.
      + intros E. apply Rmax_list_abs_pos_all.
        apply (Rmult_eq_compat_r alpha) in E.
        replace (Rmax_list (map Rabs x) / alpha * alpha)
          with (Rmax_list (map Rabs x)) in E by (field; lra). lra.
      + intros Hall. rewrite Rmax_list_abs_zero by assumption. field. lra. }
  assert (0 < alpha) as Ha' by lra. assert (0 < R_) as HR' by lra.
  destruct (Req_dec (Rmax_list (map Rabs x)) 0) as [HM|HM].
  - exists 0. split; [|split; [lra|]].
    + rewrite epsilon_norm_eq by (try lra; assumption). cbv zeta.
      now rewrite Reqb_true.
    + split; [intros _; now apply Rmax_list_abs_pos_all | reflexivity].
  - assert (0 < Rmax_list (map Rabs x)) as HMp by lra.
    assert (~ forall v, In v x -> v = 0) as Hnz.
    { intros Hall. rewrite Rmax_list_abs_zero in HMp by assumption. lra. }
    destruct (Nat.eq_dec (n_inf x alpha R_) 1%nat) as [Hn|Hn].
    + exists (Rmax_list (map Rabs x)). split; [|split; [lra|]].
      * now apply epsilon_norm_single.
      * split; [lra | intros Hall; now destruct Hnz].
    + destruct (epsilon_norm_solves x alpha R_ Ha' HR' HMp (or_intror Hn))
        as (z & Ez & Hlo & _).
      assert (0 < Rmax_list (map Rabs x) / (alpha + R_))
        by (apply Rdiv_lt_0_compat; lra).
      exists z. split; [exact Ez|]. split; [lra|].
      split; [lra | intros Hall; now destruct Hnz].
Qed.

(** X15: for non-negative [alpha] and [R], not both zero, and a non-empty
    vector, the value is a finite non-negative number, and it is zero exactly
    when every entry of the vector is zero. *)
Theorem epsilon_norm_definite (x : list R) (alpha R_ : R) :
  0 <= alpha -> 0 <= R_ -> 0 < alpha + R_ -> x <> [] ->
  exists z,
    epsilon_norm x (Fin alpha) (Fin R_) = Ret (Fin z) /\ 0 <= z /\
    (z = 0 <-> forall v, In v x -> v = 0).
Proof. exact (epsilon_norm_zero_iff x alpha R_). Qed.

Lemma epsilon_norm_definite_witness :
  exists z,
    epsilon_norm [0; 0] (Fin 1) (Fin 2) = Ret (Fin z) /\ 0 <= z /\
    (z = 0 <-> forall v, In v [0; 0] -> v = 0).
Proof. apply epsilon_norm_definite; [lra | lra | lra | discriminate]. Defined.

(** ** The index and the value that build_lambdas picks *)

Lemma argmax_from_first (l : list R) :
  forall pre best ibest,
    pre !! ibest = Some best ->
    (forall u, In u pre -> u <= best) ->
    (forall j u, (j < ibest)%nat -> pre !! j = Some u -> u < best) ->
    exists m,
      (pre ++ l) !! argmax_from (Fin best) ibest (length pre) (map Fin l)
      = Some m /\
      (forall u, In u (pre ++ l) -> u <= m) /\
      forall j u,
        (j < argmax_from (Fin best) ibest (length pre) (map Fin l))%nat ->
        (pre ++ l) !! j = Some u -> u < m.
Proof.
  induction l as [|v l IH]; intros pre best ibest Hb Hmax Hfirst.
  - exists best. rewrite app_nil_r. cbn [map argmax_from]. auto.
  - cbn [map argmax_from]. rewrite np_le_fin.
    replace (pre ++ v :: l) with ((pre ++ [v]) ++ l) by now rewrite <- app_assoc.
    assert (S (length pre) = length (pre ++ [v])) as ->
      by (rewrite length_app; cbn; lia).
    assert (ibest < length pre)%nat as Hib by now apply lookup_lt_Some in Hb.
    unfold Rleb. destruct (Rle_dec v best) as [Hle|Hgt].
    + apply IH.
      * now rewrite lookup_app_l.
      * intros u Hu. apply in_app_or in Hu. destruct Hu as [Hu|[<-|[]]]; auto.
      * intros j u Hj Hu. rewrite lookup_app_l in Hu by lia. eauto.
    + apply IH.
      * rewrite lookup_app_r by lia. now rewrite Nat.sub_diag.
      * intros u Hu. apply in_app_or in Hu. destruct Hu as [Hu|[<-|[]]]; [|lra].
        specialize (Hmax u Hu). lra.
      * intros j u Hj Hu. rewrite lookup_app_l in Hu by lia.
        assert (In u pre) as Hin
          by (apply list_elem_of_In, list_elem_of_lookup; eauto).
        specialize (Hmax u Hin). lra.
Qed.

Lemma argmax_first (l : list R) :
  l <> [] ->
  exists imax m,
    argmax (map Fin l) = Ret imax /\ l !! imax = Some m /\
    (forall u, In u l -> u <= m) /\
    forall j u, (j < imax)%nat -> l !! j = Some u -> u < m.
Proof.
  destruct l as [|v l]; [tauto|]. intros _.
  destruct (argmax_from_first l [v] v 0%nat) as (m & Hm & Hmax & Hfirst).
  - reflexivity.
  - intros u [<-|[]]. lra.
  - intros j u Hj. lia.
  - exists (argmax_from (Fin v) 0 1 (map Fin l)), m. repeat split; assumption.
Qed.

Lemma layout_from_cover size_groups :
  forall g_start a0 p,
    layout_from a0 size_groups g_start p ->
    forall j, (a0 <= j < p)%nat ->
      exists i a s, g_start !! i = Some a /\ size_groups !! i = Some s /\
                    (a <= j < a + s)%nat.
Proof.
  induction size_groups as [|s ss IH]; intros [|g gs] a0 p H j Hj; cbn in H;
    try easy; [lia|].
  destruct H as (-> & Hs & H).
  destruct (Nat.lt_ge_cases j (a0 + s)) as [Hlt|Hge].
  - exists 0%nat, a0, s. repeat split; try reflexivity; lia.
  - destruct (IH gs (a0 + s)%nat p H j) as (i & a & s' & Ha & Hs' & Hr); [lia|].
    exists (S i), a, s'. repeat split; assumption || lia.
Qed.

Lemma in_firstn_skipn {A : Type} (l : list A) a s c :
  In c (firstn s (skipn a l)) -> In c l.
Proof.
  intros H. rewrite <- (firstn_skipn a l). apply in_or_app. right.
  rewrite <- (firstn_skipn s (skipn a l)). apply in_or_app. now left.
Qed.

Lemma lookup_firstn_skipn {A : Type} (l : list A) a s j :
  (a <= j < a + s)%nat -> firstn s (skipn a l) !! (j - a)%nat = l !! j.
Proof.
  intros Hj. rewrite lookup_take_lt by lia. rewrite lookup_drop. f_equal. lia.
Qed.

(** The per-group values of [build_lambdas] on well-formed input, the index
    that [np.argmax] picks among them, and the grid. *)
Lemma build_lambdas_values X y omega size_groups g_start n_lambdas delta tau :
  length y = n_rows X ->
  partitions (length (columns X)) size_groups g_start ->
  length omega = length size_groups -> size_groups <> [] ->
  0 <= tau <= 1 ->
  (forall w, In w omega -> 0 <= w /\ 0 < weight tau w) ->
  (2 <= n_lambdas)%nat ->
  exists nrm imax lambda_max,
    length nrm = length size_groups /\
    (forall i a s w,
        g_start !! i = Some a -> size_groups !! i = Some s ->
        omega !! i = Some w ->
        exists e,
          epsilon_norm (map (fun c => vdot c y) (firstn s (skipn a (columns X))))
            (Fin (1 - eps_of tau w)) (Fin (eps_of tau w)) = Ret (Fin e) /\
          nrm !! i = Some (e / weight tau w)) /\
    nrm !! imax = Some lambda_max /\
    (forall v, In v nrm -> v <= lambda_max) /\
    (forall j v, (j < imax)%nat -> nrm !! j = Some v -> v < lambda_max) /\
    build_lambdas X y omega size_groups g_start n_lambdas delta tau
    = Ret (map (fun i => Fin (lambda_max *
                              Rpower 10 (- delta * INR i / (INR n_lambdas - 1))))
               (seq 0 n_lambdas), imax).
Proof.
  intros Hy Hpart Hlen Hne Ht Hom Hn.
  destruct (partitions_slice _ _ _ Hpart) as [Hlen' Hslice].
  set (eps_g := map (fun w => np_div (Fin ((1 - tau) * w))
                                     (Fin (tau + (1 - tau) * w))) omega).
  set (f := group_norm X y eps_g size_groups g_start).
  set (n := length size_groups) in *.
  assert (Hgroup : forall i a s w,
             g_start !! i = Some a -> size_groups !! i = Some s ->
             omega !! i = Some w ->
             exists e,
               epsilon_norm
                 (map (fun c => vdot c y) (firstn s (skipn a (columns X))))
                 (Fin (1 - eps_of tau w)) (Fin (eps_of tau w))
               = Ret (Fin e) /\
               f i = Ret (Fin e)).
  { intros i a s w Ha Hs Hw.
    destruct (Hslice i a s Ha Hs) as [Hs1 Hend].
    assert (Hin : In w omega).
    { apply list_elem_of_In, list_elem_of_lookup. now exists i. }
    destruct (Hom w Hin) as [Hw0 Hwp].
    destruct (group_norm_finite X y omega size_groups g_start tau i a s w)
      as (XgTy & e & Hdot & He & Hfi); try assumption.
    unfold dot_cols_T in Hdot. rewrite (proj2 (Nat.eqb_eq _ _) Hy) in Hdot.
    injection Hdot as <-. now exists e. }
  assert (Hf : forall i, (i < n)%nat -> f i = Ret (Fin (value_of (f i)))).
  { intros i Hi.
    destruct (lookup_lt_is_Some_2 g_start i) as [a Ha]; [lia|].
    destruct (lookup_lt_is_Some_2 size_groups i) as [s Hs]; [assumption|].
    destruct (lookup_lt_is_Some_2 omega i) as [w Hw]; [lia|].
    destruct (Hgroup i a s w Ha Hs Hw) as (e & _ & He).
    rewrite He. reflexivity. }
  set (es := map (fun i => value_of (f i)) (seq 0 n)).
  assert (Hmap : mapM f (seq 0 n) = Ret (map Fin es)).
  { unfold es. rewrite map_map. apply mapM_seq. intros i Hi. apply Hf. lia. }
  assert (Hn0 : (0 < n)%nat).
  { unfold n. destruct size_groups; [tauto|cbn; lia]. }
  set (nrm := map (fun p => fst p / snd p) (combine es (map (weight tau) omega))).
  assert (Hles : length es = n) by (unfold es; now rewrite length_map, length_seq).
  assert (Hnrm : nrm <> []).
  { unfold nrm. destruct es as [|e0 es']; [cbn in Hles; lia|].
    destruct omega as [|w omega]; [cbn in Hlen; lia | discriminate]. }
  destruct (argmax_first nrm Hnrm) as (imax & m & Harg & Hm & Hmax & Hfirst).
  exists nrm, imax, m.
  split.
  { unfold nrm. rewrite length_map, length_combine, length_map. lia. }
  split.
  { intros i a s w Ha Hs Hw.
    destruct (Hgroup i a s w Ha Hs Hw) as (e & He & Hfi).
    exists e. split; [assumption|].
    assert (Hi : (i < n)%nat) by now apply lookup_lt_Some in Hs.
    unfold nrm.
    rewrite (lookup_combine_map _ es (map (weight tau) omega) i
               (value_of (f i)) (weight tau w)).
    - cbn [fst snd]. now rewrite <- (value_of_fin _ _ Hfi).
    - unfold es. now apply (lookup_seq_map (fun i => value_of (f i))).
    - now rewrite lookup_map, Hw. }
  split; [assumption|]. split; [assumption|]. split; [assumption|].
  unfold build_lambdas. fold eps_g. fold f. fold n. rewrite Hmap. cbn [bind].
  change (map (fun w => tau + (1 - tau) * w) omega) with (map (weight tau) omega).
  rewrite broadcast_div_fin.
  - fold nrm. cbn [bind]. rewrite Harg. cbn [bind].
    unfold getitem. rewrite lookup_map, Hm. cbn [option_map bind].
    do 2 f_equal. apply map_ext. intros i. now apply grid_entry_fin.
  - rewrite length_map. lia.
  - intros w Hin. apply in_map_iff in Hin. destruct Hin as (u & <- & Hu).
    destruct (Hom u Hu). lra.
Qed.

(** X16: the returned index is the first one that attains the largest
    per-group value: every group before it has a strictly smaller value. *)
Theorem build_lambdas_first_max (X : ndarray2) (y omega : list R)
    (size_groups g_start : list nat) (n_lambdas : nat) (delta tau : R) :
  length y = n_rows X ->
  partitions (length (columns X)) size_groups g_start ->
  length omega = length size_groups -> size_groups <> [] ->
  0 <= tau <= 1 ->
  (forall w, In w omega -> 0 <= w /\ 0 < weight tau w) ->
  (2 <= n_lambdas)%nat ->
  exists (nrm : list R) lambdas imax lambda_max,
    build_lambdas X y omega size_groups g_start n_lambdas delta tau
    = Ret (lambdas, imax) /\
    (forall i a s w,
        g_start !! i = Some a -> size_groups !! i = Some s ->
        omega !! i = Some w ->
        exists e,
          epsilon_norm (map (fun c => vdot c y) (firstn s (skipn a (columns X))))
            (Fin (1 - eps_of tau w)) (Fin (eps_of tau w)) = Ret (Fin e) /\
          nrm !! i = Some (e / weight tau w)) /\
    nrm !! imax = Some lambda_max /\
    forall j v, nrm !! j = Some v ->
      v <= lambda_max /\ ((j < imax)%nat -> v < lambda_max).
Proof.
  intros Hy Hpart Hlen Hne Ht Hom Hn.
  destruct (build_lambdas_values X y omega size_groups g_start n_lambdas delta
              tau Hy Hpart Hlen Hne Ht Hom Hn)
    as (nrm & imax & m & _ & Hval & Him & Hmax & Hfirst & Hb).
  exists nrm. eexists _, imax, m. split; [exact Hb|]. split; [exact Hval|].
  split; [exact Him|]. intros j v Hj. split.
  - apply Hmax. apply list_elem_of_In, list_elem_of_lookup. eauto.
  - intros Hlt. eauto.
Qed.

Lemma example_groups_ok :
  length [1] = n_rows (MkArray2 1 [[1]; [1]]) /\
  partitions (length (columns (MkArray2 1 [[1]; [1]]))) [1%nat; 1%nat]
    [0%nat; 1%nat] /\
  length [1; 1] = length [1%nat; 1%nat] /\
  [1%nat; 1%nat] <> [] /\
  0 <= 1 / 2 <= 1 /\
  (forall w, In w [1; 1] -> 0 <= w /\ 0 < weight (1 / 2) w) /\
  (2 <= 3)%nat.
Proof.
  split; [reflexivity|]. split; [cbn; repeat split; lia|].
  split; [reflexivity|]. split; [discriminate|]. split; [lra|].
  split; [|lia]. intros w [<-|[<-|[]]]; unfold weight; lra.
Defined.

Lemma build_lambdas_first_max_witness :
  exists (nrm : list R) lambdas imax lambda_max,
    build_lambdas (MkArray2 1 [[1]; [1]]) [1] [1; 1] [1%nat; 1%nat]
      [0%nat; 1%nat] 3 3 (1 / 2) = Ret (lambdas, imax) /\
    (forall i a s w,
        [0%nat; 1%nat] !! i = Some a -> [1%nat; 1%nat] !! i = Some s ->
        [1; 1] !! i = Some w ->
        exists e,
          epsilon_norm (map (fun c => vdot c [1])
                            (firstn s (skipn a (columns (MkArray2 1 [[1]; [1]])))))
            (Fin (1 - eps_of (1 / 2) w)) (Fin (eps_of (1 / 2) w)) = Ret (Fin e) /\
          nrm !! i = Some (e / weight (1 / 2) w)) /\
    nrm !! imax = Some lambda_max /\
    forall j v, nrm !! j = Some v ->
      v <= lambda_max /\ ((j < imax)%nat -> v < lambda_max).
Proof.
  destruct example_groups_ok as (H1 & H2 & H3 & H4 & H5 & H6 & H7).
  exact (build_lambdas_first_max _ _ _ _ _ _ 3 _ H1 H2 H3 H4 H5 H6 H7).
Defined.

(** X17: on well-formed input the largest value is non-negative, and it is zero
    exactly when every column of [X] is orthogonal to [y]; the whole grid is
    then zero. *)
Theorem build_lambdas_zero_iff (X : ndarray2) (y omega : list R)
    (size_groups g_start : list nat) (n_lambdas : nat) (delta tau : R) :
  length y = n_rows X ->
  partitions (length (columns X)) size_groups g_start ->
  length omega = length size_groups -> size_groups <> [] ->
  0 <= tau <= 1 ->
  (forall w, In w omega -> 0 <= w /\ 0 < weight tau w) ->
  (2 <= n_lambdas)%nat ->
  exists lambdas imax lambda_max,
    build_lambdas X y omega size_groups g_start n_lambdas delta tau
    = Ret (lambdas, imax) /\
    lambdas !! 0%nat = Some (Fin lambda_max) /\
    0 <= lambda_max /\
    (lambda_max = 0 <-> forall c, In c (columns X) -> vdot c y = 0) /\
    (lambda_max = 0 -> forall v, In v lambdas -> v = Fin 0).
Proof.
  intros Hy Hpart Hlen Hne Ht Hom Hn.
  destruct (build_lambdas_values X y omega size_groups g_start n_lambdas delta
              tau Hy Hpart Hlen Hne Ht Hom Hn)
    as (nrm & imax & m & Hln & Hval & Him & Hmax & _ & Hb).
  destruct (partitions_slice _ _ _ Hpart) as [Hlen' Hslice].
  (* each value is e / weight for a group, with e the norm-like value *)
  assert (Hentry : forall i v, nrm !! i = Some v ->
            exists a s w e,
              g_start !! i = Some a /\ size_groups !! i = Some s /\
              omega !! i = Some w /\ 0 < weight tau w /\
              v = e / weight tau w /\ 0 <= e /\
              (e = 0 <-> forall c, In c (firstn s (skipn a (columns X))) ->
                                   vdot c y = 0)).
  { intros i v Hv.
    assert (i < length size_groups)%nat as Hi
      by (rewrite <- Hln; now apply lookup_lt_Some in Hv).
    destruct (lookup_lt_is_Some_2 g_start i) as [a Ha]; [lia|].
    destruct (lookup_lt_is_Some_2 size_groups i) as [s Hs]; [assumption|].
    destruct (lookup_lt_is_Some_2 omega i) as [w Hw]; [lia|].
    destruct (Hval i a s w Ha Hs Hw) as (e & He & Hnrm).
    assert (In w omega) as Hin
      by (apply list_elem_of_In, list_elem_of_lookup; eauto).
    destruct (Hom w Hin) as [Hw0 Hwp].
    destruct (Hslice i a s Ha Hs) as [Hs1 Hend].
    pose proof (eps_of_range tau w Ht Hw0 Hwp) as Heps.
    destruct (epsilon_norm_zero_iff
                (map (fun c => vdot c y) (firstn s (skipn a (columns X))))
                (1 - eps_of tau w) (eps_of tau w))
      as (z & Ez & Hz0 & Hziff); try lra.
    { intros E. apply map_eq_nil in E. revert E. now apply slice_nonempty. }
    rewrite Ez in He. injection He as <-.
    exists a, s, w, z. repeat split; try assumption.
    - rewrite Hnrm in Hv. now injection Hv.
    - intros E c Hc. apply (proj1 Hziff E).
      now apply (in_map (fun c => vdot c y)).
    - intros Hall. apply (proj2 Hziff). intros u Hu.
      apply in_map_iff in Hu as (c & <- & Hc). now apply Hall. }
  destruct (Hentry imax m Him) as (a0 & s0 & w0 & e0 & _ & _ & _ & Hw0 & Em & He0 & _).
  assert (0 <= m) as Hm0.
  { rewrite Em. apply Rmult_le_pos; [exact He0|].
    apply Rlt_le, Rinv_0_lt_compat, Hw0. }
  eexists _, imax, m. split; [exact Hb|]. split; [|split; [exact Hm0|split]].
  - rewrite lookup_seq_map by lia. do 2 f_equal. cbn [INR].
    replace (- delta * 0 / (INR n_lambdas - 1)) with 0 by (unfold Rdiv; ring).
    rewrite Rpower_O by lra. ring.
  - split.
    + intros Hz c Hc.
      apply list_elem_of_In, list_elem_of_lookup in Hc as [j Hj].
      assert (j < length (columns X))%nat as Hjp by now apply lookup_lt_Some in Hj.
      destruct (layout_from_cover _ _ _ _ Hpart j) as (i & a & s & Ha & Hs & Hr);
        [lia|].
      assert (i < length nrm)%nat as Hi
        by (rewrite Hln; now apply lookup_lt_Some in Hs).
      destruct (lookup_lt_is_Some_2 nrm i Hi) as [v Hv].
      destruct (Hentry i v Hv) as (a' & s' & w & e & Ha' & Hs' & _ & Hwp & Ev & He & Hiff).
      rewrite Ha in Ha'. injection Ha' as <-.
      rewrite Hs in Hs'. injection Hs' as <-.
      assert (v <= m) as Hvm
        by (apply Hmax, list_elem_of_In, list_elem_of_lookup; eauto).
      assert (e = 0) as Ee.
      { assert (0 <= v) as Hv0.
        { rewrite Ev. apply Rmult_le_pos; [exact He|].
          apply Rlt_le, Rinv_0_lt_compat, Hwp. }
        assert (v = 0) as Ev0 by lra. rewrite Ev in Ev0.
        apply (Rmult_eq_compat_r (weight tau w)) in Ev0.
        replace (e / weight tau w * weight tau w) with e in Ev0 by (field; lra).
        lra. }
      apply (proj1 Hiff Ee).
      apply list_elem_of_In, list_elem_of_lookup. exists (j - a)%nat.
      now rewrite lookup_firstn_skipn.
    + intros Hall.
      destruct (Hentry imax m Him) as (a & s & w & e & _ & _ & _ & Hwp & Ev & _ & Hiff).
      assert (e = 0) as ->.
      { apply (proj2 Hiff). intros c Hc. apply Hall.
        now apply in_firstn_skipn in Hc. }
      rewrite Ev. field. lra.
  - intros -> v Hv. apply in_map_iff in Hv as (i & <- & _). f_equal. ring.
Qed.

Lemma build_lambdas_zero_iff_witness :
  exists lambdas imax lambda_max,
    build_lambdas (MkArray2 1 [[1]; [1]]) [1] [1; 1] [1%nat; 1%nat]
      [0%nat; 1%nat] 3 3 (1 / 2) = Ret (lambdas, imax) /\
    lambdas !! 0%nat = Some (Fin lambda_max) /\
    0 <= lambda_max /\
    (lambda_max = 0 <->
     forall c, In c (columns (MkArray2 1 [[1]; [1]])) -> vdot c [1] = 0) /\
    (lambda_max = 0 -> forall v, In v lambdas -> v = Fin 0).
Proof.
  destruct example_groups_ok as (H1 & H2 & H3 & H4 & H5 & H6 & H7).
  exact (build_lambdas_zero_iff _ _ _ _ _ _ 3 _ H1 H2 H3 H4 H5 H6 H7).
Defined.

Lemma build_lambdas_geometric_witness :
  exists lambdas l0,
    lambdas !! 0%nat = Some (Fin l0) /\
    length lambdas = 3%nat /\
    lambdas !! (3 - 1)%nat = Some (Fin (l0 * Rpower 10 (- 3))).
Proof.
  destruct example_groups_ok as (H1 & H2 & H3 & H4 & H5 & H6 & H7).
  destruct (build_lambdas_values _ _ _ _ _ 3 3 _ H1 H2 H3 H4 H5 H6 H7)
    as (nrm & imax & m & _ & _ & _ & _ & _ & Hb).
  assert (map (fun i => Fin (m * Rpower 10 (- 3 * INR i / (INR 3 - 1))))
              (seq 0 3) !! 0%nat = Some (Fin m)) as H0.
  { cbn [seq map lookup list_lookup INR]. do 2 f_equal.
    replace (- 3 * 0 / (1 + 1 + 1 - 1)) with 0 by field.
    rewrite Rpower_O by lra. ring. }
  destruct (build_lambdas_geometric _ _ _ _ _ _ _ _ _ _ m Hb H7 H0)
    as (Hl & _ & Hlast).
  eexists _, m. split; [exact H0|]. split; [exact Hl | exact Hlast].
Defined.

(** ** logreg_path: before the loop *)

(** X18: with at least one sample and [eps >= 0] the tolerance lies between
    [eps / n_samples] and [eps], and it is at most [eps / 2] from two samples
    on, whatever the labels are. *)
Theorem tolerance_bounds (eps : R) (n_samples : nat) (y : list R) :
  0 <= eps -> n_samples <> 0%nat ->
  exists tol,
    tolerance eps n_samples y = Ret tol /\
    eps / INR n_samples <= tol <= eps /\
    ((2 <= n_samples)%nat -> tol <= eps / 2).
Proof.
  intros He Hn. unfold tolerance. rewrite (proj2 (Nat.eqb_neq _ _) Hn).
  eexists. split; [reflexivity|].
  set (m := Z.max 1 (Z.min (count_ones y) (Z.of_nat n_samples - count_ones y))).
  assert (1 <= m)%Z as Hm1 by (unfold m; lia).
  assert (2 * m <= Z.max 2 (Z.of_nat n_samples))%Z as Hm2 by (unfold m; lia).
  assert (0 < INR n_samples) as Hnpos by (apply lt_0_INR; lia).
  assert (1 <= IZR m) as Hm1' by now apply IZR_le.
  assert (IZR m <= INR n_samples) as Hmn.
  { rewrite INR_IZR_INZ. apply IZR_le. lia. }
  assert (forall a b, 0 <= a -> a <= b -> eps * a / INR n_samples
                                           <= eps * b / INR n_samples) as Hmono.
  { intros a b Ha Hab. unfold Rdiv. apply Rmult_le_compat_r.
    - apply Rlt_le, Rinv_0_lt_compat, Hnpos.
    - now apply Rmult_le_compat_l. }
  split; [split|].
  - replace (eps / INR n_samples) with (eps * 1 / INR n_samples)
      by (unfold Rdiv; ring).
    apply Hmono; lra.
  - replace eps with (eps * INR n_samples / INR n_samples) at 2
      by (field; lra).
    apply Hmono; lra.
  - intros H2.
    assert (2 * IZR m <= INR n_samples) as Hhalf.
    { rewrite INR_IZR_INZ, <- mult_IZR. apply IZR_le. lia. }
    replace (eps / 2) with (eps * (INR n_samples / 2) / INR n_samples)
      by (field; lra).
    apply Hmono; lra.
Qed.

Lemma tolerance_bounds_witness :
  exists tol,
    tolerance (1 / 10000) 4 [1; 0; 1; 0] = Ret tol /\
    1 / 10000 / INR 4 <= tol <= 1 / 10000 /\
    ((2 <= 4)%nat -> tol <= 1 / 10000 / 2).
Proof. apply tolerance_bounds; [lra | lia]. Defined.

(** X19: on a dataset without samples the tolerance divides by zero: the call
    raises [ZeroDivisionError], whatever the other arguments are. *)
Theorem logreg_path_no_samples
    (cd_logreg : kernel_args -> buffers -> kernel_out * buffers)
    (X : ndarray2) (y : list R) (lambdas : lambdas_arg) (eps : R)
    (max_iter f : Z) (beta0 : option (list R)) (screening : Z)
    (gap strong : bool) :
  n_rows X = 0%nat ->
  logreg_path cd_logreg X y lambdas eps max_iter f beta0 screening gap strong
  = Raise ZeroDivisionError.
Proof.
  intros Hn. unfold logreg_path, logreg_path_run, tolerance.
  now rewrite Hn.
Qed.

Lemma logreg_path_no_samples_witness :
  logreg_path (kernel_all_active 1) (MkArray2 0 [[]]) [] (NdArray [1])
    (1 / 10000) 3000 10 None 2 false false = Raise ZeroDivisionError.
Proof. now apply logreg_path_no_samples. Defined.

(** X20: with samples, a target whose length is not the number of samples, or
    initial coefficients whose length is not the number of features, make
    the initialisation raise [ValueError] (before [lambdas] is read: also on
    an empty grid), and the kernel is never called. *)
Theorem logreg_path_shape_mismatch
    (cd_logreg : kernel_args -> buffers -> kernel_out * buffers)
    (X : ndarray2) (y : list R) (lambdas : lambdas_arg) (eps : R)
    (max_iter f : Z) (beta0 : option (list R)) (screening : Z)
    (gap strong : bool) :
  n_rows X <> 0%nat ->
  length y <> n_rows X \/
  (exists b, beta0 = Some b /\ length b <> length (columns X)) ->
  initial_state X y (as_grid lambdas) beta0 = Raise ValueError /\
  logreg_path cd_logreg X y lambdas eps max_iter f beta0 screening gap strong
  = Raise ValueError.
Proof.
  intros Hn Hbad.
  assert (initial_state X y (as_grid lambdas) beta0 = Raise ValueError) as Hi.
  { unfold initial_state. destruct beta0 as [b|].
    - unfold mat_vec.
      destruct (Nat.eqb (length b) (length (columns X))) eqn:Eb; cbn [bind].
      + destruct (Nat.eqb (length y) (n_rows X)) eqn:Ey; cbn [negb];
          [|reflexivity].
        apply Nat.eqb_eq in Eb, Ey. destruct Hbad as [H|(b' & [= <-] & H)];
          contradiction.
      + reflexivity.
    - destruct Hbad as [Hy|(b' & [=] & _)]. cbn [bind].
      unfold matT_vec, dot_cols_T. rewrite length_map.
      now rewrite (proj2 (Nat.eqb_neq _ _) Hy). }
  split; [exact Hi|].
  unfold logreg_path, logreg_path_run.
  destruct (tolerance_ret eps (n_rows X) y Hn) as [tol ->]. cbn [bind].
  now rewrite Hi.
Qed.

Lemma logreg_path_shape_mismatch_witness :
  logreg_path (kernel_all_active 1) (MkArray2 1 [[1]]) [1; 0] (NdArray [])
    (1 / 10000) 3000 10 None 2 false false = Raise ValueError.
Proof.
  apply (logreg_path_shape_mismatch (kernel_all_active 1) (MkArray2 1 [[1]])
           [1; 0] (NdArray []) (1 / 10000) 3000 10 None 2 false false).
  - cbn. lia.
  - left. cbn. lia.
Defined.

(** ** logreg_path: the trace of kernel calls *)

Lemma same_iterate_refl b : same_iterate b b.
Proof. now repeat split. Qed.

Lemma threaded_app strong l1 :
  forall s l2,
    threaded strong s (l1 ++ l2) <->
    threaded strong s l1 /\ threaded strong (fold_left thread_next l1 s) l2.
Proof.
  induction l1 as [|c l1 IH]; intros s l2; cbn [app threaded fold_left].
  - tauto.
  - rewrite IH. tauto.
Qed.

Lemma initial_state_inv X y g b st0 :
  initial_state X y g b = Ret st0 ->
  calls st0 = [] /\ warnings st0 = [] /\ run_active_warm_start st0 = true /\
  betas st0 = repeat (zeros (length (columns X))) (grid_len g) /\
  gaps st0 = repeat 1 (grid_len g) /\
  n_iters st0 = repeat 0%Z (grid_len g) /\
  n_active_features st0 = repeat 0%Z (grid_len g) /\
  disabled_features (buf st0) = repeat 0%Z (length (columns X)) /\
  grid_get g 0 = Ret (dual_scale st0).
Proof.
  unfold initial_state. intros H. break_bind_as H i.
  destruct i as [[[[bi n1] po] xb] r].
  break_bind_as H xtr. break_bind_as H ds. injection H as <-. cbn.
  now repeat split.
Qed.

Section Trace.

Variable cd_logreg : kernel_args -> buffers -> kernel_out * buffers.
Variables (X : ndarray2) (y : list R) (lambdas : grid).
Variables (tol : R) (norm_X2 : list R) (max_iter f screening : Z).
Variables (gap strong : bool).

Local Abbreviation warm_start :=
  (warm_start cd_logreg X y lambdas tol norm_X2 max_iter f screening
              gap strong).
Local Abbreviation definitive :=
  (definitive cd_logreg X y lambdas tol norm_X2 max_iter f screening).
Local Abbreviation path_step :=
  (path_step cd_logreg X y lambdas tol norm_X2 max_iter f screening
             gap strong).
Local Abbreviation path_loop :=
  (path_loop cd_logreg X y lambdas tol norm_X2 max_iter f screening
             gap strong).
Local Abbreviation warm_buffers := (warm_buffers lambdas strong).
Local Abbreviation warm_decision := (warm_decision X gap).
Local Abbreviation kernel_call :=
  (kernel_call X y tol norm_X2 max_iter f screening).

(** The three ways through lines 140-155. *)
Lemma warm_start_cases t st st1 :
  warm_start t st = Ret st1 ->
  (st1 = st /\ (strong || gap) && negb (Nat.eqb t 0) = false) \/
  (exists b,
      (strong || gap) && negb (Nat.eqb t 0) = true /\
      warm_buffers t st = Ret b /\ warm_decision t st = Ret false /\
      st1 = MkState b (p_obj st) (norm1_beta st) (dual_scale st) false
              (betas st) (gaps st) (n_iters st) (n_active_features st)
              (calls st) (warnings st)) \/
  (exists b lam_t,
      (strong || gap) && negb (Nat.eqb t 0) = true /\
      warm_buffers t st = Ret b /\ warm_decision t st = Ret true /\
      grid_get lambdas t = Ret lam_t /\
      let args := kernel_call st lam_t true in
      let r := cd_logreg args b in
      st1 = MkState (snd r) (Scalar (o_p_obj (fst r))) (o_norm1_beta (fst r))
              (dual_scale st) true
              (betas st) (gaps st) (n_iters st) (n_active_features st)
              (calls st ++ [MkCall t args b (fst r) (snd r)]) (warnings st)).
Proof.
  unfold SaveLogreg.warm_start. intros H.
  destruct ((strong || gap) && negb (Nat.eqb t 0)) eqn:Hc.
  - break_bind_as H b. break_bind_as H run. destruct run.
    + break_bind_as H lam_t. right. right. exists b, lam_t.
      repeat split; try assumption.
      cbv zeta.
      destruct (cd_logreg _ b) as [out b'] eqn:Ek. injection H as <-.
      reflexivity.
    + right. left. exists b. injection H as <-. now repeat split.
  - left. injection H as <-. now split.
Qed.

Lemma definitive_cases t st st' :
  definitive t st = Ret st' ->
  exists lam_t,
    grid_get lambdas t = Ret lam_t /\
    let args := kernel_call st lam_t false in
    let r := cd_logreg args (buf st) in
    st' = MkState (snd r) (Scalar (o_p_obj (fst r))) (o_norm1_beta (fst r))
            (Scalar (o_dual_scale (fst r))) (run_active_warm_start st)
            (<[t := beta_init (snd r)]> (betas st))
            (<[t := o_gap (fst r)]> (gaps st))
            (<[t := o_n_iter (fst r)]> (n_iters st))
            (<[t := o_n_active (fst r)]> (n_active_features st))
            (calls st ++ [MkCall t args (buf st) (fst r) (snd r)])
            (if Rltb tol (Rabs (o_gap (fst r))) then warnings st ++ [t]
             else warnings st).
Proof.
  unfold SaveLogreg.definitive. intros H. break_bind_as H lam_t. exists lam_t.
  split; [reflexivity|]. cbv zeta.
  destruct (cd_logreg _ (buf st)) as [out b'] eqn:Ek. injection H as <-.
  reflexivity.
Qed.

End Trace.

Section TraceLoops.

Variable cd_logreg : kernel_args -> buffers -> kernel_out * buffers.
Variables (X : ndarray2) (y : list R) (lambdas : grid).
Variables (tol : R) (norm_X2 : list R) (max_iter f screening : Z).
Variables (gap strong : bool).

Local Abbreviation warm_start :=
  (warm_start cd_logreg X y lambdas tol norm_X2 max_iter f screening
              gap strong).
Local Abbreviation definitive :=
  (definitive cd_logreg X y lambdas tol norm_X2 max_iter f screening).
Local Abbreviation path_step :=
  (path_step cd_logreg X y lambdas tol norm_X2 max_iter f screening
             gap strong).
Local Abbreviation path_loop :=
  (path_loop cd_logreg X y lambdas tol norm_X2 max_iter f screening
             gap strong).
Local Abbreviation warm_buffers := (warm_buffers lambdas strong).
Local Abbreviation warm_decision := (warm_decision X gap).
Local Abbreviation kernel_call :=
  (kernel_call X y tol norm_X2 max_iter f screening).

Local Abbreviation kinds := (step_kinds gap strong (n_features X)).

(** *** The calls of one step, by index and mode *)

Lemma path_step_schedule t st st' :
  path_step t st = Ret st' ->
  (gap = true -> n_active_features st !! t = Some 0%Z) ->
  (gap = false -> run_active_warm_start st = true) ->
  map call_kind (calls st') = map call_kind (calls st) ++ kinds t /\
  (gap = false -> run_active_warm_start st' = true).
Proof.
  intros H Hgap Hrun.
  apply path_step_inv in H as (st1 & Hw & Hd).
  apply definitive_cases in Hd as (lam & _ & ->). cbn [calls run_active_warm_start].
  rewrite map_app. cbn [map call_kind c_t c_args a_wstr_plus SaveLogreg.kernel_call].
  apply warm_start_cases in Hw as [[-> Hc]|[(b & Hc & _ & Hdec & ->)|(b & lam_t & Hc & _ & Hdec & _ & ->)]].
  - split; [|assumption]. f_equal. unfold step_kinds, warms.
    destruct (Nat.eqb t 0); [reflexivity|]. cbn [negb andb] in *.
    rewrite andb_true_r in Hc. apply orb_false_elim in Hc as [-> ->].
    reflexivity.
  - apply andb_prop in Hc as [Hact Ht]. cbn [calls run_active_warm_start].
    apply warm_decision_spec in Hdec as [Hd0 Hd1].
    destruct gap.
    + split; [|discriminate]. f_equal. unfold step_kinds, warms. rewrite Ht. cbn [andb].
      destruct (Hd1 eq_refl) as (n & Hn & Hlt).
      rewrite (Hgap eq_refl) in Hn. injection Hn as <-.
      unfold n_features in *.
      destruct (length (columns X)); [reflexivity|].
      cbn in Hlt. discriminate Hlt.
    + rewrite (Hrun eq_refl) in Hd0. now specialize (Hd0 eq_refl).
  - apply andb_prop in Hc as [Hact Ht]. cbv zeta.
    cbn [calls run_active_warm_start].
    rewrite map_app, <- app_assoc.
    cbn [map call_kind c_t c_args a_wstr_plus SaveLogreg.kernel_call app].
    split; [|reflexivity]. f_equal. unfold step_kinds, warms. rewrite Ht. cbn [andb].
    apply warm_decision_spec in Hdec as [Hd0 Hd1].
    destruct gap.
    + destruct (Hd1 eq_refl) as (n & Hn & Hlt).
      rewrite (Hgap eq_refl) in Hn. injection Hn as <-.
      unfold n_features in *.
      destruct (length (columns X)); [cbn in Hlt; discriminate Hlt|reflexivity].
    + rewrite orb_false_r in Hact. now rewrite Hact.
Qed.

Lemma path_loop_schedule k :
  forall a st st',
    path_loop (seq a k) st = Ret st' ->
    (gap = true ->
     forall i, (a <= i < a + k)%nat -> n_active_features st !! i = Some 0%Z) ->
    (gap = false -> run_active_warm_start st = true) ->
    map call_kind (calls st')
    = map call_kind (calls st) ++ flat_map kinds (seq a k).
Proof.
  induction k as [|k IH]; intros a st st' H Hgap Hrun.
  - injection H as <-. cbn. now rewrite app_nil_r.
  - cbn [seq SaveLogreg.path_loop] in H. break_bind_as H st1.
    destruct (path_step_schedule a st st1 E) as [Hk Hrun1].
    { intros Hg. apply (Hgap Hg). lia. }
    { assumption. }
    rewrite (IH (S a) st1 st' H).
    + rewrite Hk. cbn [seq flat_map]. now rewrite <- app_assoc.
    + intros Hg i Hi.
      destruct (path_step_frame _ _ _ _ _ _ _ _ _ _ _ _ _ _ E) as [_ Hfr].
      destruct (Hfr i) as (_ & _ & _ & ->); [lia|]. apply (Hgap Hg). lia.
    + assumption.
Qed.

(** *** What each call receives *)

Lemma warm_buffers_iterate t st b :
  warm_buffers t st = Ret b ->
  same_iterate b (buf st) /\ (strong = false -> b = buf st).
Proof.
  unfold SaveLogreg.warm_buffers. destruct strong.
  - intros H. break_bind_as H lam_t. break_bind_as H lam_prev.
    break_bind_as H m. injection H as <-. split; [|discriminate].
    now repeat split.
  - intros [= <-]. split; [apply same_iterate_refl | reflexivity].
Qed.

Lemma not_nil_snoc {A : Type} (l : list A) (x : A) :
  match l ++ [x] with [] => true | _ => false end = false.
Proof. now destruct l. Qed.

Lemma path_step_threaded t st st' s0 :
  path_step t st = Ret st' ->
  (calls st = [] -> t = 0%nat) ->
  threaded strong s0 (calls st) ->
  fold_left thread_next (calls st) s0 = state_thread st ->
  threaded strong s0 (calls st') /\
  fold_left thread_next (calls st') s0 = state_thread st'.
Proof.
  intros H Hfirst Hth Hfold. unfold state_thread in *.
  apply path_step_inv in H as (st1 & Hw & Hd).
  apply definitive_cases in Hd as (lam & _ & ->). cbv zeta.
  cbn [calls buf p_obj norm1_beta dual_scale].
  rewrite threaded_app, fold_left_app, not_nil_snoc.
  apply warm_start_cases in Hw
    as [[-> Hc]|[(b & Hc & Hb & _ & ->)|(b & lam_t & Hc & Hb & _ & _ & ->)]].
  - rewrite Hfold.
    cbn [fold_left threaded thread_next thread_ok c_args c_in c_after c_ret
         a_wstr_plus a_p_obj a_norm1_beta a_dual_scale SaveLogreg.kernel_call].
    repeat split; try assumption; reflexivity.
  - cbn [calls buf p_obj norm1_beta dual_scale]. rewrite Hfold.
    destruct (warm_buffers_iterate _ _ _ Hb) as [Hsame Heq].
    apply andb_prop in Hc as [_ Ht]. apply negb_true_iff, Nat.eqb_neq in Ht.
    cbn [fold_left threaded thread_next thread_ok c_args c_in c_after c_ret
         a_wstr_plus a_p_obj a_norm1_beta a_dual_scale SaveLogreg.kernel_call].
    repeat split; try assumption; try apply Hsame.
    intros [Hs|Hs]; [now rewrite Heq|].
    destruct (calls st); [now specialize (Hfirst eq_refl) | discriminate Hs].
  - cbv zeta. cbn [calls buf p_obj norm1_beta dual_scale].
    rewrite threaded_app, fold_left_app, Hfold.
    destruct (warm_buffers_iterate _ _ _ Hb) as [Hsame Heq].
    apply andb_prop in Hc as [_ Ht]. apply negb_true_iff, Nat.eqb_neq in Ht.
    cbn [fold_left threaded thread_next thread_ok c_args c_in c_after c_ret
         a_wstr_plus a_p_obj a_norm1_beta a_dual_scale SaveLogreg.kernel_call].
    repeat split; try assumption; try apply Hsame.
    intros [Hs|Hs]; [now rewrite Heq|].
    destruct (calls st); [now specialize (Hfirst eq_refl) | discriminate Hs].
Qed.

Lemma path_step_calls_nonempty t st st' :
  path_step t st = Ret st' -> calls st' <> [].
Proof.
  intros H. apply path_step_inv in H as (st1 & _ & Hd).
  apply definitive_cases in Hd as (lam & _ & ->). cbv zeta. cbn [calls].
  now destruct (calls st1).
Qed.

Lemma path_loop_threaded k :
  forall a st st' s0,
    path_loop (seq a k) st = Ret st' ->
    (calls st = [] -> a = 0%nat) ->
    threaded strong s0 (calls st) ->
    fold_left thread_next (calls st) s0 = state_thread st ->
    threaded strong s0 (calls st') /\
    fold_left thread_next (calls st') s0 = state_thread st'.
Proof.
  induction k as [|k IH]; intros a st st' s0 H Hfirst Hth Hfold.
  - injection H as <-. now split.
  - cbn [seq SaveLogreg.path_loop] in H. break_bind_as H st1.
    destruct (path_step_threaded a st st1 s0 E Hfirst Hth Hfold)
      as [Hth1 Hfold1].
    apply (IH (S a) st1); try assumption.
    intros Hnil. now apply path_step_calls_nonempty in E.
Qed.

(** *** The arguments that do not change, and the penalty *)

Local Abbreviation args_ok :=
  (call_args_ok cd_logreg X y lambdas tol norm_X2 max_iter f screening).

Lemma path_step_args t st st' :
  path_step t st = Ret st' ->
  (forall c, In c (calls st) -> args_ok c) ->
  forall c, In c (calls st') -> args_ok c.
Proof.
  intros H Hall.
  apply path_step_inv in H as (st1 & Hw & Hd).
  apply definitive_cases in Hd as (lam & Hlam & ->). cbv zeta. cbn [calls].
  assert (forall c, In c (calls st1) -> args_ok c) as Hall1.
  { apply warm_start_cases in Hw as [[-> Hc]|[(b & Hc & Hb & _ & ->)|(b & lam_t & Hc & Hb & _ & Hl & ->)]];
      try assumption.
    cbv zeta. cbn [calls]. intros c Hc'. apply in_app_or in Hc' as [Hc'|[<-|[]]];
      [now apply Hall|].
    unfold call_args_ok.
    cbn [c_args c_in c_after c_ret c_t a_X a_y a_norm_X2 a_tol a_max_iter a_f
         a_screening a_lambda SaveLogreg.kernel_call].
    repeat split; try assumption. now destruct (cd_logreg _ b). }
  intros c Hc'. apply in_app_or in Hc' as [Hc'|[<-|[]]]; [now apply Hall1|].
  unfold call_args_ok.
  cbn [c_args c_in c_after c_ret c_t a_X a_y a_norm_X2 a_tol a_max_iter a_f
       a_screening a_lambda SaveLogreg.kernel_call].
  repeat split; try assumption. now destruct (cd_logreg _ (buf st1)).
Qed.

Lemma path_loop_args ts :
  forall st st',
    path_loop ts st = Ret st' ->
    (forall c, In c (calls st) -> args_ok c) ->
    forall c, In c (calls st') -> args_ok c.
Proof.
  induction ts as [|t ts IH]; intros st st' H Hall.
  - now injection H as <-.
  - cbn [SaveLogreg.path_loop] in H. break_bind_as H st1.
    apply (IH st1 st' H). now apply (path_step_args t st).
Qed.

(** *** The warnings *)

Lemma path_step_warnings t st st' :
  path_step t st = Ret st' -> (t < length (gaps st))%nat ->
  warnings st' = warnings st ++ unconverged tol (gaps st') [t].
Proof.
  intros H Ht.
  apply path_step_inv in H as (st1 & Hw & Hd).
  apply warm_start_spec in Hw as (_ & Hg & _ & _ & _ & Hwarn & _).
  apply definitive_cases in Hd as (lam & _ & ->). cbv zeta.
  cbn [warnings gaps]. unfold unconverged. cbn [List.filter].
  rewrite list_lookup_insert_eq by (rewrite Hg; exact Ht). rewrite Hwarn.
  destruct (Rltb tol _); [reflexivity | now rewrite app_nil_r].
Qed.

Lemma unconverged_ext g1 g2 ts :
  (forall t, In t ts -> g1 !! t = g2 !! t) ->
  unconverged tol g1 ts = unconverged tol g2 ts.
Proof.
  intros H. unfold unconverged. induction ts as [|t ts IH]; [reflexivity|].
  cbn [List.filter]. rewrite (H t (or_introl eq_refl)).
  rewrite IH by (intros u Hu; apply H; now right). reflexivity.
Qed.

Lemma unconverged_cons g t ts :
  unconverged tol g (t :: ts) = unconverged tol g [t] ++ unconverged tol g ts.
Proof.
  unfold unconverged. cbn [List.filter].
  destruct (match g !! t with Some v => Rltb tol (Rabs v) | None => false end);
    reflexivity.
Qed.

Lemma path_loop_warnings k :
  forall a st st',
    path_loop (seq a k) st = Ret st' -> (a + k <= length (gaps st))%nat ->
    warnings st' = warnings st ++ unconverged tol (gaps st') (seq a k).
Proof.
  induction k as [|k IH]; intros a st st' H Hlen.
  - injection H as <-. cbn. now rewrite app_nil_r.
  - cbn [seq SaveLogreg.path_loop] in H. break_bind_as H st1.
    pose proof (path_step_warnings a st st1 E ltac:(lia)) as H1.
    destruct (path_step_frame _ _ _ _ _ _ _ _ _ _ _ _ _ _ E) as [(_ & Hl & _) _].
    rewrite (IH (S a) st1 st' H) by lia. rewrite H1, <- app_assoc. f_equal.
    destruct (path_loop_frame _ _ _ _ _ _ _ _ _ _ _ _ _ _ H) as [_ Hfr].
    destruct (Hfr a) as (_ & Hga & _); [rewrite in_seq; lia|].
    cbn [seq]. rewrite (unconverged_cons (gaps st')). f_equal.
    apply unconverged_ext. intros t [<-|[]]. now symmetry.
Qed.

End TraceLoops.

(** ** logreg_path: whole runs *)

Lemma logreg_path_run_inv cd X y lambdas eps max_iter f beta0 screening
    gap strong st :
  logreg_path_run cd X y lambdas eps max_iter f beta0 screening gap strong
  = Ret st ->
  exists tol st0,
    tolerance eps (n_rows X) y = Ret tol /\
    initial_state X y (as_grid lambdas) beta0 = Ret st0 /\
    path_loop cd X y (as_grid lambdas) tol (map Rsumsq (columns X))
      max_iter f screening gap strong (seq 0 (grid_len (as_grid lambdas))) st0
    = Ret st.
Proof.
  unfold logreg_path_run. intros H. break_bind_as H tol. break_bind_as H st0.
  now exists tol, st0.
Qed.

Lemma threaded_adjacent strong cs :
  forall s,
    threaded strong s cs ->
    forall i d c,
      cs !! i = Some d -> cs !! S i = Some c ->
      same_iterate (c_in c) (c_after d) /\
      (strong = false \/ is_warm d ->
       disabled_features (c_in c) = disabled_features (c_after d)) /\
      a_p_obj (c_args c) = Scalar (o_p_obj (c_ret d)) /\
      a_norm1_beta (c_args c) = o_norm1_beta (c_ret d) /\
      a_dual_scale (c_args c)
      = if a_wstr_plus (c_args d) then a_dual_scale (c_args d)
        else Scalar (o_dual_scale (c_ret d)).
Proof.
  induction cs as [|c0 cs IH]; intros s Hth i d c Hd Hc; [discriminate Hd|].
  destruct Hth as [Hok Hth]. destruct i as [|i].
  - injection Hd as ->. destruct cs as [|c1 cs]; [discriminate Hc|].
    injection Hc as ->. destruct Hth as [Hok1 _].
    destruct s as [[[[aw b] po] n1] ds].
    destruct Hok as (_ & _ & _ & _ & Hds).
    cbn [thread_next thread_ok] in Hok1.
    destruct Hok1 as (H1 & H2 & H3 & H4 & H5).
    repeat split; try assumption; try apply H1.
    now rewrite Hds.
  - now apply (IH (thread_next s c0) Hth i).
Qed.

(** X21: the calls of a run, in order, are determined by the two flags, the
    number of features and the number of penalties: one definitive call per
    index, preceded by a warm-start call at every index but the first when
    warm starts are on (always under the strong strategy alone; under the gap
    strategy as soon as there is a feature). *)
Theorem logreg_path_schedule
    (cd_logreg : kernel_args -> buffers -> kernel_out * buffers)
    (X : ndarray2) (y : list R) (lambdas : lambdas_arg) (eps : R)
    (max_iter f : Z) (beta0 : option (list R)) (screening : Z)
    (gap strong : bool) (st : path_state) :
  logreg_path_run cd_logreg X y lambdas eps max_iter f beta0 screening
                  gap strong = Ret st ->
  map call_kind (calls st)
  = schedule gap strong (n_features X) (grid_len (as_grid lambdas)).
Proof.
  intros H. apply logreg_path_run_inv in H as (tol & st0 & _ & Hi & Hl).
  apply initial_state_inv in Hi as (Hc & _ & Hrun & _ & _ & _ & Hna & _).
  rewrite (path_loop_schedule _ _ _ _ _ _ _ _ _ _ _ _ _ _ _ Hl).
  - now rewrite Hc.
  - intros _ i Hi. rewrite Hna. apply lookup_repeat. lia.
  - intros _. exact Hrun.
Qed.

Lemma example_run gap strong :
  exists st,
    logreg_path_run (kernel_all_active 1) (MkArray2 1 [[1]]) [1]
      (NdArray [1; 1 / 2]) (1 / 10000) 3000 10 None 2 gap strong = Ret st.
Proof.
  rewrite logreg_path_run_prefix. apply prefix_total.
  - apply example_well_formed. cbn. lia.
  - lia.
Defined.

Lemma logreg_path_schedule_witness :
  exists st,
    logreg_path_run (kernel_all_active 1) (MkArray2 1 [[1]]) [1]
      (NdArray [1; 1 / 2]) (1 / 10000) 3000 10 None 2 true false = Ret st /\
    map call_kind (calls st) = [(0, false); (1, true); (1, false)]%nat.
Proof.
  destruct (example_run true false) as [st Hst]. exists st.
  split; [exact Hst|]. exact (logreg_path_schedule _ _ _ _ _ _ _ _ _ _ _ _ Hst).
Defined.

(** X22: the iterate is threaded through the calls in place: the first call
    receives the initial state, and every later call receives the arrays as
    the call before left them (the mask too, except where the strong strategy
    rebuilds it before a warm start), the objective and the norm that call
    returned, and the dual scale returned by the last definitive call: the
    one a warm-start call returns is dropped. *)
Theorem logreg_path_threaded
    (cd_logreg : kernel_args -> buffers -> kernel_out * buffers)
    (X : ndarray2) (y : list R) (lambdas : lambdas_arg) (eps : R)
    (max_iter f : Z) (beta0 : option (list R)) (screening : Z)
    (gap strong : bool) (st : path_state) :
  logreg_path_run cd_logreg X y lambdas eps max_iter f beta0 screening
                  gap strong = Ret st ->
  exists st0,
    initial_state X y (as_grid lambdas) beta0 = Ret st0 /\
    (forall c, calls st !! 0%nat = Some c ->
       c_in c = buf st0 /\ a_p_obj (c_args c) = p_obj st0 /\
       a_norm1_beta (c_args c) = norm1_beta st0 /\
       a_dual_scale (c_args c) = dual_scale st0) /\
    (forall i d c,
       calls st !! i = Some d -> calls st !! S i = Some c ->
       same_iterate (c_in c) (c_after d) /\
       (strong = false \/ is_warm d ->
        disabled_features (c_in c) = disabled_features (c_after d)) /\
       a_p_obj (c_args c) = Scalar (o_p_obj (c_ret d)) /\
       a_norm1_beta (c_args c) = o_norm1_beta (c_ret d) /\
       a_dual_scale (c_args c)
       = if a_wstr_plus (c_args d) then a_dual_scale (c_args d)
         else Scalar (o_dual_scale (c_ret d))) /\
    (forall d, last (calls st) = Some d ->
       buf st = c_after d /\ p_obj st = Scalar (o_p_obj (c_ret d)) /\
       norm1_beta st = o_norm1_beta (c_ret d)).
Proof.
  intros H. apply logreg_path_run_inv in H as (tol & st0 & _ & Hi & Hl).
  exists st0. split; [exact Hi|].
  apply initial_state_inv in Hi as (Hc & _).
  destruct (path_loop_threaded _ _ _ _ _ _ _ _ _ _ _ _ _ _ _
              (state_thread st0) Hl) as [Hth Hfold].
  { reflexivity. }
  { now rewrite Hc. }
  { now rewrite Hc. }
  split; [|split].
  - intros c Hc0. destruct (calls st) as [|c0 cs] eqn:Ecs; [discriminate Hc0|].
    injection Hc0 as ->. destruct Hth as [Hok _].
    unfold state_thread in Hok. rewrite Hc in Hok. cbn [thread_ok] in Hok.
    destruct Hok as ((H1 & H2 & H3 & H4 & H5 & H6) & Hm & Hp & Hn & Hd).
    specialize (Hm (or_intror eq_refl)).
    repeat split; try assumption.
    destruct (c_in c), (buf st0). cbn in *. congruence.
  - intros i d c. now apply (threaded_adjacent strong (calls st) _ Hth).
  - intros d Hlast. apply last_Some in Hlast as [l' El].
    rewrite El, fold_left_app in Hfold. cbn [fold_left] in Hfold.
    unfold state_thread, thread_next in Hfold.
    destruct (fold_left _ l' _) as [[[[aw b] po] n1] ds].
    injection Hfold as _ <- <- <- _. now repeat split.
Qed.

Lemma logreg_path_threaded_witness :
  exists st st0,
    logreg_path_run (kernel_all_active 1) (MkArray2 1 [[1]]) [1]
      (NdArray [1; 1 / 2]) (1 / 10000) 3000 10 None 2 true false = Ret st /\
    initial_state (MkArray2 1 [[1]]) [1] (as_grid (NdArray [1; 1 / 2])) None
    = Ret st0 /\
    forall c, calls st !! 0%nat = Some c -> c_in c = buf st0.
Proof.
  destruct (example_run true false) as [st Hst].
  destruct (logreg_path_threaded _ _ _ _ _ _ _ _ _ _ _ _ Hst)
    as (st0 & Hi & Hfirst & _).
  exists st, st0. split; [exact Hst|]. split; [exact Hi|].
  intros c Hc. now apply Hfirst.
Defined.

(** X23: every call of a run applies the kernel to the same data, squared
    column norms, tolerance and options, at the penalty [lambdas[t]] of its
    index [t]; what is recorded as returned is what the kernel returns on
    these arguments. *)
Theorem logreg_path_call_args
    (cd_logreg : kernel_args -> buffers -> kernel_out * buffers)
    (X : ndarray2) (y : list R) (lambdas : lambdas_arg) (eps : R)
    (max_iter f : Z) (beta0 : option (list R)) (screening : Z)
    (gap strong : bool) (st : path_state) :
  logreg_path_run cd_logreg X y lambdas eps max_iter f beta0 screening
                  gap strong = Ret st ->
  exists tol,
    tolerance eps (n_rows X) y = Ret tol /\
    forall c, In c (calls st) ->
      a_X (c_args c) = X /\ a_y (c_args c) = y /\
      a_norm_X2 (c_args c) = map Rsumsq (columns X) /\
      a_tol (c_args c) = tol /\
      a_max_iter (c_args c) = max_iter /\ a_f (c_args c) = f /\
      a_screening (c_args c) = screening /\
      grid_get (as_grid lambdas) (c_t c) = Ret (a_lambda (c_args c)) /\
      (c_ret c, c_after c) = cd_logreg (c_args c) (c_in c).
Proof.
  intros H. apply logreg_path_run_inv in H as (tol & st0 & Ht & Hi & Hl).
  exists tol. split; [exact Ht|].
  apply initial_state_inv in Hi as (Hc & _).
  apply (path_loop_args _ _ _ _ _ _ _ _ _ _ _ _ _ _ Hl).
  rewrite Hc. intros c [].
Qed.

Lemma logreg_path_call_args_witness :
  exists st tol,
    logreg_path_run (kernel_all_active 1) (MkArray2 1 [[1]]) [1]
      (NdArray [1; 1 / 2]) (1 / 10000) 3000 10 None 2 true false = Ret st /\
    tolerance (1 / 10000) 1 [1] = Ret tol /\
    forall c, In c (calls st) -> a_tol (c_args c) = tol.
Proof.
  destruct (example_run true false) as [st Hst].
  destruct (logreg_path_call_args _ _ _ _ _ _ _ _ _ _ _ _ Hst)
    as (tol & Ht & Hall).
  exists st, tol. split; [exact Hst|]. split; [exact Ht|].
  intros c Hc. now apply Hall.
Defined.

Lemma in_unconverged tol gaps ts t :
  In t (unconverged tol gaps ts) <->
  In t ts /\ exists g, gaps !! t = Some g /\ tol < Rabs g.
Proof.
  unfold unconverged. rewrite filter_In. split.
  - intros [Hin Hg]. split; [exact Hin|].
    destruct (gaps !! t) as [g|]; [|discriminate].
    exists g. split; [reflexivity|]. now apply Rltb_iff.
  - intros [Hin (g & -> & Hg)]. split; [exact Hin|]. now apply Rltb_iff.
Qed.

(** X24: the warnings printed by a run are, in increasing order and once each,
    the indices whose returned gap exceeds the tolerance in magnitude. *)
Theorem logreg_path_warnings
    (cd_logreg : kernel_args -> buffers -> kernel_out * buffers)
    (X : ndarray2) (y : list R) (lambdas : lambdas_arg) (eps : R)
    (max_iter f : Z) (beta0 : option (list R)) (screening : Z)
    (gap strong : bool) (st : path_state) :
  logreg_path_run cd_logreg X y lambdas eps max_iter f beta0 screening
                  gap strong = Ret st ->
  exists tol,
    tolerance eps (n_rows X) y = Ret tol /\
    warnings st
    = unconverged tol (gaps st) (seq 0 (grid_len (as_grid lambdas))) /\
    forall t, In t (warnings st) <->
      (t < grid_len (as_grid lambdas))%nat /\
      exists g, gaps st !! t = Some g /\ tol < Rabs g.
Proof.
  intros H. apply logreg_path_run_inv in H as (tol & st0 & Ht & Hi & Hl).
  exists tol. split; [exact Ht|].
  apply initial_state_inv in Hi as (_ & Hw & _ & _ & Hg & _).
  pose proof (path_loop_warnings _ _ _ _ _ _ _ _ _ _ _ _ _ _ _ Hl) as Hwarn.
  rewrite Hw in Hwarn. cbn [app] in Hwarn.
  rewrite Hwarn by (rewrite Hg, repeat_length; lia).
  split; [reflexivity|]. intros t. rewrite in_unconverged, in_seq.
  split; intros [H1 H2]; (split; [lia | exact H2]).
Qed.

Lemma logreg_path_warnings_witness :
  exists st tol,
    logreg_path_run (kernel_all_active 1) (MkArray2 1 [[1]]) [1]
      (NdArray [1; 1 / 2]) (1 / 10000) 3000 10 None 2 true false = Ret st /\
    tolerance (1 / 10000) 1 [1] = Ret tol /\
    warnings st = unconverged tol (gaps st) (seq 0 2).
Proof.
  destruct (example_run true false) as [st Hst].
  destruct (logreg_path_warnings _ _ _ _ _ _ _ _ _ _ _ _ Hst)
    as (tol & Ht & Hw & _).
  exists st, tol. split; [exact Hst|]. split; [exact Ht | exact Hw].
Defined.

(** ** Zero initial coefficients *)

Lemma mat_vec_zeros X :
  wf_array2 X ->
  mat_vec X (zeros (length (columns X))) = Ret (zeros (n_rows X)).
Proof.
  intros Hwf. unfold mat_vec. rewrite length_zeros, Nat.eqb_refl. f_equal.
  unfold wf_array2 in Hwf. unfold zeros.
  induction Hwf as [|c cols Hc Hwf IH]; [reflexivity|].
  cbn [length repeat combine fold_right fst snd]. rewrite IH.
  clear IH Hwf. revert c Hc. generalize (n_rows X).
  induction n as [|n IHn]; intros [|v c] Hc; try discriminate; [reflexivity|].
  cbn [repeat combine map fst snd]. f_equal; [ring|].
  apply IHn. now injection Hc.
Qed.

Lemma vdot_zeros y n : vdot y (zeros n) = 0.
Proof.
  unfold vdot, zeros. revert n.
  induction y as [|v y IH]; intros [|n]; cbn [repeat combine map Rsum fold_right fst snd];
    try reflexivity.
  change (fold_right Rplus 0 ?l) with (Rsum l). rewrite IH. ring.
Qed.

Lemma log_term_zeros n :
  Rsum (map (fun e => ln (1 + e)) (map exp (zeros n))) = INR n * ln 2.
Proof.
  unfold zeros. induction n as [|n IH]; [cbn; ring|].
  rewrite S_INR. cbn [repeat map Rsum fold_right].
  change (fold_right Rplus 0 ?l) with (Rsum l). rewrite IH, exp_0.
  replace (1 + 1) with 2 by ring. ring.
Qed.

Lemma residual_zeros y :
  map (fun p => fst p - snd p / (1 + snd p))
      (combine y (map exp (zeros (length y))))
  = map (fun v => v - 1 / 2) y.
Proof.
  unfold zeros. induction y as [|v y IH]; [reflexivity|].
  cbn [length repeat map combine fst snd]. rewrite IH, exp_0. f_equal; try field.
Qed.

(** X25: on a well-shaped dataset and a one-dimensional grid, passing zero
    initial coefficients explicitly is the same as passing none: the initial
    objective
    [-y.Xbeta + sum(log1p(exp(Xbeta))) + lambdas[0] * norm1_beta] is then
    [n_samples * log(2)], the residual [y - 0.5], and the whole run is the
    same. *)
Theorem logreg_path_zero_init
    (cd_logreg : kernel_args -> buffers -> kernel_out * buffers)
    (X : ndarray2) (y l : list R) (eps : R)
    (max_iter f : Z) (screening : Z) (gap strong : bool) :
  wf_array2 X -> length y = n_rows X ->
  initial_state X y (Grid1 l) (Some (zeros (length (columns X))))
  = initial_state X y (Grid1 l) None /\
  logreg_path cd_logreg X y (NdArray l) eps max_iter f
    (Some (zeros (length (columns X)))) screening gap strong
  = logreg_path cd_logreg X y (NdArray l) eps max_iter f None screening
      gap strong.
Proof.
  intros Hwf Hy.
  assert (initial_state X y (Grid1 l) (Some (zeros (length (columns X))))
          = initial_state X y (Grid1 l) None) as Hi.
  { unfold initial_state. rewrite mat_vec_zeros by assumption. cbn [bind].
    rewrite (proj2 (Nat.eqb_eq _ _) Hy). cbn [negb].
    destruct l as [|l0 l'].
    { cbn [grid_get getitem lookup list_lookup bind].
      unfold matT_vec, dot_cols_T. rewrite length_map.
      now rewrite (proj2 (Nat.eqb_eq _ _) Hy). }
    cbn [grid_get getitem lookup list_lookup bind pv_affine].
    rewrite vdot_zeros, log_term_zeros, <- Hy, residual_zeros.
    assert (Rsum (map Rabs (zeros (length (columns X)))) = 0) as ->.
    { unfold zeros. induction (length (columns X)) as [|n IH]; [reflexivity|].
      cbn [repeat map Rsum fold_right].
      change (fold_right Rplus 0 ?l) with (Rsum l). rewrite IH, Rabs_R0. ring. }
    replace (- 0 + INR (length y) * ln 2 + l0 * 0) with (INR (length y) * ln 2)
      by ring.
    reflexivity. }
  split; [exact Hi|].
  unfold logreg_path, logreg_path_run. cbn [as_grid]. now rewrite Hi.
Qed.

Lemma logreg_path_zero_init_witness :
  logreg_path (kernel_all_active 1) (MkArray2 1 [[1]]) [1] (NdArray [1; 1 / 2])
    (1 / 10000) 3000 10 (Some (zeros 1)) 2 true false
  = logreg_path (kernel_all_active 1) (MkArray2 1 [[1]]) [1]
      (NdArray [1; 1 / 2]) (1 / 10000) 3000 10 None 2 true false.
Proof.
  apply (logreg_path_zero_init (kernel_all_active 1) (MkArray2 1 [[1]])).
  - repeat constructor.
  - reflexivity.
Defined.

(** ** logreg_path: where the mask of a warm start comes from *)

Section FirstCall.

Variable cd_logreg : kernel_args -> buffers -> kernel_out * buffers.
Variables (X : ndarray2) (y : list R) (lambdas : grid).
Variables (tol : R) (norm_X2 : list R) (max_iter f screening : Z).
Variables (gap strong : bool).

Local Abbreviation path_step :=
  (path_step cd_logreg X y lambdas tol norm_X2 max_iter f screening
             gap strong).
Local Abbreviation path_loop :=
  (path_loop cd_logreg X y lambdas tol norm_X2 max_iter f screening
             gap strong).
Local Abbreviation warm_buffers := (warm_buffers lambdas strong).

(** At an index other than the first, with a warm-start strategy on, the
    first call of the step receives the buffers of lines 142-143; it is a
    warm start unless the gap strategy finds no feature. *)
Lemma path_step_first_call t st st' :
  path_step t st = Ret st' ->
  t <> 0%nat -> strong || gap = true ->
  (gap = true -> n_active_features st !! t = Some 0%Z) ->
  (gap = false -> run_active_warm_start st = true) ->
  exists c rest,
    calls st' = calls st ++ c :: rest /\ c_t c = t /\
    warm_buffers t st = Ret (c_in c) /\
    (is_warm c <-> gap = false \/ (0 < n_features X)%nat).
Proof.
  intros H Ht Hact Hgap Hrun.
  apply path_step_inv in H as (st1 & Hw & Hd).
  apply definitive_cases in Hd as (lam & _ & ->). cbv zeta. cbn [calls].
  assert ((strong || gap) && negb (Nat.eqb t 0) = true) as Hcond.
  { rewrite Hact. cbn [andb]. now apply negb_true_iff, Nat.eqb_neq. }
  apply warm_start_cases in Hw
    as [[_ Hc]|[(b & _ & Hb & Hdec & ->)|(b & lam_t & _ & Hb & Hdec & _ & ->)]].
  - rewrite Hcond in Hc. discriminate Hc.
  - cbn [calls buf]. eexists _, []. split; [reflexivity|].
    cbn [c_t c_in]. split; [reflexivity|]. split; [exact Hb|].
    unfold is_warm. cbn [c_args a_wstr_plus SaveLogreg.kernel_call].
    apply warm_decision_spec in Hdec as [Hd0 Hd1].
    split; [discriminate|]. intros Hor; exfalso.
    destruct gap.
    + destruct Hor as [Hg|Hp]; [discriminate Hg|].
      destruct (Hd1 eq_refl) as (n & Hn & Hlt).
      rewrite (Hgap eq_refl) in Hn. injection Hn as <-.
      symmetry in Hlt. apply Z.ltb_ge in Hlt. unfold n_features in *. lia.
    + specialize (Hd0 eq_refl). specialize (Hrun eq_refl). congruence.
  - cbv zeta. cbn [calls buf]. rewrite <- app_assoc. cbn [app].
    eexists _, _. split; [reflexivity|].
    cbn [c_t c_in]. split; [reflexivity|]. split; [exact Hb|].
    unfold is_warm. cbn [c_args a_wstr_plus SaveLogreg.kernel_call].
    split; [intros _|reflexivity].
    apply warm_decision_spec in Hdec as [Hd0 Hd1].
    destruct gap; [right|now left].
    destruct (Hd1 eq_refl) as (n & Hn & Hlt).
    rewrite (Hgap eq_refl) in Hn. injection Hn as <-.
    symmetry in Hlt. apply Z.ltb_lt in Hlt. unfold n_features in *. lia.
Qed.

Lemma path_loop_run_flag ts :
  forall st st',
    gap = false -> path_loop ts st = Ret st' ->
    run_active_warm_start st' = run_active_warm_start st.
Proof.
  induction ts as [|t ts IH]; intros st st' Hg H.
  - now injection H as <-.
  - cbn [SaveLogreg.path_loop] in H. break_bind_as H st1.
    rewrite (IH st1 st' Hg H).
    apply path_step_inv in E as (st2 & Hw & Hd).
    apply warm_start_spec in Hw as (_ & _ & _ & _ & _ & _ & Hr & _).
    apply definitive_spec in Hd as (c & _ & _ & _ & _ & _ & _ & _ & Hr' & _).
    now rewrite Hr', (Hr Hg).
Qed.

Lemma path_loop_calls_grow ts :
  forall st st',
    path_loop ts st = Ret st' -> exists new, calls st' = calls st ++ new.
Proof.
  induction ts as [|t ts IH]; intros st st' H.
  - injection H as <-. exists []. now rewrite app_nil_r.
  - cbn [SaveLogreg.path_loop] in H. break_bind_as H st1.
    destruct (IH st1 st' H) as [new ->].
    apply path_step_inv in E as (st2 & Hw & Hd).
    apply definitive_cases in Hd as (lam & _ & ->). cbv zeta. cbn [calls].
    apply warm_start_cases in Hw
      as [[-> _]|[(b & _ & _ & _ & ->)|(b & lam_t & _ & _ & _ & _ & ->)]];
      cbv zeta; cbn [calls]; rewrite <- ?app_assoc; eauto.
Qed.

End FirstCall.

Section MaskOrigin.

Variable cd_logreg : kernel_args -> buffers -> kernel_out * buffers.
Variables (X : ndarray2) (y : list R) (lambdas : lambdas_arg) (eps : R).
Variables (max_iter f : Z) (beta0 : option (list R)) (screening : Z).
Variables (gap strong : bool).

Local Abbreviation prefix :=
  (logreg_path_prefix cd_logreg X y lambdas eps max_iter f beta0 screening
                      gap strong).
Local Abbreviation n_lambdas := (grid_len (as_grid lambdas)).

(** In a whole run with a warm-start strategy on, every index [t >= 1] has a
    first call, right after the definitive call of index [t - 1]; it receives
    the buffers that lines 142-143 make of those that call left. *)
Lemma first_call_at st t :
  well_formed X y lambdas beta0 -> prefix n_lambdas = Ret st ->
  strong || gap = true -> (1 <= t < n_lambdas)%nat ->
  exists i d c st_t,
    calls st !! i = Some d /\ calls st !! S i = Some c /\
    c_t d = (t - 1)%nat /\ ~ is_warm d /\ c_t c = t /\
    (is_warm c <-> gap = false \/ (0 < n_features X)%nat) /\
    c_after d = buf st_t /\
    warm_buffers (as_grid lambdas) strong t st_t = Ret (c_in c).
Proof.
  intros Hwf Hst Hact Ht.
  destruct (prefix_extend _ _ _ _ _ _ _ _ _ _ _ (S t) n_lambdas st
              ltac:(lia) Hst) as (tol & st_t1 & Htol & Ht1 & Hrest).
  destruct (prefix_extend _ _ _ _ _ _ _ _ _ _ _ t (S t) st_t1
              (Nat.le_succ_diag_r t) Ht1) as (tol' & st_t & Htol' & Hpt & Hstep).
  rewrite Htol in Htol'. injection Htol' as <-.
  replace (S t - t)%nat with 1%nat in Hstep by lia.
  cbn [seq] in Hstep. rewrite path_loop_single in Hstep.
  (* the state before the step *)
  assert (prefix (S (t - 1)) = Ret st_t) as Hpt'
    by (replace (S (t - 1)) with t by lia; exact Hpt).
  destruct (prefix_records _ _ _ _ _ _ _ _ _ _ _ _ _ Hwf Hpt')
    as (_ & d & Hlast & Hdt & Hdw & Hdaft & _).
  destruct (prefix_start _ _ _ _ _ _ _ _ _ _ _ _ _ Hwf Hpt)
    as (tol0 & st0 & Hloop0 & _ & Hrun0 & _ & _ & _ & Hna0).
  destruct (path_loop_frame _ _ _ _ _ _ _ _ _ _ _ _ _ _ Hloop0) as [_ Hfr].
  destruct (path_step_first_call _ _ _ _ _ _ _ _ _ _ _ _ _ _ Hstep)
    as (c & rest & Hcalls & Hct & Hbuf & Hwarm); try assumption.
  { lia. }
  { intros _. destruct (Hfr t) as (_ & _ & _ & ->); [rewrite in_seq; lia|].
    rewrite Hna0. apply lookup_repeat. lia. }
  { intros Hg. now rewrite (path_loop_run_flag _ _ _ _ _ _ _ _ _ _ _ _ _ _ Hg Hloop0). }
  destruct (path_loop_calls_grow _ _ _ _ _ _ _ _ _ _ _ _ _ _ Hrest) as [new Hnew].
  apply last_Some in Hlast as [l' El].
  exists (length l'), d, c, st_t.
  assert (calls st = l' ++ d :: c :: rest ++ new) as Ecalls.
  { rewrite Hnew, Hcalls, El, <- !app_assoc. reflexivity. }
  rewrite Ecalls. split; [|split].
  - rewrite lookup_app_r by lia. now rewrite Nat.sub_diag.
  - rewrite lookup_app_r by lia.
    replace (S (length l') - length l')%nat with 1%nat by lia. reflexivity.
  - split; [exact Hdt|]. split; [exact Hdw|]. split; [exact Hct|].
    split; [exact Hwarm|]. split; [exact Hdaft | exact Hbuf].
Qed.

End MaskOrigin.

Section MaskOriginClaim.

Variable cd_logreg : kernel_args -> buffers -> kernel_out * buffers.
Variables (X : ndarray2) (y : list R) (lambdas : lambdas_arg) (eps : R).
Variables (max_iter f : Z) (beta0 : option (list R)) (screening : Z).

Local Abbreviation n_lambdas := (grid_len (as_grid lambdas)).

(** C9: in a run over a well-formed input, at every index [t >= 1] the first
    call made comes right after the definitive call of index [t - 1].  With
    the gap flag and without the strong flag that first call is the
    warm-start solve (as soon as there is a feature), and the mask it receives
    is the one the definitive solve of [t - 1] left: the mask starts as zeros
    and every call receives it as the call before left it.  With the strong
    flag the first call at [t] (the warm-start solve, unless the gap flag
    finds no feature) receives the mask
    [|XTR| < 2 lambdas[t] - lambdas[t - 1]] computed from the gradient that
    the solve before left and from nothing else. *)
Theorem warm_start_mask_origin (gap strong : bool) :
  well_formed X y lambdas beta0 ->
  exists st,
    logreg_path_run cd_logreg X y lambdas eps max_iter f beta0 screening
                    gap strong = Ret st /\
    (gap = true -> strong = false ->
     (forall c, calls st !! 0%nat = Some c ->
        ~ is_warm c /\
        disabled_features (c_in c) = repeat 0%Z (n_features X)) /\
     (forall i d c,
        calls st !! i = Some d -> calls st !! S i = Some c ->
        disabled_features (c_in c) = disabled_features (c_after d) /\
        (is_warm c -> ~ is_warm d /\ c_t c = S (c_t d))) /\
     (forall t, (1 <= t < n_lambdas)%nat ->
        exists i d c,
          calls st !! i = Some d /\ calls st !! S i = Some c /\
          c_t d = (t - 1)%nat /\ ~ is_warm d /\ c_t c = t /\
          (is_warm c <-> (0 < n_features X)%nat) /\
          disabled_features (c_in c) = disabled_features (c_after d))) /\
    (strong = true ->
     (forall c, In c (calls st) -> is_warm c ->
        strong_call_ok (as_grid lambdas) c) /\
     (forall t, (1 <= t < n_lambdas)%nat ->
        exists i d c l lam_t lam_prev,
          calls st !! i = Some d /\ calls st !! S i = Some c /\
          c_t d = (t - 1)%nat /\ ~ is_warm d /\ c_t c = t /\
          (is_warm c <-> gap = false \/ (0 < n_features X)%nat) /\
          XTR (c_in c) = XTR (c_after d) /\
          lambdas = NdArray l /\
          l !! t = Some lam_t /\ l !! (t - 1)%nat = Some lam_prev /\
          disabled_features (c_in c)
          = map (fun g => lt_intc (Rabs g) (2 * lam_t - lam_prev))
                (XTR (c_after d)))).
Proof.
  intros Hwf.
  destruct (prefix_total cd_logreg X y lambdas eps max_iter f beta0 screening
              gap strong n_lambdas Hwf (Nat.le_refl _)) as [st Hst].
  exists st. split; [rewrite logreg_path_run_prefix; exact Hst|]. split.
  - intros Hg Hs.
    pose proof (gap_chain _ _ _ _ _ _ _ _ _ _ _ st Hwf Hs Hst) as Hchain.
    destruct (prefix_inv _ _ _ _ _ _ _ _ _ _ _ _ _ Hst)
      as (tol & st0 & _ & Hinit & Hloop).
    apply initial_state_inv in Hinit
      as (Hc0 & _ & _ & _ & _ & _ & _ & Hmask0 & _).
    destruct (path_loop_threaded _ _ _ _ _ _ _ _ _ _ _ _ _ _ _
                (state_thread st0) Hloop) as [Hth _];
      [reflexivity | now rewrite Hc0 | now rewrite Hc0 |].
    split; [|split].
    + intros c Hc. destruct (calls st) as [|c' cs] eqn:Ecs; [discriminate Hc|].
      injection Hc as ->. split; [now apply chain_ok_first in Hchain|].
      destruct Hth as [Hok _]. unfold state_thread in Hok. rewrite Hc0 in Hok.
      cbn [thread_ok] in Hok. destruct Hok as (_ & Hm & _).
      rewrite (Hm (or_intror eq_refl)). exact Hmask0.
    + intros i d c Hd Hc. split.
      * destruct (threaded_adjacent strong (calls st) _ Hth i d c Hd Hc)
          as (_ & Hm & _).
        apply Hm. now left.
      * intros Hw.
        destruct (chain_ok_adjacent _ _ Hchain i d c Hd Hc Hw) as (H1 & H2 & _).
        now split.
    + intros t Ht.
      destruct (first_call_at cd_logreg X y lambdas eps max_iter f beta0
                  screening gap strong st t Hwf Hst)
        as (i & d & c & st_t & Hd & Hc & Hdt & Hdw & Hct & Hwarm & Haft & Hbuf);
        [rewrite Hg; apply orb_true_r | exact Ht |].
      exists i, d, c. repeat (split; [assumption|]). split.
      * rewrite Hwarm. split; [intros [E|E]; [congruence | exact E] | now right].
      * apply warm_buffers_iterate in Hbuf as [_ Heq].
        now rewrite (Heq Hs), Haft.
  - intros Hs. split.
    + now apply (strong_warm_calls _ _ _ _ _ _ _ _ _ _ _ st Hwf Hs Hst).
    + intros t Ht.
      destruct (first_call_at cd_logreg X y lambdas eps max_iter f beta0
                  screening gap strong st t Hwf Hst)
        as (i & d & c & st_t & Hd & Hc & Hdt & Hdw & Hct & Hwarm & Haft & Hbuf);
        [now rewrite Hs | exact Ht |].
      apply warm_buffers_spec in Hbuf as (HX & _ & Hmask).
      destruct (Hmask Hs) as (lam_t & lam_prev & Hl1 & Hl2 & Hm).
      assert (strong_call_ok (as_grid lambdas) c) as Hok.
      { split; [lia|]. exists lam_t, lam_prev. rewrite Hct, HX.
        now repeat split. }
      destruct (strong_call_ok_mask _ _ Hok)
        as (_ & l & a & b & El & E1 & E2 & Hform).
      rewrite Hct in E1, E2.
      exists i, d, c, l, a, b. repeat (split; [assumption|]).
      rewrite Haft. split; [exact HX|]. repeat (split; [assumption|]).
      now rewrite Hform, HX.
Qed.

End MaskOriginClaim.

Lemma warm_start_mask_origin_witness :
  (exists st,
     logreg_path_run (kernel_all_active 1) (MkArray2 1 [[1]]) [1]
       (NdArray [1; 1 / 2]) (1 / 10000) 3000 10 None 2 true false = Ret st /\
     forall t, (1 <= t < 2)%nat ->
       exists i d c,
         calls st !! i = Some d /\ calls st !! S i = Some c /\
         c_t d = (t - 1)%nat /\ ~ is_warm d /\ c_t c = t /\
         (is_warm c <-> (0 < n_features (MkArray2 1 [[1%R]]))%nat) /\
         disabled_features (c_in c) = disabled_features (c_after d)) /\
  (exists st,
     logreg_path_run (kernel_all_active 1) (MkArray2 1 [[1]]) [1]
       (NdArray [1; 1 / 2]) (1 / 10000) 3000 10 None 2 false true = Ret st /\
     forall t, (1 <= t < 2)%nat ->
       exists i d c l lam_t lam_prev,
         calls st !! i = Some d /\ calls st !! S i = Some c /\
         c_t d = (t - 1)%nat /\ ~ is_warm d /\ c_t c = t /\
         (is_warm c <-> false = false \/ (0 < n_features (MkArray2 1 [[1%R]]))%nat) /\
         XTR (c_in c) = XTR (c_after d) /\
         NdArray [1; 1 / 2] = NdArray l /\
         l !! t = Some lam_t /\ l !! (t - 1)%nat = Some lam_prev /\
         disabled_features (c_in c)
         = map (fun g => lt_intc (Rabs g) (2 * lam_t - lam_prev))
               (XTR (c_after d))).
Proof.
  assert (Hwf : well_formed (MkArray2 1 [[1]]) [1] (NdArray [1; 1 / 2]) None)
    by (apply example_well_formed; cbn; lia).
  split.
  - destruct (warm_start_mask_origin (kernel_all_active 1) (MkArray2 1 [[1]])
                [1] (NdArray [1; 1 / 2]) (1 / 10000) 3000 10 None 2 true false
                Hwf) as (st & Hst & Hgap & _).
    exists st. split; [exact Hst|]. now apply Hgap.
  - destruct (warm_start_mask_origin (kernel_all_active 1) (MkArray2 1 [[1]])
                [1] (NdArray [1; 1 / 2]) (1 / 10000) 3000 10 None 2 false true
                Hwf) as (st & Hst & _ & Hstrong).
    exists st. split; [exact Hst|]. now apply Hstrong.
Defined.
